(** * Degradation indicators and sensor ranking (src/utils.py)

    A shallow embedding of [ensure_life_frac], [degradation_indicators] and
    [rank_sensors_by_degradation], and the properties the specification
    states about them.

    Numbers are IEEE-754 binary64 values, taken from the Standard Library's
    executable specification [SpecFloat] (precision 53, emax 1024): NaN, the
    two infinities, signed zeros and finite values, with correctly rounded
    operations.  A table is the ordered list of its named columns, each of
    dtype int64 or float64, and the functions run in a state monad over the
    table object their caller passed, so that the one in-place write of
    [ensure_life_frac] is visible.

    Three routines of numpy are parameters of the development: [np.log],
    [np.polyfit] (which fails with LinAlgError on some non-finite inputs)
    and the [argsort] behind [sort_values], of which only numpy's contract
    is assumed; numpy's quicksort kind, the default of [sort_values], is
    also written out after its source, for the table on which it reorders
    sensors of equal score.  Reductions ([sum], [mean], [var]) add their
    terms from left to right. *)

From Stdlib Require Import ZArith List String Bool Lia Permutation Sorted.
From Stdlib Require Import Floats.SpecFloat.
From Stdlib Require Import DecimalString.
Import ListNotations.
Local Open Scope Z_scope.

(** ** binary64 *)

Module F64.

Definition prec : Z := 53.
Definition emax : Z := 1024.

Definition float := spec_float.

Definition nan : float := S754_nan.
Definition pinf : float := S754_infinity false.
Definition ninf : float := S754_infinity true.
Definition zero : float := S754_zero false.

Definition add : float -> float -> float := SFadd prec emax.
Definition sub : float -> float -> float := SFsub prec emax.
Definition mul : float -> float -> float := SFmul prec emax.
Definition div : float -> float -> float := SFdiv prec emax.
Definition sqrt : float -> float := SFsqrt prec emax.
Definition abs : float -> float := SFabs.

(** C's [(double) z] for an int64 [z]: round to nearest, ties to even. *)
Definition of_Z (z : Z) : float := binary_normalize prec emax z 0 false.

Definition one : float := of_Z 1.

(** [x < y], [x <= y], [x > y], [x >= y]: all false when an operand is NaN. *)
Definition ltb (x y : float) : bool := SFltb x y.
Definition leb (x y : float) : bool := SFleb x y.
Definition gtb (x y : float) : bool := SFltb y x.
Definition geb (x y : float) : bool := SFleb y x.
Definition eqb (x y : float) : bool := SFeqb x y.

Definition isnan (x : float) : bool :=
  match x with S754_nan => true | _ => false end.

(** [np.isfinite] *)
Definition isfinite (x : float) : bool :=
  match x with
  | S754_zero _ | S754_finite _ _ _ => true
  | S754_infinity _ | S754_nan => false
  end.

Definition isinf (x : float) : bool :=
  match x with S754_infinity _ => true | _ => false end.

End F64.

Import F64.

(** ** Tables *)

(** A column holds int64 or float64 cells (the two numeric dtypes of the
    telemetry table). *)
Inductive column :=
| IntCol (cells : list Z)
| FloatCol (cells : list float).

(** A table: its columns in order, each under its name.  Lookup takes the
    first column of that name. *)
Definition DataFrame := list (string * column).

Definition columns (df : DataFrame) : list string := map fst df.

Fixpoint lookup (name : string) (df : DataFrame) : option column :=
  match df with
  | [] => None
  | (n, c) :: rest => if String.eqb name n then Some c else lookup name rest
  end.

(** [name in df.columns] *)
Definition has_column (name : string) (df : DataFrame) : bool :=
  existsb (String.eqb name) (columns df).

(** [df[name] = c]: replaces the column when it is there, appends it
    otherwise. *)
Fixpoint assign (name : string) (c : column) (df : DataFrame) : DataFrame :=
  match df with
  | [] => [(name, c)]
  | (n, c') :: rest =>
      if String.eqb name n then (n, c) :: rest else (n, c') :: assign name c rest
  end.

(** A numeric column read as float64 (what numpy does before a true
    division, a comparison with a float, or a floating reduction). *)
Definition as_float (c : column) : list float :=
  match c with
  | IntCol l => map of_Z l
  | FloatCol l => l
  end.

(** ** Group keys *)

Inductive key :=
| KInt (z : Z)
| KFloat (x : float).

Definition key_eqb (a b : key) : bool :=
  match a, b with
  | KInt x, KInt y => Z.eqb x y
  | KFloat x, KFloat y => eqb x y
  | _, _ => false
  end.

(** The grouping keys of a column; a missing value (NaN) is no key, and
    [groupby] leaves its row out. *)
Definition keys_of (c : column) : list (option key) :=
  match c with
  | IntCol l => map (fun z => Some (KInt z)) l
  | FloatCol l => map (fun x => if isnan x then None else Some (KFloat x)) l
  end.

Section Groupby.
Context {A : Type}.

Fixpoint group_add (k : key) (a : A) (gs : list (key * list A))
  : list (key * list A) :=
  match gs with
  | [] => [(k, [a])]
  | (k', l) :: rest =>
      if key_eqb k k' then (k', l ++ [a]) :: rest
      else (k', l) :: group_add k a rest
  end.

(** [groupby(col, sort=False)]: the groups in order of first appearance,
    each with its rows in table order. *)
Definition groupby (rows : list (option key * A)) : list (key * list A) :=
  fold_left
    (fun gs r => match fst r with
                 | Some k => group_add k (snd r) gs
                 | None => gs
                 end)
    rows [].

Fixpoint group_of (k : key) (gs : list (key * list A)) : option (list A) :=
  match gs with
  | [] => None
  | (k', l) :: rest => if key_eqb k k' then Some l else group_of k rest
  end.
End Groupby.

(** ** Exceptions and the state of the caller's table *)

Inductive exn :=
| KeyError (what : string)
| ValueError (what : string)
| LinAlgError.

Inductive result (A : Type) :=
| Ok (a : A)
| Raise (e : exn).
Arguments Ok {A} a.
Arguments Raise {A} e.

(** A computation runs on the table object the caller passed: it returns or
    raises, and leaves the object in some state. *)
Definition M (A : Type) : Type := DataFrame -> result A * DataFrame.

Definition ret {A} (a : A) : M A := fun df => (Ok a, df).
Definition raise {A} (e : exn) : M A := fun df => (Raise e, df).
Definition bind {A B} (m : M A) (f : A -> M B) : M B :=
  fun df => match m df with
            | (Ok a, df') => f a df'
            | (Raise e, df') => (Raise e, df')
            end.

Notation "x <- m ;; k" := (bind m (fun x => k))
  (at level 61, m at next level, right associativity).
Notation "m ;;; k" := (bind m (fun _ => k))
  (at level 61, right associativity).

(** Reads of the table. *)
Definition df_columns : M (list string) := fun df => (Ok (columns df), df).
Definition df_contains (name : string) : M bool :=
  fun df => (Ok (has_column name df), df).
Definition df_getitem (name : string) : M column :=
  fun df => match lookup name df with
            | Some c => (Ok c, df)
            | None => (Raise (KeyError name), df)
            end.
(** The one write: [df[name] = c]. *)
Definition df_setitem (name : string) (c : column) : M unit :=
  fun df => (Ok tt, assign name c df).
Definition df_self : M DataFrame := fun df => (Ok df, df).

(** ** Reductions *)

Definition notnan (x : float) : bool := negb (isnan x).

(** Left-to-right floating sum. *)
Definition fsum (l : list float) : float := fold_left add l zero.

Definition of_nat (n : nat) : float := of_Z (Z.of_nat n).

(** [np.nanmean], and [Series.mean()] (which skips NaN too): the sum of the
    entries that are not NaN over their number; NaN (0/0) when there is
    none.  Infinite entries take part in the sum. *)
Definition nanmean (l : list float) : float :=
  let v := filter notnan l in
  div (fsum v) (of_nat (List.length v)).

(** [Series.var(ddof=1)]: NaN is skipped; with [count <= ddof] the result
    is NaN. *)
Definition var_ddof1 (l : list float) : float :=
  let v := filter notnan l in
  let count := List.length v in
  if (count <=? 1)%nat then nan
  else
    let avg := div (fsum v) (of_nat count) in
    let sqr := map (fun x => let d := sub avg x in mul d d) v in
    div (fsum sqr) (of_nat (count - 1)).

(** [Series.std(ddof=1)] *)
Definition std_ddof1 (l : list float) : float := sqrt (var_ddof1 l).

(** [int(np.sum(np.isfinite(l)))] *)
Definition count_finite (l : list float) : nat := List.length (filter isfinite l).

(** The group maximum of [transform("max")]: the integer maximum of an
    int64 group; on floats NaN is skipped and a group of NaN gives NaN. *)
Definition int_group_max (g : list Z) : float :=
  match g with
  | [] => nan
  | z :: rest => of_Z (fold_left Z.max rest z)
  end.

Definition float_group_max (g : list float) : float :=
  match filter notnan g with
  | [] => nan
  | x :: rest => fold_left (fun m y => if ltb m y then y else m) rest x
  end.

(** [groupby(keys)[col].transform(agg)]: every row gets the aggregate of
    its group; a row without key gets NaN. *)
Definition transform {A} (agg : list A -> float)
    (ks : list (option key)) (cells : list A) : list float :=
  let rows := combine ks cells in
  let gs := groupby rows in
  map (fun r => match fst r with
                | Some k => match group_of k gs with
                            | Some g => agg g
                            | None => nan
                            end
                | None => nan
                end) rows.

Definition transform_max (ks : list (option key)) (c : column) : list float :=
  match c with
  | IntCol l => transform int_group_max ks l
  | FloatCol l => transform float_group_max ks l
  end.

(** Elementwise true division of two aligned numeric series. *)
Definition series_div (a b : list float) : list float :=
  map (fun p => div (fst p) (snd p)) (combine a b).

(** ** ensure_life_frac *)

Definition ensure_life_frac (engine_col cycle_col out_col : string)
  : M DataFrame :=
  present <- df_contains out_col ;;
  if present then df_self
  else
    engines <- df_getitem engine_col ;;
    cycles <- df_getitem cycle_col ;;
    let max_cycle_per_engine := transform_max (keys_of engines) cycles in
    cycles' <- df_getitem cycle_col ;;
    df_setitem out_col
      (FloatCol (series_div (as_float cycles') max_cycle_per_engine)) ;;;
    df_self.

(** The defaults of the keyword arguments. *)
Definition default_engine_col : string := "engine_id".
Definition default_cycle_col : string := "cycle".
Definition default_life_frac_col : string := "life_frac".
Definition default_early_frac : float := div (of_Z 20) (of_Z 100).
Definition default_late_frac : float := div (of_Z 80) (of_Z 100).
Definition default_min_points_for_slope : Z := 20.

(** ** degradation_indicators *)

Record DegradationIndicators := {
  sensor : string;
  mean_shift : float;
  abs_mean_shift : float;
  variance_ratio : float;
  log_variance_ratio : float;
  slope : float;
  abs_slope : float;
  baseline_std_early : float;
  mean_shift_std : float;
  abs_mean_shift_std : float;
  slope_std : float;
  abs_slope_std : float;
  n_engines_used_shift : nat;
  n_engines_used_slope : nat
}.

(** The three lists the loop over the engines appends to. *)
Record accum := {
  mean_shifts : list float;
  var_ratios : list float;
  slopes : list float
}.

Definition no_accum : accum :=
  {| mean_shifts := []; var_ratios := []; slopes := [] |}.

(** [g[[life_frac_col, sensor]].dropna()] on the rows of one engine: a row
    goes when either cell is NaN (infinities stay). *)
Definition dropna (g : list (float * float)) : list (float * float) :=
  filter (fun r => notnan (fst r) && notnan (snd r)) g.

(** [g.loc[g[life_frac_col] <= early_frac, sensor]] *)
Definition early_window (early_frac : float) (g : list (float * float))
  : list float :=
  map snd (filter (fun r => leb (fst r) early_frac) g).

(** [g.loc[g[life_frac_col] >= late_frac, sensor]] *)
Definition late_window (late_frac : float) (g : list (float * float))
  : list float :=
  map snd (filter (fun r => geb (fst r) late_frac) g).

Section Indicators.

(** [np.log] on a float. *)
Variable np_log : float -> float.

(** [np.polyfit(x, y, 1)[0]]: the slope of the least-squares line, or
    [None] when the solver raises LinAlgError. *)
Variable np_polyfit_slope : list float -> list float -> option float.

Variable sensor_name : string.
Variable engine_col life_frac_col : string.
Variable early_frac late_frac : float.
Variable min_points_for_slope : Z.

(** The mean shift and the variance ratio of one engine: what the body of
    [if len(early_vals) >= 5 and len(late_vals) >= 5] appends. *)
Definition shift_step (early_vals late_vals : list float) (a : accum)
  : accum :=
  if (5 <=? List.length early_vals)%nat && (5 <=? List.length late_vals)%nat
  then
    let shifts := mean_shifts a ++ [sub (nanmean late_vals) (nanmean early_vals)] in
    let v_early := var_ddof1 early_vals in
    let v_late := var_ddof1 late_vals in
    {| mean_shifts := shifts;
       var_ratios :=
         if isfinite v_early && gtb v_early zero && isfinite v_late
         then var_ratios a ++ [div v_late v_early]
         else var_ratios a;
       slopes := slopes a |}
  else a.

(** The drift slope of one engine: the body of
    [if len(g) >= min_points_for_slope]. *)
Definition slope_step (g : list (float * float)) (a : accum) : M accum :=
  if (min_points_for_slope <=? Z.of_nat (List.length g))%Z then
    match np_polyfit_slope (map fst g) (map snd g) with
    | Some s =>
        ret {| mean_shifts := mean_shifts a;
               var_ratios := var_ratios a;
               slopes := slopes a ++ [s] |}
    | None => raise LinAlgError
    end
  else ret a.

(** One turn of the loop over the engines.  [rows] are the engine's
    (life_frac, sensor) cells.  When [life_frac_col] and [sensor] name the
    same column, [g[life_frac_col]] is a two-column frame and [g.loc]
    rejects the mask made from it. *)
Definition engine_step (rows : list (float * float)) (a : accum) : M accum :=
  let g := dropna rows in
  match g with
  | [] => ret a
  | _ =>
      if String.eqb life_frac_col sensor_name
      then raise (ValueError "Cannot index with multidimensional key")
      else
        let early_vals := early_window early_frac g in
        let late_vals := late_window late_frac g in
        slope_step g (shift_step early_vals late_vals a)
  end.

(** [for _, g in df.groupby(engine_col, sort=False): ...] *)
Fixpoint engine_loop (groups : list (key * list (float * float)))
    (a : accum) : M accum :=
  match groups with
  | [] => ret a
  | (_, rows) :: rest => a' <- engine_step rows a ;; engine_loop rest a'
  end.

(** [np.nanmean(l) if l else np.nan] *)
Definition fleet_mean (l : list float) : float :=
  match l with
  | [] => nan
  | _ => nanmean l
  end.

(** [df.loc[df[life_frac_col] <= early_frac, sensor]] *)
Definition pooled_early (life vals : list float) : list float :=
  map snd (filter (fun r => leb (fst r) early_frac) (combine life vals)).

Definition normalized (x baseline_std : float) : float :=
  if isfinite baseline_std then div x baseline_std else nan.

Definition degradation_indicators : M DegradationIndicators :=
  has_sensor <- df_contains sensor_name ;;
  if negb has_sensor
  then raise (KeyError ("Missing sensor column: " ++ sensor_name))
  else
  has_life <- df_contains life_frac_col ;;
  if negb has_life
  then raise (KeyError ("Missing '" ++ life_frac_col
           ++ "'. Call ensure_life_frac(df) before computing indicators."))
  else
  engines <- df_getitem engine_col ;;
  life <- df_getitem life_frac_col ;;
  vals <- df_getitem sensor_name ;;
  let groups :=
    groupby (combine (keys_of engines)
                     (combine (as_float life) (as_float vals))) in
  a <- engine_loop groups no_accum ;;
  let mean_shift := fleet_mean (mean_shifts a) in
  let abs_mean_shift := fleet_mean (map abs (mean_shifts a)) in
  let variance_ratio := fleet_mean (var_ratios a) in
  let log_variance_ratio :=
    if isfinite variance_ratio && gtb variance_ratio zero
    then np_log variance_ratio else nan in
  let slope := fleet_mean (slopes a) in
  let abs_slope := fleet_mean (map abs (slopes a)) in
  life' <- df_getitem life_frac_col ;;
  vals' <- df_getitem sensor_name ;;
  let baseline_std := std_ddof1 (pooled_early (as_float life') (as_float vals')) in
  let baseline_std :=
    if isfinite baseline_std && gtb baseline_std zero
    then baseline_std else nan in
  ret {| sensor := sensor_name;
         mean_shift := mean_shift;
         abs_mean_shift := abs_mean_shift;
         variance_ratio := variance_ratio;
         log_variance_ratio := log_variance_ratio;
         slope := slope;
         abs_slope := abs_slope;
         baseline_std_early := baseline_std;
         mean_shift_std := normalized mean_shift baseline_std;
         abs_mean_shift_std := normalized abs_mean_shift baseline_std;
         slope_std := normalized slope baseline_std;
         abs_slope_std := normalized abs_slope baseline_std;
         n_engines_used_shift :=
           match mean_shifts a with [] => 0%nat | l => count_finite l end;
         n_engines_used_slope :=
           match slopes a with [] => 0%nat | l => count_finite l end |}.

End Indicators.

(** ** rank_sensors_by_degradation *)

(** A row of the ranking table: the indicator fields and the two derived
    columns. *)
Record RankRow := {
  indicators : DegradationIndicators;
  instability_signal : float;
  score : float
}.

(** The keys of [ind.__dict__], in order. *)
Definition indicator_fields : list string :=
  [ "sensor"; "mean_shift"; "abs_mean_shift"; "variance_ratio";
    "log_variance_ratio"; "slope"; "abs_slope"; "baseline_std_early";
    "mean_shift_std"; "abs_mean_shift_std"; "slope_std"; "abs_slope_std";
    "n_engines_used_shift"; "n_engines_used_slope" ]%string.

(** The columns of [pd.DataFrame(rows)]: the keys of the row dictionaries;
    a frame made from no row has no column. *)
Definition frame_columns (rows : list DegradationIndicators) : list string :=
  match rows with
  | [] => []
  | _ :: _ => indicator_fields
  end.

(** [summary[name]] for a float column of the assembled frame. *)
Definition summary_getitem (rows : list DegradationIndicators)
    (name : string) (field : DegradationIndicators -> float) : M (list float) :=
  if existsb (String.eqb name) (frame_columns rows)
  then ret (map field rows)
  else raise (KeyError name).

(** [Series.clip(lower=lower)]: a value stays where it is missing or
    [>= lower], and becomes [lower] elsewhere. *)
Definition clip_lower (lower x : float) : float :=
  if isnan x || geb x lower then x else lower.

(** [Series.fillna(0)] *)
Definition fillna0 (x : float) : float := if isnan x then zero else x.

(** The rows of a list at the positions of an indexer ([take]). *)
Definition take {A} (l : list A) (indexer : list nat) : list A :=
  flat_map (fun i => match nth_error l i with
                     | Some a => [a]
                     | None => []
                     end) indexer.

Section Ranking.

Variable np_log : float -> float.
Variable np_polyfit_slope : list float -> list float -> option float.

(** [ndarray.argsort(kind="quicksort")], the kind [sort_values] uses when
    none is given: the positions of the items in ascending order of the
    items.  numpy documents this kind as not stable. *)
Variable np_argsort : list float -> list nat.

(** pandas' [nargsort(items, ascending=False, na_position="last")]: the
    items that are not NaN are reversed, sorted ascending, and the result
    reversed again; the positions of the NaN items come last. *)
Definition nargsort_descending (items : list float) : list nat :=
  let idx := seq 0 (List.length items) in
  let tagged := combine idx items in
  let non_nan := rev (filter (fun p => notnan (snd p)) tagged) in
  let nan_idx := map fst (filter (fun p => isnan (snd p)) tagged) in
  let indexer := rev (take (map fst non_nan) (np_argsort (map snd non_nan))) in
  indexer ++ nan_idx.

(** [summary.sort_values("score", ascending=False)] *)
Definition sort_values_by_score_descending (rows : list RankRow)
  : list RankRow :=
  take rows (nargsort_descending (map score rows)).

Variable engine_col life_frac_col : string.
Variable early_frac late_frac : float.
Variable min_points_for_slope : Z.

(** [for s in sensors: ... rows.append(ind.__dict__)] *)
Fixpoint collect_rows (sensors : list string)
    (rows : list DegradationIndicators) : M (list DegradationIndicators) :=
  match sensors with
  | [] => ret rows
  | s :: rest =>
      ind <- degradation_indicators np_log np_polyfit_slope s engine_col
               life_frac_col early_frac late_frac min_points_for_slope ;;
      collect_rows rest (rows ++ [ind])
  end.

(** The assembled frame with its two derived columns, before sorting. *)
Definition score_rows (rows : list DegradationIndicators) : M (list RankRow) :=
  lvr <- summary_getitem rows "log_variance_ratio" log_variance_ratio ;;
  let instability := map (clip_lower zero) lvr in
  shift <- summary_getitem rows "abs_mean_shift_std" abs_mean_shift_std ;;
  drift <- summary_getitem rows "abs_slope_std" abs_slope_std ;;
  let scores :=
    map (fun t => add (add (fillna0 (fst (fst t))) (fillna0 (snd (fst t))))
                      (fillna0 (snd t)))
        (combine (combine shift drift) instability) in
  ret (map (fun t => {| indicators := fst (fst t);
                        instability_signal := snd (fst t);
                        score := snd t |})
           (combine (combine rows instability) scores)).

Definition rank_sensors_by_degradation (sensors : option (list string))
  : M (list RankRow) :=
  sensors <- match sensors with
             | Some l => ret l
             | None =>
                 cols <- df_columns ;;
                 ret (filter (String.prefix "sensor_") cols)
             end ;;
  rows <- collect_rows sensors [] ;;
  summary <- score_rows rows ;;
  ret (sort_values_by_score_descending summary).

End Ranking.

(** ** Sorting kinds *)

(** What numpy promises of [argsort] whatever the kind: on items without
    NaN the result holds every position once, and reads the items in
    ascending order. *)
Definition argsort_spec (argsort : list float -> list nat) : Prop :=
  forall v, forallb notnan v = true ->
    Permutation (argsort v) (seq 0 (List.length v)) /\
    Sorted (fun x y => leb x y = true) (take v (argsort v)).

(** A kind is stable when equal items keep their positions' order. *)
Definition argsort_stable (argsort : list float -> list nat) : Prop :=
  forall v i j a b x y,
    forallb notnan v = true ->
    (i < j)%nat ->
    nth_error (argsort v) i = Some a -> nth_error (argsort v) j = Some b ->
    nth_error v a = Some x -> nth_error v b = Some y ->
    eqb x y = true -> (a < b)%nat.

(** Insertion sort on (position, item) pairs; [before q p] tells whether
    the pair [q], from further right in the input, goes before [p]. *)
Fixpoint insert_by (before : float -> float -> bool) (p : nat * float)
    (l : list (nat * float)) : list (nat * float) :=
  match l with
  | [] => [p]
  | q :: rest =>
      if before (snd q) (snd p) then q :: insert_by before p rest
      else p :: q :: rest
  end.

Definition insertion_argsort (before : float -> float -> bool)
    (v : list float) : list nat :=
  map fst (fold_right (insert_by before) []
             (combine (seq 0 (List.length v)) v)).

(** Equal items stay in input order: a stable kind. *)
Definition stable_argsort : list float -> list nat := insertion_argsort ltb.

(** ** numpy's quicksort kind

    [aquicksort_] of numpy's [npysort/quicksort.cpp], the routine behind
    [argsort(kind="quicksort")] on float64 items: an introsort on the array
    [tosort] of positions, with median-of-three partitioning, insertion
    sort for ranges of at most 17 positions, and heapsort once the depth
    limit is spent.  Pointers into [tosort] are positions in a list; every
    loop of the C code is a recursion on a counter no run exceeds. *)

(** [Tag::less] on floating-point items: NaN goes last. *)
Definition less (a b : float) : bool := ltb a b || (isnan b && notnan a).

(** [*p] and [*p = x] on the array of positions. *)
Definition arg_get (tosort : list nat) (p : nat) : nat := nth p tosort 0%nat.

Fixpoint arg_set (tosort : list nat) (p x : nat) : list nat :=
  match tosort, p with
  | [], _ => []
  | _ :: rest, O => x :: rest
  | y :: rest, S p' => y :: arg_set rest p' x
  end.

(** [INTP_SWAP] of the cells at [p] and [q]. *)
Definition INTP_SWAP (tosort : list nat) (p q : nat) : list nat :=
  arg_set (arg_set tosort p (arg_get tosort q)) q (arg_get tosort p).

Definition SMALL_QUICKSORT : nat := 16.

(** [npy_get_msb]: the position of the highest bit set. *)
Definition npy_get_msb (num : nat) : Z := Z.log2 (Z.of_nat num).

Section Npysort.

(** The items, [v]; [v[i]] is [item i]. *)
Variable v : list float.

Definition item (i : nat) : float := nth i v nan.

(** [do { ++pi; } while (Tag::less(v[*pi], vp));] *)
Fixpoint scan_up (count : nat) (tosort : list nat) (vp : float) (pi : nat)
  : nat :=
  match count with
  | O => pi
  | S count' =>
      let pi := S pi in
      if less (item (arg_get tosort pi)) vp
      then scan_up count' tosort vp pi else pi
  end.

(** [do { --pj; } while (Tag::less(vp, v[*pj]));] *)
Fixpoint scan_down (count : nat) (tosort : list nat) (vp : float) (pj : nat)
  : nat :=
  match count with
  | O => pj
  | S count' =>
      let pj := (pj - 1)%nat in
      if less vp (item (arg_get tosort pj))
      then scan_down count' tosort vp pj else pj
  end.

(** [for (;;) { scan up; scan down; if (pi >= pj) break;
    swap the cells at pi and pj; }]: the positions after the loop, and [pi]. *)
Fixpoint partition (count : nat) (tosort : list nat) (vp : float)
    (pi pj : nat) : list nat * nat :=
  match count with
  | O => (tosort, pi)
  | S count' =>
      let pi := scan_up (List.length tosort) tosort vp pi in
      let pj := scan_down (List.length tosort) tosort vp pj in
      if (pj <=? pi)%nat then (tosort, pi)
      else partition count' (INTP_SWAP tosort pi pj) vp pi pj
  end.

(** [while (pj > pl && Tag::less(vp, v[*pk])) { *pj-- = *pk--; }] with
    [pk = pj - 1]. *)
Fixpoint shift_right (count : nat) (tosort : list nat) (pl : nat)
    (vp : float) (pj : nat) : list nat * nat :=
  match count with
  | O => (tosort, pj)
  | S count' =>
      if (pl <? pj)%nat && less vp (item (arg_get tosort (pj - 1)))
      then shift_right count' (arg_set tosort pj (arg_get tosort (pj - 1)))
             pl vp (pj - 1)
      else (tosort, pj)
  end.

(** The insertion sort of the positions [pl .. pr]:
    [for (pi = pl + 1; pi <= pr; ++pi) { vi = *pi; vp = v[vi]; ...;
    *pj = vi; }] *)
Definition insertion_sort (tosort : list nat) (pl pr : nat) : list nat :=
  fold_left
    (fun tosort pi =>
       let vi := arg_get tosort pi in
       let '(tosort, pj) := shift_right pi tosort pl (item vi) pi in
       arg_set tosort pj vi)
    (seq (S pl) (pr - pl)) tosort.

(** The sift loop of [aheapsort_] on the [n] positions from [pl], where
    [a[i]] is the position [pl + i - 1]:
    [for (...; j <= n;) { if (j < n && less(v[a[j]], v[a[j + 1]])) j += 1;
    if (less(v[tmp], v[a[j]])) { a[i] = a[j]; i = j; j += j; } else break; }
    a[i] = tmp;] *)
Fixpoint sift (count : nat) (tosort : list nat) (pl n tmp i j : nat)
  : list nat :=
  match count with
  | O => arg_set tosort (pl + i - 1) tmp
  | S count' =>
      if (j <=? n)%nat then
        let j := if (j <? n)%nat
                    && less (item (arg_get tosort (pl + j - 1)))
                            (item (arg_get tosort (pl + (j + 1) - 1)))
                 then S j else j in
        if less (item tmp) (item (arg_get tosort (pl + j - 1)))
        then sift count' (arg_set tosort (pl + i - 1)
                            (arg_get tosort (pl + j - 1)))
               pl n tmp j (j + j)
        else arg_set tosort (pl + i - 1) tmp
      else arg_set tosort (pl + i - 1) tmp
  end.

(** [aheapsort_(vv, pl, n)]: build the heap ([for (l = n >> 1; l > 0; --l)]),
    then move the largest item to the end, [n - 1] times. *)
Definition aheapsort (tosort : list nat) (pl n : nat) : list nat :=
  let tosort :=
    fold_left
      (fun tosort l =>
         sift n tosort pl n (arg_get tosort (pl + l - 1)) l (l + l))
      (rev (seq 1 (n / 2))) tosort in
  fold_left
    (fun tosort n =>
       let tmp := arg_get tosort (pl + n - 1) in
       let tosort := arg_set tosort (pl + n - 1) (arg_get tosort pl) in
       sift n tosort pl (n - 1) tmp 1 2)
    (rev (seq 2 (n - 1))) tosort.

(** [while ((pr - pl) > SMALL_QUICKSORT) { ... }]: median of three, the
    pivot moved to [pr - 1], the partition, the pivot moved to its place
    [pi], the larger side pushed with the new depth and the loop carried on
    with the smaller side. *)
Fixpoint partitions (count : nat) (tosort : list nat) (pl pr : nat)
    (stack : list (nat * nat * Z)) (cdepth : Z)
  : list nat * nat * nat * list (nat * nat * Z) :=
  match count with
  | O => (tosort, pl, pr, stack)
  | S count' =>
      if (SMALL_QUICKSORT <? pr - pl)%nat then
        let pm := (pl + (pr - pl) / 2)%nat in
        let tosort :=
          if less (item (arg_get tosort pm)) (item (arg_get tosort pl))
          then INTP_SWAP tosort pm pl else tosort in
        let tosort :=
          if less (item (arg_get tosort pr)) (item (arg_get tosort pm))
          then INTP_SWAP tosort pr pm else tosort in
        let tosort :=
          if less (item (arg_get tosort pm)) (item (arg_get tosort pl))
          then INTP_SWAP tosort pm pl else tosort in
        let vp := item (arg_get tosort pm) in
        let tosort := INTP_SWAP tosort pm (pr - 1) in
        let '(tosort, pi) :=
          partition (List.length tosort) tosort vp pl (pr - 1) in
        let tosort := INTP_SWAP tosort pi (pr - 1) in
        let cdepth := cdepth - 1 in
        if (pi - pl <? pr - pi)%nat
        then partitions count' tosort pl (pi - 1)
               ((S pi, pr, cdepth) :: stack) cdepth
        else partitions count' tosort (S pi) pr
               ((pl, (pi - 1)%nat, cdepth) :: stack) cdepth
      else (tosort, pl, pr, stack)
  end.

(** [while (1) { if (cdepth < 0) { aheapsort_; goto stack_pop; }
    partitions; insertion sort; stack_pop: if (sptr == stack) break;
    pop pr, pl and cdepth; }] *)
Fixpoint quicksort_loop (count : nat) (tosort : list nat) (pl pr : nat)
    (stack : list (nat * nat * Z)) (cdepth : Z) : list nat :=
  match count with
  | O => tosort
  | S count' =>
      let '(tosort, stack) :=
        if cdepth <? 0 then (aheapsort tosort pl (pr - pl + 1), stack)
        else
          let '(tosort, pl, pr, stack) :=
            partitions (List.length tosort) tosort pl pr stack cdepth in
          (insertion_sort tosort pl pr, stack) in
      match stack with
      | [] => tosort
      | (pl, pr, cdepth) :: stack =>
          quicksort_loop count' tosort pl pr stack cdepth
      end
  end.

(** [aquicksort_(vv, tosort, num)] on the positions [0 .. num - 1]. *)
Definition aquicksort : list nat :=
  let num := List.length v in
  quicksort_loop (S num) (seq 0 num) 0 (num - 1) []
    (npy_get_msb num * 2).

End Npysort.

(** ** The properties, in the specification's words *)

(** Ordered descending by score. *)
Definition descending_by_score (table : list RankRow) : Prop :=
  forall i j ri rj, (i < j)%nat ->
    nth_error table i = Some ri -> nth_error table j = Some rj ->
    geb (score ri) (score rj) = true.

(** Rows of equal score stand in the order of their sensors in [sensors]. *)
Definition ties_in_input_order (sensors : list string) (table : list RankRow)
  : Prop :=
  forall i j ri rj, (i < j)%nat ->
    nth_error table i = Some ri -> nth_error table j = Some rj ->
    eqb (score ri) (score rj) = true ->
    exists a b, (a < b)%nat /\
      nth_error sensors a = Some (sensor (indicators ri)) /\
      nth_error sensors b = Some (sensor (indicators rj)).

(** A mean that ignores every non-finite entry (NaN and the infinities). *)
Definition mean_of_finite (l : list float) : float :=
  let v := filter isfinite l in
  div (fsum v) (of_nat (List.length v)).

(** A mean that ignores the NaN entries only. *)
Definition mean_of_not_nan (l : list float) : float :=
  let v := filter notnan l in
  div (fsum v) (of_nat (List.length v)).

(** [max(x, y)] *)
Definition fmax (x y : float) : float := if gtb y x then y else x.

(** "or 0 if undefined" *)
Definition or_zero (x : float) : float :=
  match x with
  | S754_nan => zero
  | _ => x
  end.

(** The arithmetic mean of a window. *)
Definition mean (l : list float) : float := div (fsum l) (of_nat (List.length l)).

(** What one engine contributes to the list of mean shifts: nothing unless
    both windows hold five points. *)
Definition shift_contribution (early_frac late_frac : float)
    (rows : list (float * float)) : list float :=
  let g := dropna rows in
  let early := early_window early_frac g in
  let late := late_window late_frac g in
  if ((List.length early <? 5) || (List.length late <? 5))%nat then []
  else [sub (mean late) (mean early)].

(** What one engine contributes to the list of variance ratios. *)
Definition ratio_contribution (early_frac late_frac : float)
    (rows : list (float * float)) : list float :=
  let g := dropna rows in
  let early := early_window early_frac g in
  let late := late_window late_frac g in
  if ((List.length early <? 5) || (List.length late <? 5))%nat then []
  else
    if isfinite (var_ddof1 early) && gtb (var_ddof1 early) zero
       && isfinite (var_ddof1 late)
    then [div (var_ddof1 late) (var_ddof1 early)]
    else [].

(** The int64 range. *)
Definition int64 (z : Z) : Prop := - 2 ^ 63 <= z < 2 ^ 63.

(** ** Example tables *)

(** Numerical routines for the examples (no example table has an engine
    with enough points for a slope). *)
Definition example_log (x : float) : float := x.
Definition example_polyfit_slope (x y : list float) : option float := Some zero.

(** Two engines of ten cycles each.  [sensor_a] and [sensor_b] are
    constant; [sensor_c] has an infinite reading late in engine 1's life and
    steps from 1 to 3 in engine 2; [sensor_d] rises with the cycle. *)
Definition fleet : DataFrame :=
  [ ("engine_id", IntCol [1;1;1;1;1;1;1;1;1;1; 2;2;2;2;2;2;2;2;2;2]);
    ("cycle",     IntCol [1;2;3;4;5;6;7;8;9;10; 1;2;3;4;5;6;7;8;9;10]);
    ("life_frac",
      FloatCol (map of_Z [0;0;0;0;0;1;1;1;1;1; 0;0;0;0;0;1;1;1;1;1]));
    ("sensor_a",
      FloatCol (map of_Z [7;7;7;7;7;7;7;7;7;7; 7;7;7;7;7;7;7;7;7;7]));
    ("sensor_b",
      FloatCol (map of_Z [4;4;4;4;4;4;4;4;4;4; 4;4;4;4;4;4;4;4;4;4]));
    ("sensor_c",
      FloatCol (map of_Z [1;1;1;1;1] ++ [pinf] ++
                map of_Z [1;1;1;1; 1;1;1;1;1;3;3;3;3;3]));
    ("sensor_d",
      FloatCol (map of_Z [1;2;3;4;5;6;7;8;9;10; 1;2;3;4;5;6;7;8;9;10])) ]%string.

(** The raw table, before [ensure_life_frac]. *)
Definition raw_fleet : DataFrame :=
  [ ("engine_id", IntCol [1;1;1;1;1; 2;2;2]);
    ("cycle",     IntCol [1;2;3;4;5; 1;2;3]);
    ("sensor_a",  FloatCol (map of_Z [7;7;7;7;7; 7;7;7])) ]%string.

(** A table that already has a life-fraction column, holding 0.5 in
    every row. *)
Definition stale_fleet : DataFrame :=
  [ ("engine_id", IntCol [1;1;1;1;1; 2;2;2]);
    ("cycle",     IntCol [1;2;3;4;5; 1;2;3]);
    ("sensor_a",  FloatCol (map of_Z [7;7;7;7;7; 7;7;7]));
    ("life_frac",
      FloatCol (map (fun _ => div (of_Z 1) (of_Z 2))
                  [1;2;3;4;5; 1;2;3])) ]%string.

(** Three hundred sensors on two engines of ten cycles: [sensor_1] to
    [sensor_299] are constant, and [sensor_300] steps up by 2 late in the
    life of either engine. *)
Definition numbered_sensor (n : nat) : string :=
  "sensor_" ++ NilEmpty.string_of_uint (Nat.to_uint n).

Definition many_sensors : list string := map numbered_sensor (seq 1 300).

Definition many_sensor_fleet : DataFrame :=
  [ ("engine_id"%string,
      IntCol [1;1;1;1;1;1;1;1;1;1; 2;2;2;2;2;2;2;2;2;2]);
    ("life_frac"%string,
      FloatCol (map of_Z [0;0;0;0;0;1;1;1;1;1; 0;0;0;0;0;1;1;1;1;1])) ]
  ++ map (fun n =>
            (numbered_sensor n,
             FloatCol
               (map of_Z
                  (if (n =? 300)%nat
                   then [1;1;1;1;1;3;3;3;3;3; 2;2;2;2;2;4;4;4;4;4]
                   else [7;7;7;7;7;7;7;7;7;7; 7;7;7;7;7;7;7;7;7;7]))))
       (seq 1 300).

(** ** Frames *)

(** A computation that only reads leaves the table as it found it. *)
Definition read_only {A} (m : M A) : Prop := forall df, snd (m df) = df.

(** ** Derived forms used in the statements *)

(** The ranking row of one indicator value: its two derived cells. *)
Definition scored (ind : DegradationIndicators) : RankRow :=
  let instability := clip_lower zero (log_variance_ratio ind) in
  {| indicators := ind;
     instability_signal := instability;
     score := add (add (fillna0 (abs_mean_shift_std ind))
                       (fillna0 (abs_slope_std ind)))
                  (fillna0 instability) |}.

(** Both windows of an engine hold at least five points. *)
Definition both_windows_full (early_frac late_frac : float)
    (rows : list (float * float)) : bool :=
  let g := dropna rows in
  ((5 <=? List.length (early_window early_frac g))
   && (5 <=? List.length (late_window late_frac g)))%nat.

(** The (life_frac, sensor) rows of every engine, in groupby order. *)
Definition engine_rows (engines life vals : column)
  : list (list (float * float)) :=
  map snd (groupby (combine (keys_of engines)
                      (combine (as_float life) (as_float vals)))).

(** A table without any sensor column. *)
Definition bare_table : DataFrame :=
  [ ("engine_id", IntCol [1;1;2]);
    ("cycle",     IntCol [1;2;1]) ]%string.

(** The cells of the rows whose key equals [k], in table order. *)
Definition cells_of_key {A} (k : key) (rows : list (option key * A)) : list A :=
  map snd (filter (fun r => match fst r with
                            | Some k' => key_eqb k k'
                            | None => false
                            end) rows).

(** ** Signs *)

(** [+0], a positive finite value or [+inf]. *)
Definition sign_positive (x : float) : bool :=
  match x with
  | S754_zero s | S754_infinity s | S754_finite s _ _ => negb s
  | S754_nan => false
  end.

(** NaN, or of positive sign. *)
Definition positive_or_nan (x : float) : bool := isnan x || sign_positive x.

(** What one engine contributes to the list of slopes: the slope of its
    fitted line when it has [min_points_for_slope] valid rows and the fit
    succeeds. *)
Definition slope_contribution
    (np_polyfit_slope : list float -> list float -> option float)
    (min_points_for_slope : Z) (rows : list (float * float)) : list float :=
  let g := dropna rows in
  if (Z.of_nat (List.length g) <? min_points_for_slope)%Z then []
  else match g with
       | [] => []
       | _ => match np_polyfit_slope (map fst g) (map snd g) with
              | Some s => [s]
              | None => []
              end
       end.

(** An engine has enough valid rows for a slope. *)
Definition enough_points (min_points_for_slope : Z)
    (rows : list (float * float)) : bool :=
  (min_points_for_slope <=? Z.of_nat (List.length (dropna rows)))%Z.

(** An outcome that is not a KeyError. *)
Definition not_key_error {A} (r : result A) : Prop :=
  match r with
  | Raise (KeyError _) => False
  | _ => True
  end.

(** A read-only computation has the same outcome on two tables. *)
Definition same_outcome {A} (df1 df2 : DataFrame) (m : M A) : Prop :=
  fst (m df1) = fst (m df2) /\ snd (m df1) = df1 /\ snd (m df2) = df2.

(** Engine 1 never leaves cycle 0. *)
Definition stalled_table : DataFrame :=
  [ ("engine_id", IntCol [1;1;2]);
    ("cycle",     IntCol [0;0;3]) ]%string.

(** One engine with three rows: too few for any window. *)
Definition short_fleet : DataFrame :=
  [ ("engine_id", IntCol [1;1;1]);
    ("life_frac", FloatCol (map of_Z [0;0;1]));
    ("sensor_a",  FloatCol (map of_Z [7;8;9])) ]%string.

(** ** Sample gating, in the specification's words *)

(** The engines of a table: the distinct keys of its rows, in order of
    first appearance; a row without key belongs to no engine. *)
Fixpoint distinct_keys (seen : list key) (ks : list (option key))
  : list key :=
  match ks with
  | [] => []
  | None :: rest => distinct_keys seen rest
  | Some k :: rest =>
      if existsb (key_eqb k) seen then distinct_keys seen rest
      else k :: distinct_keys (seen ++ [k]) rest
  end.

(** The (life fraction, sensor value) pairs of the table's rows, each with
    the engine of its row. *)
Definition table_rows (engines life vals : column)
  : list (option key * (float * float)) :=
  combine (keys_of engines) (combine (as_float life) (as_float vals)).

(** For every engine, the pairs of its rows in table order. *)
Definition per_engine (engines life vals : column)
  : list (list (float * float)) :=
  let rows := table_rows engines life vals in
  map (fun k => cells_of_key k rows) (distinct_keys [] (map fst rows)).

(** The sensor values of one engine that fall in a window: a row with a
    missing life fraction or a missing sensor value is dropped; of the
    others, the rows whose life fraction is inside the window give their
    sensor value. *)
Fixpoint window_values (inside : float -> bool) (rows : list (float * float))
  : list float :=
  match rows with
  | [] => []
  | (life, value) :: rest =>
      if isnan life || isnan value then window_values inside rest
      else if inside life then value :: window_values inside rest
      else window_values inside rest
  end.

(** Early window: life fraction <= early_frac. *)
Definition early_values (early_frac : float) (rows : list (float * float))
  : list float :=
  window_values (fun life => leb life early_frac) rows.

(** Late window: life fraction >= late_frac. *)
Definition late_values (late_frac : float) (rows : list (float * float))
  : list float :=
  window_values (fun life => leb late_frac life) rows.

(** The gate: both windows hold at least 5 points. *)
Definition gate_open (early_frac late_frac : float)
    (rows : list (float * float)) : bool :=
  ((5 <=? List.length (early_values early_frac rows))
   && (5 <=? List.length (late_values late_frac rows)))%nat.

(** The mean-shift entries of one engine: mean(late window) minus
    mean(early window) when the gate is open, none otherwise. *)
Definition engine_mean_shift (early_frac late_frac : float)
    (rows : list (float * float)) : list float :=
  if gate_open early_frac late_frac rows
  then [sub (mean (late_values late_frac rows))
            (mean (early_values early_frac rows))]
  else [].

(** The variance-ratio entries of one engine: none when the gate is closed;
    when it is open, late variance over early variance, if the early
    variance is finite and positive and the late variance finite. *)
Definition engine_variance_ratio (early_frac late_frac : float)
    (rows : list (float * float)) : list float :=
  if gate_open early_frac late_frac rows
  then
    let v_early := var_ddof1 (early_values early_frac rows) in
    let v_late := var_ddof1 (late_values late_frac rows) in
    if isfinite v_early && gtb v_early zero && isfinite v_late
    then [div v_late v_early] else []
  else [].

(** * Properties *)

(** ** The monad *)

Lemma bind_ok {A B} (m : M A) (f : A -> M B) df a df' :
  m df = (Ok a, df') -> bind m f df = f a df'.
Proof. intros H. unfold bind. now rewrite H. Qed.

Lemma bind_raise {A B} (m : M A) (f : A -> M B) df e df' :
  m df = (Raise e, df') -> bind m f df = (Raise e, df').
Proof. intros H. unfold bind. now rewrite H. Qed.

Lemma read_only_ret {A} (a : A) : read_only (ret a).
Proof. intros df. reflexivity. Qed.

Lemma read_only_raise {A} (e : exn) : read_only (@raise A e).
Proof. intros df. reflexivity. Qed.

Lemma read_only_bind {A B} (m : M A) (f : A -> M B) :
  read_only m -> (forall a, read_only (f a)) -> read_only (bind m f).
Proof.
  intros Hm Hf df. unfold bind. specialize (Hm df).
  destruct (m df) as [[a | e] df']; simpl in *; subst; [apply Hf | reflexivity].
Qed.

Lemma read_only_contains name : read_only (df_contains name).
Proof. intros df. reflexivity. Qed.

Lemma read_only_columns : read_only df_columns.
Proof. intros df. reflexivity. Qed.

Lemma read_only_getitem name : read_only (df_getitem name).
Proof. intros df. unfold df_getitem. now destruct (lookup name df). Qed.

Lemma read_only_if {A} (b : bool) (m1 m2 : M A) :
  read_only m1 -> read_only m2 -> read_only (if b then m1 else m2).
Proof. now destruct b. Qed.

Create HintDb read_only.
#[local] Hint Resolve read_only_ret read_only_raise read_only_contains
  read_only_columns read_only_getitem : read_only.

(** ** Columns *)

Lemma has_column_lookup name df :
  has_column name df = true <-> exists c, lookup name df = Some c.
Proof.
  unfold has_column, columns. induction df as [| [n c] rest IH]; simpl.
  - split; [discriminate | intros [c H]; discriminate].
  - destruct (String.eqb name n).
    + split; eauto.
    + simpl. exact IH.
Qed.

Lemma has_column_false_lookup name df :
  has_column name df = false <-> lookup name df = None.
Proof.
  unfold has_column, columns. induction df as [| [n c] rest IH]; simpl.
  - tauto.
  - destruct (String.eqb name n); simpl; [split; discriminate | exact IH].
Qed.

Lemma lookup_assign_same name c df :
  lookup name (assign name c df) = Some c.
Proof.
  induction df as [| [n c'] rest IH]; simpl.
  - now rewrite String.eqb_refl.
  - destruct (String.eqb name n) eqn:E; simpl; rewrite E; auto.
Qed.

Lemma has_column_assign_same name c df :
  has_column name (assign name c df) = true.
Proof. apply has_column_lookup. eexists. apply lookup_assign_same. Qed.

(** ** The errors of degradation_indicators *)

Section IndicatorErrors.
Variable np_log : float -> float.
Variable np_polyfit_slope : list float -> list float -> option float.
Variables sensor_name engine_col life_frac_col : string.
Variables early_frac late_frac : float.
Variable min_points_for_slope : Z.

(** C6: a table without the sensor column makes [degradation_indicators]
    raise the missing-column KeyError; a table without the life_frac
    column makes it raise a KeyError too, the one that names the
    precondition when the sensor column is there.  No result is
    returned in either case. *)
Theorem degradation_indicators_missing_column (df : DataFrame) :
  (has_column sensor_name df = false ->
     fst (degradation_indicators np_log np_polyfit_slope sensor_name
            engine_col life_frac_col early_frac late_frac
            min_points_for_slope df) = Raise (KeyError ("Missing sensor column: " ++ sensor_name)))
  /\ (has_column life_frac_col df = false ->
        exists what, fst (degradation_indicators np_log np_polyfit_slope sensor_name
            engine_col life_frac_col early_frac late_frac
            min_points_for_slope df) = Raise (KeyError what))
  /\ (has_column sensor_name df = true ->
      has_column life_frac_col df = false ->
        fst (degradation_indicators np_log np_polyfit_slope sensor_name
            engine_col life_frac_col early_frac late_frac
            min_points_for_slope df) =
          Raise (KeyError ("Missing '" ++ life_frac_col
            ++ "'. Call ensure_life_frac(df) before computing indicators."))).
Proof.
  unfold degradation_indicators, bind, df_contains, raise.
  repeat split.
  - intros Hs. now rewrite Hs.
  - intros Hl. destruct (has_column sensor_name df); simpl.
    + rewrite Hl. simpl. eauto.
    + eauto.
  - intros Hs Hl. rewrite Hs. simpl. now rewrite Hl.
Qed.
End IndicatorErrors.

(** ** Comparisons of binary64 values *)

Lemma eqb_zero_not_gtb b : eqb b zero = true -> gtb b zero = false.
Proof. destruct b as [s | s | | s m e]; try destruct s; cbv; congruence. Qed.

Lemma ltb_zero_not_gtb b : ltb b zero = true -> gtb b zero = false.
Proof. destruct b as [s | s | | s m e]; try destruct s; cbv; congruence. Qed.

Lemma isnan_notnan x : notnan x = negb (isnan x).
Proof. reflexivity. Qed.

Lemma filter_notnan_id l : forallb notnan l = true -> filter notnan l = l.
Proof.
  induction l as [| x l IH]; simpl; [reflexivity |].
  intros H. apply andb_true_iff in H as [Hx Hl]. rewrite Hx. now rewrite IH.
Qed.

Lemma nanmean_mean l : forallb notnan l = true -> nanmean l = mean l.
Proof. intros H. unfold nanmean, mean. now rewrite filter_notnan_id. Qed.

Lemma mean_of_not_nan_nil : mean_of_not_nan [] = nan.
Proof. reflexivity. Qed.

Lemma fleet_mean_nanmean l : fleet_mean l = mean_of_not_nan l.
Proof. destruct l; reflexivity. Qed.

Lemma SFcompare_swap x y :
  SFcompare y x = option_map CompOpp (SFcompare x y).
Proof.
  destruct x as [sx | sx | | sx mx ex], y as [sy | sy | | sy my ey];
    try destruct sx; try destruct sy; cbn [SFcompare option_map CompOpp];
    try reflexivity;
    rewrite (Z.compare_antisym ex ey);
    destruct (ex ?= ey); cbn [CompOpp]; try reflexivity;
    change (Pos.compare_cont Eq my mx) with (Pos.compare my mx);
    change (Pos.compare_cont Eq mx my) with (Pos.compare mx my);
    rewrite (Pos.compare_antisym mx my); now destruct (mx ?= my)%positive.
Qed.

Lemma SFcompare_refl x : isnan x = false -> SFcompare x x = Some Eq.
Proof.
  destruct x as [s | s | | s m e]; try destruct s; cbn; try congruence;
    intros _; rewrite Z.compare_refl;
    change (Pos.compare_cont Eq m m) with (Pos.compare m m);
    now rewrite Pos.compare_refl.
Qed.

(** Two values compare equal when they are the same or both are zeros. *)
Lemma SFcompare_eq x y :
  SFcompare x y = Some Eq ->
  x = y \/ (exists s s', x = S754_zero s /\ y = S754_zero s').
Proof.
  destruct x as [sx | sx | | sx mx ex], y as [sy | sy | | sy my ey];
    try destruct sx; try destruct sy; cbn [SFcompare];
    try discriminate; eauto;
    destruct (Z.compare_spec ex ey); try discriminate; subst;
    change (Pos.compare_cont Eq mx my) with (Pos.compare mx my);
    destruct (Pos.compare_spec mx my); try discriminate; subst; auto.
Qed.

Lemma eqb_refl x : isnan x = false -> eqb x x = true.
Proof. intros H. unfold eqb, SFeqb. now rewrite SFcompare_refl. Qed.

Lemma eqb_sym x y : eqb x y = true -> eqb y x = true.
Proof.
  unfold eqb, SFeqb. rewrite (SFcompare_swap x y).
  destruct (SFcompare x y) as [[] |]; simpl; congruence.
Qed.

Lemma eqb_true x y : eqb x y = true -> SFcompare x y = Some Eq.
Proof. unfold eqb, SFeqb. destruct (SFcompare x y) as [[] |]; congruence. Qed.

Lemma eqb_trans x y z : eqb x y = true -> eqb y z = true -> eqb x z = true.
Proof.
  intros Hxy Hyz.
  apply eqb_true, SFcompare_eq in Hxy.
  pose proof Hyz as Hyz'. apply eqb_true, SFcompare_eq in Hyz'.
  destruct Hxy as [-> | (s1 & s2 & -> & ->)]; [exact Hyz |].
  destruct Hyz' as [<- | (s3 & s4 & Hy & ->)]; reflexivity.
Qed.

Lemma key_eqb_sym a b : key_eqb a b = true -> key_eqb b a = true.
Proof.
  destruct a, b; simpl; try congruence.
  - rewrite !Z.eqb_eq. congruence.
  - apply eqb_sym.
Qed.

Lemma key_eqb_trans a b c :
  key_eqb a b = true -> key_eqb b c = true -> key_eqb a c = true.
Proof.
  destruct a, b, c; simpl; try congruence.
  - rewrite !Z.eqb_eq. congruence.
  - apply eqb_trans.
Qed.

(** The keys of a column are equal to themselves. *)
Lemma keys_of_refl c i k :
  nth_error (keys_of c) i = Some (Some k) -> key_eqb k k = true.
Proof.
  destruct c as [l | l]; cbn [keys_of]; rewrite nth_error_map;
    destruct (nth_error l i) as [x |]; cbn [option_map]; try discriminate.
  - intros H. injection H as <-. apply Z.eqb_refl.
  - destruct (isnan x) eqn:Hx; [discriminate |].
    intros H. injection H as <-. now apply eqb_refl.
Qed.

(** ** The order of binary64 values *)

Lemma leb_trans x y z :
  leb x y = true -> leb y z = true -> leb x z = true.
Proof.
  unfold leb, SFleb.
  destruct x as [sx | sx | | sx mx ex], y as [sy | sy | | sy my ey],
    z as [sz | sz | | sz mz ez];
    try destruct sx; try destruct sy; try destruct sz;
    cbn [SFcompare]; try congruence;
    change (Pos.compare_cont Eq mx my) with (Pos.compare mx my);
    change (Pos.compare_cont Eq my mz) with (Pos.compare my mz);
    change (Pos.compare_cont Eq mx mz) with (Pos.compare mx mz);
    destruct (Z.compare_spec ex ey), (Z.compare_spec ey ez),
      (Z.compare_spec ex ez); try congruence; try lia; subst;
    destruct (Pos.compare_spec mx my), (Pos.compare_spec my mz),
      (Pos.compare_spec mx mz); cbn [CompOpp]; try congruence; lia.
Qed.

(** Two values that are not NaN compare one way or the other. *)
Lemma leb_total x y :
  isnan x = false -> isnan y = false -> leb x y = true \/ leb y x = true.
Proof.
  intros Hx Hy. unfold leb, SFleb. rewrite (SFcompare_swap x y).
  destruct x, y; try discriminate;
    destruct (SFcompare _ _) as [[] |] eqn:E; cbn; auto;
    cbn in E; repeat match type of E with
                     | context [if ?b then _ else _] => destruct b
                     end; discriminate.
Qed.

Lemma ltb_leb x y : ltb x y = true -> leb x y = true.
Proof.
  unfold ltb, leb, SFltb, SFleb. destruct (SFcompare x y) as [[] |]; congruence.
Qed.

Lemma ltb_false_leb x y :
  isnan x = false -> isnan y = false -> ltb x y = false -> leb y x = true.
Proof.
  intros Hx Hy. unfold ltb, leb, SFltb, SFleb. rewrite (SFcompare_swap x y).
  destruct (leb_total x y Hx Hy) as [H | H]; revert H; unfold leb, SFleb;
    rewrite ?(SFcompare_swap x y);
    destruct (SFcompare x y) as [[] |]; cbn; congruence.
Qed.

Lemma leb_false_leb x y :
  isnan x = false -> isnan y = false -> leb x y = false -> leb y x = true.
Proof.
  intros Hx Hy H. destruct (leb_total x y Hx Hy); congruence.
Qed.

(** ** degradation_indicators only reads the table *)

Section IndicatorFrame.
Variable np_log : float -> float.
Variable np_polyfit_slope : list float -> list float -> option float.
Variables sensor_name engine_col life_frac_col : string.
Variables early_frac late_frac : float.
Variable min_points_for_slope : Z.

Lemma read_only_slope_step g a :
  read_only (slope_step np_polyfit_slope min_points_for_slope g a).
Proof.
  unfold slope_step.
  destruct (min_points_for_slope <=? _)%Z; auto with read_only.
  destruct (np_polyfit_slope _ _); auto with read_only.
Qed.

Lemma read_only_engine_step rows a :
  read_only (engine_step np_polyfit_slope sensor_name life_frac_col
               early_frac late_frac min_points_for_slope rows a).
Proof.
  unfold engine_step. destruct (dropna rows); auto with read_only.
  destruct (String.eqb _ _); auto with read_only.
  apply read_only_slope_step.
Qed.

Lemma read_only_engine_loop groups : forall a,
  read_only (engine_loop np_polyfit_slope sensor_name life_frac_col
               early_frac late_frac min_points_for_slope groups a).
Proof.
  induction groups as [| [k rows] rest IH]; intros a; simpl.
  - auto with read_only.
  - apply read_only_bind; [apply read_only_engine_step | auto].
Qed.

Lemma read_only_degradation_indicators :
  read_only (degradation_indicators np_log np_polyfit_slope sensor_name
               engine_col life_frac_col early_frac late_frac
               min_points_for_slope).
Proof.
  unfold degradation_indicators.
  repeat (first
    [ apply read_only_bind; [| intros ?]
    | apply read_only_if
    | apply read_only_engine_loop
    | solve [auto with read_only] ]).
Qed.

(** C9: [degradation_indicators] never mutates its input table: whether
    it returns or raises, the table object is afterwards what it was
    before the call. *)
Theorem degradation_indicators_preserves_table (df : DataFrame) :
  snd (degradation_indicators np_log np_polyfit_slope sensor_name
         engine_col life_frac_col early_frac late_frac
         min_points_for_slope df) = df.
Proof. apply read_only_degradation_indicators. Qed.
End IndicatorFrame.

(** ** ensure_life_frac *)

(** The short-circuit of a table that has the output column. *)
Lemma ensure_life_frac_present engine_col cycle_col out_col df :
  has_column out_col df = true ->
  ensure_life_frac engine_col cycle_col out_col df = (Ok df, df).
Proof.
  intros Hd. unfold ensure_life_frac, bind, df_contains, df_self.
  now rewrite Hd.
Qed.

(** C7: [ensure_life_frac] is idempotent: a second call with the same
    column names changes neither the outcome nor the table left by the
    first; and a table that already has the output column is returned
    unchanged. *)
Theorem ensure_life_frac_idempotent (engine_col cycle_col out_col : string)
    (df : DataFrame) :
  (ensure_life_frac engine_col cycle_col out_col ;;;
   ensure_life_frac engine_col cycle_col out_col) df
  = ensure_life_frac engine_col cycle_col out_col df
  /\ (In out_col (columns df) ->
      ensure_life_frac engine_col cycle_col out_col df = (Ok df, df)).
Proof.
  pose proof (ensure_life_frac_present engine_col cycle_col out_col)
    as Hpresent.
  split.
  - destruct (has_column out_col df) eqn:Hc.
    + unfold bind at 1. rewrite (Hpresent df Hc). now apply Hpresent.
    + unfold bind at 1.
      destruct (ensure_life_frac engine_col cycle_col out_col df)
        as [[d | e] df'] eqn:Hrun; [| reflexivity].
      assert (Hd : d = df' /\ has_column out_col df' = true).
      { revert Hrun.
        unfold ensure_life_frac, bind, df_contains, df_getitem, df_setitem,
          df_self.
        rewrite Hc.
        destruct (lookup engine_col df) as [engines |]; [| discriminate].
        destruct (lookup cycle_col df) as [cycles |] eqn:Hcyc;
          [| discriminate].
        cbn. rewrite Hcyc. cbn. intros Hrun. inversion Hrun; subst.
        split; [reflexivity | apply has_column_assign_same]. }
      destruct Hd as [-> Hd]. now apply Hpresent.
  - intros Hin. apply Hpresent.
    unfold has_column. apply existsb_exists. exists out_col.
    split; [exact Hin | apply String.eqb_refl].
Qed.

(** ** What degradation_indicators returns *)

Section IndicatorResult.
Variable np_log : float -> float.
Variable np_polyfit_slope : list float -> list float -> option float.
Variables sensor_name engine_col life_frac_col : string.
Variables early_frac late_frac : float.
Variable min_points_for_slope : Z.

(** A returned value comes from a completed loop over the engines, whose
    three lists determine every field together with the pooled early-life
    standard deviation. *)
Lemma degradation_indicators_ok df ind df' :
  degradation_indicators np_log np_polyfit_slope sensor_name engine_col
    life_frac_col early_frac late_frac min_points_for_slope df
  = (Ok ind, df') ->
  exists engines life vals a,
    lookup engine_col df = Some engines /\
    lookup life_frac_col df = Some life /\
    lookup sensor_name df = Some vals /\
    engine_loop np_polyfit_slope sensor_name life_frac_col early_frac
      late_frac min_points_for_slope
      (groupby (combine (keys_of engines)
                  (combine (as_float life) (as_float vals))))
      no_accum df = (Ok a, df) /\
    df' = df /\
    let b := std_ddof1 (pooled_early early_frac (as_float life) (as_float vals)) in
    let bs := if isfinite b && gtb b zero then b else nan in
    let vr := fleet_mean (var_ratios a) in
    ind =
      {| sensor := sensor_name;
         mean_shift := fleet_mean (mean_shifts a);
         abs_mean_shift := fleet_mean (map abs (mean_shifts a));
         variance_ratio := vr;
         log_variance_ratio :=
           if isfinite vr && gtb vr zero then np_log vr else nan;
         slope := fleet_mean (slopes a);
         abs_slope := fleet_mean (map abs (slopes a));
         baseline_std_early := bs;
         mean_shift_std := normalized (fleet_mean (mean_shifts a)) bs;
         abs_mean_shift_std :=
           normalized (fleet_mean (map abs (mean_shifts a))) bs;
         slope_std := normalized (fleet_mean (slopes a)) bs;
         abs_slope_std := normalized (fleet_mean (map abs (slopes a))) bs;
         n_engines_used_shift :=
           match mean_shifts a with [] => 0%nat | l => count_finite l end;
         n_engines_used_slope :=
           match slopes a with [] => 0%nat | l => count_finite l end |}.
Proof.
  unfold degradation_indicators, bind, df_contains, df_getitem, raise, ret.
  destruct (has_column sensor_name df) eqn:Hs; simpl; [| discriminate].
  destruct (has_column life_frac_col df) eqn:Hl; simpl; [| discriminate].
  destruct (lookup engine_col df) as [engines |] eqn:He; [| discriminate].
  destruct (lookup life_frac_col df) as [life |] eqn:Hlf; [| discriminate].
  destruct (lookup sensor_name df) as [vals |] eqn:Hv; [| discriminate].
  destruct (engine_loop _ _ _ _ _ _ _ _ df) as [[a | e] df1] eqn:Hloop;
    [| discriminate].
  pose proof (f_equal snd Hloop) as Hro.
  rewrite read_only_engine_loop in Hro. simpl in Hro. subst df1.
  rewrite Hlf, Hv. intros H. inversion H; subst.
  exists engines, life, vals, a. repeat split; auto.
Qed.
End IndicatorResult.

Section IndicatorValues.
Variable np_log : float -> float.
Variable np_polyfit_slope : list float -> list float -> option float.
Variables sensor_name engine_col life_frac_col : string.
Variables early_frac late_frac : float.
Variable min_points_for_slope : Z.

(** C3: when the fleet-pooled early-life standard deviation of the
    sensor is zero, negative or not finite, the baseline and all four
    normalized fields of a returned value are NaN; none of them is an
    infinity. *)
Theorem baseline_safety df ind df' life vals :
  degradation_indicators np_log np_polyfit_slope sensor_name engine_col
    life_frac_col early_frac late_frac min_points_for_slope df
  = (Ok ind, df') ->
  lookup life_frac_col df = Some life ->
  lookup sensor_name df = Some vals ->
  (eqb (std_ddof1 (pooled_early early_frac (as_float life) (as_float vals)))
       zero = true
   \/ ltb (std_ddof1 (pooled_early early_frac (as_float life) (as_float vals)))
          zero = true
   \/ isfinite
        (std_ddof1 (pooled_early early_frac (as_float life) (as_float vals)))
      = false) ->
  (baseline_std_early ind = nan /\
   mean_shift_std ind = nan /\ abs_mean_shift_std ind = nan /\
   slope_std ind = nan /\ abs_slope_std ind = nan)
  /\ (isinf (mean_shift_std ind) = false /\
      isinf (abs_mean_shift_std ind) = false /\
      isinf (slope_std ind) = false /\
      isinf (abs_slope_std ind) = false).
Proof.
  intros Hrun Hlife Hvals Hbad.
  apply degradation_indicators_ok in Hrun
    as (engines & life0 & vals0 & a & _ & Hl & Hv & _ & _ & Hind).
  rewrite Hlife in Hl. rewrite Hvals in Hv.
  injection Hl as <-. injection Hv as <-.
  set (b := std_ddof1 _) in *.
  assert (Hguard : isfinite b && gtb b zero = false).
  { destruct Hbad as [H | [H | H]].
    - rewrite (eqb_zero_not_gtb _ H). apply andb_false_r.
    - rewrite (ltb_zero_not_gtb _ H). apply andb_false_r.
    - now rewrite H. }
  cbv zeta in Hind. rewrite Hguard in Hind. subst ind. simpl.
  unfold normalized. simpl. repeat split; reflexivity.
Qed.

(** C2, as the code has it: each fleet aggregate of a returned value is
    the mean of its per-engine list over the entries that are not NaN
    (infinite entries take part in it), and is NaN when that list is
    empty. *)
Theorem fleet_aggregates_skip_nan_only df ind df' :
  degradation_indicators np_log np_polyfit_slope sensor_name engine_col
    life_frac_col early_frac late_frac min_points_for_slope df
  = (Ok ind, df') ->
  exists engines life vals a,
    lookup engine_col df = Some engines /\
    lookup life_frac_col df = Some life /\
    lookup sensor_name df = Some vals /\
    engine_loop np_polyfit_slope sensor_name life_frac_col early_frac
      late_frac min_points_for_slope
      (groupby (combine (keys_of engines)
                  (combine (as_float life) (as_float vals))))
      no_accum df = (Ok a, df) /\
    (mean_shift ind = mean_of_not_nan (mean_shifts a) /\
     abs_mean_shift ind = mean_of_not_nan (map abs (mean_shifts a)) /\
     variance_ratio ind = mean_of_not_nan (var_ratios a) /\
     slope ind = mean_of_not_nan (slopes a) /\
     abs_slope ind = mean_of_not_nan (map abs (slopes a))) /\
    (mean_shifts a = [] ->
       mean_shift ind = nan /\ abs_mean_shift ind = nan) /\
    (var_ratios a = [] -> variance_ratio ind = nan) /\
    (slopes a = [] -> slope ind = nan /\ abs_slope ind = nan).
Proof.
  intros Hrun.
  apply degradation_indicators_ok in Hrun
    as (engines & life & vals & a & He & Hl & Hv & Hloop & _ & Hind).
  exists engines, life, vals, a.
  cbv zeta in Hind. subst ind.
  cbn [mean_shift abs_mean_shift variance_ratio slope abs_slope].
  repeat split; auto using fleet_mean_nanmean;
    try (intros ->; reflexivity);
    match goal with H : _ = [] |- _ => rewrite H; reflexivity end.
Qed.
End IndicatorValues.

(** ** The ranking table before sorting *)

Lemma combine_map_map {A B C} (f : A -> B) (g : A -> C) l :
  combine (map f l) (map g l) = map (fun x => (f x, g x)) l.
Proof. induction l; simpl; congruence. Qed.

Lemma In_take {A} (l : list A) indexer x : In x (take l indexer) -> In x l.
Proof.
  unfold take. intros H. apply in_flat_map in H as (i & _ & Hi).
  destruct (nth_error l i) eqn:E; simpl in Hi; [| contradiction].
  destruct Hi as [<- | []]. eapply nth_error_In; eauto.
Qed.

Lemma score_rows_empty df :
  score_rows [] df = (Raise (KeyError "log_variance_ratio"), df).
Proof. reflexivity. Qed.

Lemma combine_self_map {A B} (g : A -> B) l :
  combine l (map g l) = map (fun x => (x, g x)) l.
Proof. induction l; simpl; congruence. Qed.

Lemma summary_getitem_field rows name field df :
  rows <> [] ->
  existsb (String.eqb name) indicator_fields = true ->
  summary_getitem rows name field df = (Ok (map field rows), df).
Proof.
  intros Hrows Hname. unfold summary_getitem.
  destruct rows; [congruence |]. cbn [frame_columns]. now rewrite Hname.
Qed.

Lemma score_rows_ok rows summary df df' :
  score_rows rows df = (Ok summary, df') ->
  summary = map scored rows /\ df' = df.
Proof.
  destruct rows as [| ind rest]; [discriminate |].
  remember (ind :: rest) as rows eqn:Hr.
  assert (Hne : rows <> []) by (subst; discriminate).
  clear Hr ind rest.
  unfold score_rows.
  rewrite (bind_ok _ _ _ _ _
             (summary_getitem_field rows "log_variance_ratio" _ df Hne
                eq_refl)).
  rewrite (bind_ok _ _ _ _ _
             (summary_getitem_field rows "abs_mean_shift_std" _ df Hne
                eq_refl)).
  rewrite (bind_ok _ _ _ _ _
             (summary_getitem_field rows "abs_slope_std" _ df Hne eq_refl)).
  unfold ret. intros H. injection H as <- <-. split; [| reflexivity].
  rewrite !map_map, !combine_map_map, !map_map, combine_self_map.
  rewrite combine_map_map, map_map.
  apply map_ext. intros x. reflexivity.
Qed.

Lemma fillna0_or_zero x : fillna0 x = or_zero x.
Proof. now destruct x. Qed.

Lemma clip_lower_zero_fmax x :
  isnan x = false -> clip_lower zero x = fmax x zero.
Proof.
  destruct x as [s | s | | s m e]; try destruct s; cbv; congruence.
Qed.

Lemma clip_lower_nan lower : clip_lower lower nan = nan.
Proof. reflexivity. Qed.

Section RankingRows.
Variable np_log : float -> float.
Variable np_polyfit_slope : list float -> list float -> option float.
Variable np_argsort : list float -> list nat.
Variables engine_col life_frac_col : string.
Variables early_frac late_frac : float.
Variable min_points_for_slope : Z.

Lemma read_only_collect_rows sensors : forall rows,
  read_only (collect_rows np_log np_polyfit_slope engine_col life_frac_col
               early_frac late_frac min_points_for_slope sensors rows).
Proof.
  induction sensors as [| s rest IH]; intros rows; simpl.
  - auto with read_only.
  - apply read_only_bind; [apply read_only_degradation_indicators | auto].
Qed.

(** A returned table is the sorted frame of the collected indicator
    values, and the caller's table is untouched. *)
Lemma rank_sensors_ok sensors df table df' :
  rank_sensors_by_degradation np_log np_polyfit_slope np_argsort engine_col
    life_frac_col early_frac late_frac min_points_for_slope sensors df
  = (Ok table, df') ->
  exists rows,
    collect_rows np_log np_polyfit_slope engine_col life_frac_col early_frac
      late_frac min_points_for_slope
      (match sensors with
       | Some l => l
       | None => filter (String.prefix "sensor_") (columns df)
       end) [] df = (Ok rows, df)
    /\ table = sort_values_by_score_descending np_argsort (map scored rows)
    /\ df' = df.
Proof.
  unfold rank_sensors_by_degradation.
  set (chosen := match sensors with
                 | Some l => l
                 | None => filter (String.prefix "sensor_") (columns df)
                 end).
  assert (Hsel : (match sensors with
                  | Some l => ret l
                  | None => cols <- df_columns ;;
                            ret (filter (String.prefix "sensor_") cols)
                  end) df = (Ok chosen, df)).
  { subst chosen. destruct sensors; reflexivity. }
  rewrite (bind_ok _ _ _ _ _ Hsel).
  destruct (collect_rows _ _ _ _ _ _ _ chosen [] df) as [[rows | e] df1]
    eqn:Hrows.
  - pose proof (f_equal snd Hrows) as Hro.
    rewrite read_only_collect_rows in Hro. simpl in Hro. subst df1.
    rewrite (bind_ok _ _ _ _ _ Hrows).
    destruct (score_rows rows df) as [[summary | e] df2] eqn:Hsum.
    + apply score_rows_ok in Hsum as Hs. destruct Hs as [-> ->].
      rewrite (bind_ok _ _ _ _ _ Hsum). unfold ret.
      intros H. injection H as <- <-. exists rows. auto.
    + rewrite (bind_raise _ _ _ _ _ Hsum). discriminate.
  - rewrite (bind_raise _ _ _ _ _ Hrows). discriminate.
Qed.

(** C10: with an empty sensor list, given or discovered, the call raises
    the KeyError of the missing [log_variance_ratio] column of the empty
    assembled frame; no ranking table is returned. *)
Theorem rank_sensors_empty_raises (df : DataFrame) :
  fst (rank_sensors_by_degradation np_log np_polyfit_slope np_argsort
         engine_col life_frac_col early_frac late_frac min_points_for_slope
         (Some []) df)
  = Raise (KeyError "log_variance_ratio")
  /\ (filter (String.prefix "sensor_") (columns df) = [] ->
      fst (rank_sensors_by_degradation np_log np_polyfit_slope np_argsort
             engine_col life_frac_col early_frac late_frac
             min_points_for_slope None df)
      = Raise (KeyError "log_variance_ratio")).
Proof.
  split.
  - reflexivity.
  - intros Hnone. unfold rank_sensors_by_degradation, bind, df_columns, ret.
    rewrite Hnone. reflexivity.
Qed.

(** C4: in every row of a returned table, [instability_signal] is
    [max(log_variance_ratio, 0)] when [log_variance_ratio] is defined and
    NaN when it is not, and [score] is the sum of [abs_mean_shift_std],
    [abs_slope_std] and [instability_signal], each replaced by 0 when
    NaN. *)
Theorem rank_rows_score_formula sensors df table df' :
  rank_sensors_by_degradation np_log np_polyfit_slope np_argsort engine_col
    life_frac_col early_frac late_frac min_points_for_slope sensors df
  = (Ok table, df') ->
  Forall (fun r =>
    (isnan (log_variance_ratio (indicators r)) = false ->
       instability_signal r = fmax (log_variance_ratio (indicators r)) zero)
    /\ (isnan (log_variance_ratio (indicators r)) = true ->
          instability_signal r = nan)
    /\ score r =
         add (add (or_zero (abs_mean_shift_std (indicators r)))
                  (or_zero (abs_slope_std (indicators r))))
             (or_zero (instability_signal r))) table.
Proof.
  intros Hrun. apply rank_sensors_ok in Hrun as (rows & _ & -> & _).
  apply Forall_forall. intros r Hr.
  apply In_take in Hr. apply in_map_iff in Hr as (ind & <- & _).
  unfold scored. cbn [indicators instability_signal score].
  rewrite !fillna0_or_zero. repeat split.
  - apply clip_lower_zero_fmax.
  - intros Hnan. destruct (log_variance_ratio ind); try discriminate.
    reflexivity.
Qed.
End RankingRows.

(** ** The loop over the engines *)

Lemma dropna_notnan rows :
  forallb (fun r => notnan (snd r)) (dropna rows) = true.
Proof.
  unfold dropna. apply forallb_forall. intros r Hr.
  apply filter_In in Hr as [_ Hr]. now apply andb_true_iff in Hr.
Qed.

Lemma window_notnan (keep : float * float -> bool) g :
  forallb (fun r => notnan (snd r)) g = true ->
  forallb notnan (map snd (filter keep g)) = true.
Proof.
  intros H. apply forallb_forall. intros x Hx.
  apply in_map_iff in Hx as (r & <- & Hr). apply filter_In in Hr as [Hr _].
  rewrite forallb_forall in H. now apply H.
Qed.

Section EngineLoop.
Variable np_polyfit_slope : list float -> list float -> option float.
Variables sensor_name life_frac_col : string.
Variables early_frac late_frac : float.
Variable min_points_for_slope : Z.

Lemma slope_step_lists g a a' df df' :
  slope_step np_polyfit_slope min_points_for_slope g a df = (Ok a', df') ->
  mean_shifts a' = mean_shifts a /\ var_ratios a' = var_ratios a.
Proof.
  unfold slope_step, ret, raise.
  destruct (min_points_for_slope <=? _)%Z.
  - destruct (np_polyfit_slope _ _); [| discriminate].
    intros H. injection H as <- <-. auto.
  - intros H. injection H as <- <-. auto.
Qed.

(** One turn of the loop appends the engine's contributions. *)
Lemma engine_step_lists rows a a' df df' :
  engine_step np_polyfit_slope sensor_name life_frac_col early_frac late_frac
    min_points_for_slope rows a df = (Ok a', df') ->
  mean_shifts a' =
    mean_shifts a ++ shift_contribution early_frac late_frac rows
  /\ var_ratios a' =
       var_ratios a ++ ratio_contribution early_frac late_frac rows.
Proof.
  unfold engine_step, shift_contribution, ratio_contribution.
  pose proof (dropna_notnan rows) as Hnn.
  destruct (dropna rows) as [| r g] eqn:Hg.
  - unfold ret. intros H. injection H as <- <-.
    simpl. now rewrite !app_nil_r.
  - destruct (String.eqb life_frac_col sensor_name); [discriminate |].
    intros H. apply slope_step_lists in H as [-> ->].
    unfold shift_step.
    set (early := early_window early_frac (r :: g)).
    set (late := late_window late_frac (r :: g)).
    rewrite !Nat.ltb_antisym, <- negb_andb.
    destruct ((5 <=? List.length early)%nat && (5 <=? List.length late)%nat);
      cbn [negb mean_shifts var_ratios].
    + rewrite !nanmean_mean by (apply window_notnan; exact Hnn).
      split; [reflexivity |].
      destruct (isfinite (var_ddof1 early) && gtb (var_ddof1 early) zero
                && isfinite (var_ddof1 late)); [reflexivity |].
      now rewrite app_nil_r.
    + now rewrite !app_nil_r.
Qed.

Lemma engine_loop_lists groups : forall a a' df df',
  engine_loop np_polyfit_slope sensor_name life_frac_col early_frac late_frac
    min_points_for_slope groups a df = (Ok a', df') ->
  mean_shifts a' =
    mean_shifts a
    ++ flat_map (shift_contribution early_frac late_frac) (map snd groups)
  /\ var_ratios a' =
       var_ratios a
       ++ flat_map (ratio_contribution early_frac late_frac) (map snd groups).
Proof.
  induction groups as [| [k rows] rest IH]; intros a a' df df'; simpl.
  - unfold ret. intros H. injection H as <- <-. now rewrite !app_nil_r.
  - unfold bind.
    destruct (engine_step _ _ _ _ _ _ rows a df) as [[a1 | e] df1] eqn:Hstep;
      [| discriminate].
    intros Hrest. apply engine_step_lists in Hstep as [Hs Hv].
    apply IH in Hrest as [-> ->]. rewrite Hs, Hv, <- !app_assoc. auto.
Qed.
End EngineLoop.

(** An engine contributes at most one mean shift, and none unless both of
    its windows hold five points. *)
Lemma count_finite_shift_contributions early_frac late_frac groups :
  (count_finite (flat_map (shift_contribution early_frac late_frac) groups)
   <= List.length (filter (both_windows_full early_frac late_frac) groups))%nat.
Proof.
  unfold count_finite.
  induction groups as [| rows rest IH]; simpl; [lia |].
  rewrite filter_app, length_app.
  unfold shift_contribution at 1, both_windows_full at 1.
  rewrite !Nat.ltb_antisym, <- negb_andb.
  destruct ((5 <=? _)%nat && (5 <=? _)%nat); cbn [negb].
  - simpl. destruct (isfinite _); simpl; lia.
  - simpl. lia.
Qed.

Lemma count_finite_or_zero (l : list float) :
  match l with [] => 0%nat | x :: r => count_finite (x :: r) end
  = count_finite l.
Proof. now destruct l. Qed.


(** ** Division of a finite binary64 value by itself *)

Lemma div_eucl_div_mod a b : Z.div_eucl a b = (a / b, a mod b).
Proof.
  unfold Z.div, Z.modulo. now destruct (Z.div_eucl a b).
Qed.

Lemma SFdiv_core_self m e :
  SFdiv_core_binary prec emax (Zpos m) e (Zpos m) e
  = (2 ^ 53, -53, loc_Exact).
Proof.
  unfold SFdiv_core_binary. cbv zeta.
  rewrite !Z.sub_diag.
  change (Z.min (fexp prec emax 0) 0) with (-53).
  change (0 - -53) with 53.
  cbv iota beta.
  rewrite div_eucl_div_mod.
  rewrite Z.shiftl_mul_pow2 by lia.
  rewrite (Z.mul_comm (Zpos m)).
  rewrite Z.div_mul by lia.
  rewrite Z.mod_mul by lia.
  unfold new_location, new_location_even, new_location_odd.
  now destruct (Z.even (Zpos m)).
Qed.

(** [x / x] is exactly 1.0 for every finite [x] other than zero. *)
Lemma div_self_finite s m e :
  div (S754_finite s m e) (S754_finite s m e) = one.
Proof.
  unfold div, SFdiv. rewrite SFdiv_core_self.
  rewrite xorb_nilpotent. vm_compute. reflexivity.
Qed.

(** ** Conversion of a positive integer to binary64 *)

Lemma digits2_pos_bounds p :
  2 ^ (Zpos (digits2_pos p) - 1) <= Zpos p < 2 ^ Zpos (digits2_pos p).
Proof.
  induction p as [p IH | p IH |]; cbn [digits2_pos].
  - rewrite Pos2Z.inj_succ.
    replace (Z.succ (Zpos (digits2_pos p)) - 1)
      with (Z.succ (Zpos (digits2_pos p) - 1)) by lia.
    rewrite !Z.pow_succ_r by lia. lia.
  - rewrite Pos2Z.inj_succ.
    replace (Z.succ (Zpos (digits2_pos p)) - 1)
      with (Z.succ (Zpos (digits2_pos p) - 1)) by lia.
    rewrite !Z.pow_succ_r by lia. lia.
  - simpl. lia.
Qed.

Lemma Zdigits2_unique m k :
  2 ^ (k - 1) <= m < 2 ^ k -> 0 < k -> Zdigits2 m = k.
Proof.
  intros [Hlo Hhi] Hk.
  assert (0 < 2 ^ (k - 1)) by (apply Z.pow_pos_nonneg; lia).
  destruct m as [| p | p]; try lia.
  cbn [Zdigits2].
  pose proof (digits2_pos_bounds p) as [Hlo' Hhi'].
  set (d := Zpos (digits2_pos p)) in *.
  assert (0 < d) by (subst d; lia).
  assert (d - 1 < k).
  { apply (Z.pow_lt_mono_r_iff 2); lia. }
  assert (k - 1 < d).
  { apply (Z.pow_lt_mono_r_iff 2); lia. }
  lia.
Qed.

Lemma shr_m_shr_1 mrs :
  0 <= shr_m mrs -> shr_m (shr_1 mrs) = shr_m mrs / 2.
Proof.
  destruct mrs as [m r s]. cbn [shr_m]. intros Hm.
  destruct m as [| [p | p |] | p]; cbn [shr_1 shr_m].
  - reflexivity.
  - rewrite Pos2Z.inj_xI.
    apply (Z.div_unique_pos _ _ _ 1); lia.
  - rewrite Pos2Z.inj_xO. symmetry. rewrite Z.mul_comm.
    apply Z.div_mul. lia.
  - reflexivity.
  - lia.
Qed.

Lemma shr_m_iter_pos n : forall mrs,
  0 <= shr_m mrs ->
  shr_m (iter_pos shr_1 n mrs) = shr_m mrs / 2 ^ Zpos n.
Proof.
  assert (Hnn : forall mrs, 0 <= shr_m mrs -> 0 <= shr_m (shr_1 mrs)).
  { intros mrs H. rewrite shr_m_shr_1 by exact H. apply Z.div_pos; lia. }
  induction n as [n IH | n IH |]; intros mrs Hm; cbn [iter_pos].
  - assert (Hp : 0 < 2 ^ Zpos n) by (apply Z.pow_pos_nonneg; lia).
    assert (H1 : 0 <= shr_m (iter_pos shr_1 n (shr_1 mrs))).
    { rewrite IH by auto. apply Z.div_pos; auto. }
    rewrite IH, IH, shr_m_shr_1 by auto.
    rewrite !Z.div_div by lia.
    f_equal. rewrite (Pos2Z.inj_xI n).
    replace (2 * Zpos n + 1) with (1 + Zpos n + Zpos n) by lia.
    rewrite !Z.pow_add_r by lia. lia.
  - assert (Hp : 0 < 2 ^ Zpos n) by (apply Z.pow_pos_nonneg; lia).
    assert (H1 : 0 <= shr_m (iter_pos shr_1 n mrs)).
    { rewrite IH by auto. apply Z.div_pos; auto. }
    rewrite IH, IH by auto.
    rewrite Z.div_div by lia.
    f_equal. rewrite (Pos2Z.inj_xO n).
    replace (2 * Zpos n) with (Zpos n + Zpos n) by lia.
    rewrite Z.pow_add_r by lia. lia.
  - rewrite shr_m_shr_1 by exact Hm. reflexivity.
Qed.

Lemma shr_m_shr_record_of_loc m l : shr_m (shr_record_of_loc m l) = m.
Proof. now destruct l as [| []]. Qed.

(** The shift that brings a mantissa of at least 53 digits to 53 digits. *)
Lemma shr_fexp_normal m e l :
  0 < m -> 53 <= Zdigits2 m -> -1074 <= Zdigits2 m + e - 53 ->
  exists mrs,
    shr_fexp prec emax m e l = (mrs, e + (Zdigits2 m - 53))
    /\ shr_m mrs = m / 2 ^ (Zdigits2 m - 53).
Proof.
  intros Hm Hd He. unfold shr_fexp.
  assert (Hfexp : fexp prec emax (Zdigits2 m + e) - e = Zdigits2 m - 53).
  { unfold fexp, emin, prec, emax. lia. }
  rewrite Hfexp. unfold shr.
  destruct (Zdigits2 m - 53) as [| k | k] eqn:Hk; try lia.
  - eexists. split; [f_equal; lia |].
    rewrite shr_m_shr_record_of_loc. now rewrite Z.div_1_r.
  - eexists. split; [reflexivity |].
    rewrite shr_m_iter_pos; rewrite shr_m_shr_record_of_loc; [reflexivity | lia].
Qed.

Lemma Zdigits2_bounds m :
  0 < m -> 2 ^ (Zdigits2 m - 1) <= m < 2 ^ Zdigits2 m.
Proof.
  destruct m as [| p | p]; try lia. intros _. apply digits2_pos_bounds.
Qed.

Lemma round_nearest_even_cases m l :
  round_nearest_even m l = m \/ round_nearest_even m l = m + 1.
Proof.
  destruct l as [| []]; cbn [round_nearest_even]; auto.
  destruct (Z.even m); auto.
Qed.

(** Rounding a mantissa of at least 53 digits, in range, gives a finite
    value of the same sign. *)
Lemma binary_round_aux_normal s mx ex l :
  53 <= Zdigits2 (Zpos mx) ->
  -1074 <= Zdigits2 (Zpos mx) + ex - 53 ->
  Zdigits2 (Zpos mx) + ex <= 1023 ->
  exists m e, binary_round_aux prec emax s (Zpos mx) ex l = S754_finite s m e.
Proof.
  intros Hd Hlo Hhi.
  set (d := Zdigits2 (Zpos mx)) in *.
  pose proof (Zdigits2_bounds (Zpos mx) eq_refl) as [Hb1 Hb2]. fold d in Hb1, Hb2.
  unfold binary_round_aux.
  destruct (shr_fexp_normal (Zpos mx) ex l eq_refl Hd Hlo)
    as (mrs1 & -> & Hm1). fold d in Hm1 |- *.
  assert (Hpk : 0 < 2 ^ (d - 53)) by (apply Z.pow_pos_nonneg; lia).
  assert (Hsplit : 2 ^ (d - 1) = 2 ^ (d - 53) * 2 ^ 52).
  { rewrite <- Z.pow_add_r by lia. f_equal. lia. }
  assert (Hsplit' : 2 ^ d = 2 ^ (d - 53) * 2 ^ 53).
  { rewrite <- Z.pow_add_r by lia. f_equal. lia. }
  assert (Hm1lo : 2 ^ 52 <= shr_m mrs1).
  { rewrite Hm1. apply Z.div_le_lower_bound; lia. }
  assert (Hm1hi : shr_m mrs1 < 2 ^ 53).
  { rewrite Hm1. apply Z.div_lt_upper_bound; lia. }
  set (r := round_nearest_even (shr_m mrs1) (loc_of_shr_record mrs1)).
  assert (Hr : 2 ^ 52 <= r <= 2 ^ 53).
  { subst r.
    destruct (round_nearest_even_cases (shr_m mrs1) (loc_of_shr_record mrs1))
      as [-> | ->]; lia. }
  assert (Hrpos : 0 < r) by lia.
  assert (Hdr : Zdigits2 r = 53 \/ (Zdigits2 r = 54 /\ r = 2 ^ 53)).
  { destruct (Z.eq_dec r (2 ^ 53)) as [-> | Hne].
    - right. split; reflexivity.
    - left. apply Zdigits2_unique; [change (53 - 1) with 52 |]; lia. }
  destruct (shr_fexp_normal r (ex + (d - 53)) loc_Exact Hrpos)
    as (mrs2 & -> & Hm2); try lia.
  destruct Hdr as [Hdr | [Hdr ->]]; rewrite Hdr in *.
  - change (53 - 53) with 0 in *. rewrite Z.div_1_r in Hm2. rewrite Hm2.
    destruct r as [| rp | rp]; try lia.
    assert (Hle : (ex + (d - 53) + 0 <=? emax - prec) = true).
    { apply Z.leb_le. unfold emax, prec. lia. }
    rewrite Hle. eauto.
  - change (shr_m mrs2 = 2 ^ 52) in Hm2. rewrite Hm2.
    change (2 ^ 52) with (Zpos (2 ^ 52)).
    assert (Hle : (ex + (d - 53) + (54 - 53) <=? emax - prec) = true).
    { apply Z.leb_le. unfold emax, prec. lia. }
    rewrite Hle. eauto.
Qed.

Lemma digits2_pos_iter_xO p k :
  digits2_pos (Pos.iter xO p k) = (digits2_pos p + k)%positive.
Proof.
  induction k as [| k IH] using Pos.peano_ind.
  - cbn [Pos.iter digits2_pos]. lia.
  - rewrite Pos.iter_succ. cbn [digits2_pos]. rewrite IH. lia.
Qed.

(** A positive integer below [2^1023] converts to a finite positive
    binary64 value. *)
Lemma of_Z_pos_finite p :
  Zpos p < 2 ^ 1023 -> exists m e, of_Z (Zpos p) = S754_finite false m e.
Proof.
  intros Hp.
  pose proof (digits2_pos_bounds p) as [Hlo Hhi].
  assert (Hd : Zpos (digits2_pos p) <= 1023).
  { assert (Zpos (digits2_pos p) - 1 < 1023); [| lia].
    apply (Z.pow_lt_mono_r_iff 2); lia. }
  unfold of_Z, binary_normalize, binary_round.
  assert (Hfexp : fexp prec emax (Zpos (digits2_pos p) + 0)
                  = Zpos (digits2_pos p) - 53).
  { unfold fexp, emin, prec, emax. lia. }
  rewrite Hfexp. unfold shl_align.
  destruct (Zpos (digits2_pos p) - 53 - 0) as [| k | k] eqn:Hk.
  - apply binary_round_aux_normal; cbn [Zdigits2]; lia.
  - apply binary_round_aux_normal; cbn [Zdigits2]; lia.
  - apply binary_round_aux_normal; cbn [Zdigits2];
      rewrite digits2_pos_iter_xO; lia.
Qed.

Lemma div_of_Z_self z : 0 < z < 2 ^ 63 -> div (of_Z z) (of_Z z) = one.
Proof.
  intros [Hpos Hlt]. destruct z as [| p | p]; try lia.
  destruct (of_Z_pos_finite p) as (m & e & ->); [| apply div_self_finite].
  assert (2 ^ 63 < 2 ^ 1023) by (apply Z.pow_lt_mono_r; lia). lia.
Qed.

(** ** Groups *)

Section GroupFacts.
Context {A : Type}.

Lemma group_of_group_add (k k1 : key) (a : A) gs :
  group_of k (group_add k1 a gs) =
    if key_eqb k k1
    then Some (match group_of k gs with
               | Some g => g ++ [a]
               | None => [a]
               end)
    else group_of k gs.
Proof.
  induction gs as [| [k' l] rest IH]; cbn [group_add group_of].
  - now destruct (key_eqb k k1).
  - destruct (key_eqb k1 k') eqn:E1; cbn [group_of].
    + destruct (key_eqb k k') eqn:E; destruct (key_eqb k k1) eqn:E2; auto.
      * rewrite (key_eqb_trans _ _ _ E (key_eqb_sym _ _ E1)) in E2.
        discriminate.
      * rewrite (key_eqb_trans _ _ _ E2 E1) in E. discriminate.
    + destruct (key_eqb k k') eqn:E; [| exact IH].
      destruct (key_eqb k k1) eqn:E2; auto.
      rewrite (key_eqb_trans _ _ _ (key_eqb_sym _ _ E2) E) in E1.
      discriminate.
Qed.

Lemma group_of_fold (k : key) (rows : list (option key * A)) : forall gs,
  group_of k
    (fold_left (fun gs r => match fst r with
                            | Some k1 => group_add k1 (snd r) gs
                            | None => gs
                            end) rows gs)
  = match group_of k gs, cells_of_key k rows with
    | Some g, l => Some (g ++ l)
    | None, [] => None
    | None, l => Some l
    end.
Proof.
  unfold cells_of_key.
  induction rows as [| [[k1 |] a] rows IH]; intros gs; cbn [fold_left fst snd].
  - cbn. destruct (group_of k gs); [now rewrite app_nil_r | reflexivity].
  - rewrite IH, group_of_group_add. cbn [filter fst].
    destruct (key_eqb k k1); cbn [map snd].
    + destruct (group_of k gs); [now rewrite <- app_assoc | reflexivity].
    + reflexivity.
  - rewrite IH. reflexivity.
Qed.

(** The group of a key that occurs is made of the cells of its rows. *)
Lemma group_of_groupby (k : key) (rows : list (option key * A)) :
  group_of k (groupby rows) =
    match cells_of_key k rows with
    | [] => None
    | l => Some l
    end.
Proof. unfold groupby. now rewrite group_of_fold. Qed.

Lemma In_cells_of_key k (rows : list (option key * A)) i k' a :
  nth_error rows i = Some (Some k', a) -> key_eqb k k' = true ->
  In a (cells_of_key k rows).
Proof.
  intros Hi Hk. unfold cells_of_key. apply in_map_iff.
  exists (Some k', a). split; [reflexivity |].
  apply filter_In. split; [eapply nth_error_In; eauto | exact Hk].
Qed.

Lemma cells_of_key_inv k (rows : list (option key * A)) a :
  In a (cells_of_key k rows) ->
  exists i k', nth_error rows i = Some (Some k', a) /\ key_eqb k k' = true.
Proof.
  unfold cells_of_key. intros H.
  apply in_map_iff in H as ([ok b] & Hb & Hin). cbn in Hb. subst b.
  apply filter_In in Hin as [Hin Hk]. cbn [fst] in Hk.
  destruct ok as [k' |]; [| discriminate].
  apply In_nth_error in Hin as [i Hi]. eauto.
Qed.
End GroupFacts.

Lemma fold_max_le l : forall z m,
  z <= m -> (forall c, In c l -> c <= m) -> fold_left Z.max l z <= m.
Proof.
  induction l as [| c l IH]; intros z m Hz Hl; cbn [fold_left]; [exact Hz |].
  apply IH; [| intros; apply Hl; now right].
  specialize (Hl c (or_introl eq_refl)). lia.
Qed.

Lemma fold_max_ge l : forall z, z <= fold_left Z.max l z.
Proof.
  induction l as [| c l IH]; intros z; cbn [fold_left]; [lia |].
  specialize (IH (Z.max z c)). lia.
Qed.

Lemma fold_max_ge_In l : forall z c, In c l -> c <= fold_left Z.max l z.
Proof.
  induction l as [| x l IH]; intros z c Hin; [destruct Hin |].
  cbn [fold_left]. destruct Hin as [<- | Hin].
  - pose proof (fold_max_ge l (Z.max z x)). lia.
  - now apply IH.
Qed.

(** The maximum of a group that holds [m] and nothing larger. *)
Lemma int_group_max_is g m :
  In m g -> (forall c, In c g -> c <= m) -> int_group_max g = of_Z m.
Proof.
  destruct g as [| z rest]; [contradiction |].
  intros Hin Hle. cbn [int_group_max]. f_equal.
  apply Z.le_antisymm.
  - apply fold_max_le; [apply Hle; now left | intros; apply Hle; now right].
  - destruct Hin as [<- | Hin];
      [apply fold_max_ge | now apply fold_max_ge_In].
Qed.

(** ** The life fraction at the last cycle *)

Lemma assign_absent name c df :
  has_column name df = false -> assign name c df = df ++ [(name, c)].
Proof.
  unfold has_column, columns.
  induction df as [| [n c'] rest IH]; cbn; [reflexivity |].
  destruct (String.eqb name n); cbn; [discriminate |].
  intros H. now rewrite IH.
Qed.

Lemma nth_error_combine_Some {A B} (l : list A) (l' : list B) i a b :
  nth_error l i = Some a -> nth_error l' i = Some b ->
  nth_error (combine l l') i = Some (a, b).
Proof.
  revert l' i. induction l as [| x l IH]; intros [| y l'] [| i]; cbn;
    try discriminate; try congruence. apply IH.
Qed.

Lemma nth_error_combine_inv {A B} (l : list A) (l' : list B) i a b :
  nth_error (combine l l') i = Some (a, b) ->
  nth_error l i = Some a /\ nth_error l' i = Some b.
Proof.
  revert l' i. induction l as [| x l IH]; intros [| y l'] [| i]; cbn;
    try discriminate.
  - intros H. injection H as <- <-. auto.
  - apply IH.
Qed.

(** The quotient of the cycles by their group maxima is 1.0 at a row that
    holds the largest cycle of its engine. *)
Lemma series_div_one_at_max (engines : column) (cycles : list Z) i k m :
  Forall int64 cycles ->
  nth_error (keys_of engines) i = Some (Some k) ->
  nth_error cycles i = Some m ->
  (forall j k' c,
     nth_error (keys_of engines) j = Some (Some k') ->
     key_eqb k k' = true ->
     nth_error cycles j = Some c -> c <= m) ->
  0 < m ->
  nth_error (series_div (map of_Z cycles)
               (transform int_group_max (keys_of engines) cycles)) i
  = Some one.
Proof.
  intros Hint Hk Hm Hmax Hpos.
  unfold series_div, transform.
  set (rows := combine (keys_of engines) cycles).
  assert (Hrow : nth_error rows i = Some (Some k, m))
    by (apply nth_error_combine_Some; assumption).
  assert (Hin : In m (cells_of_key k rows)).
  { eapply In_cells_of_key; [exact Hrow |]. eapply keys_of_refl; eauto. }
  assert (Hgroup : group_of k (groupby rows) = Some (cells_of_key k rows)).
  { rewrite group_of_groupby. destruct (cells_of_key k rows);
      [contradiction | reflexivity]. }
  assert (Hle : forall c, In c (cells_of_key k rows) -> c <= m).
  { intros c Hc. apply cells_of_key_inv in Hc as (j & k' & Hj & Hkk).
    apply nth_error_combine_inv in Hj as [Hj1 Hj2]. eauto. }
  rewrite nth_error_map.
  erewrite nth_error_combine_Some.
  2: { rewrite nth_error_map, Hm. reflexivity. }
  2: { rewrite nth_error_map, Hrow. cbn [option_map fst].
       rewrite Hgroup. rewrite (int_group_max_is _ m Hin Hle). reflexivity. }
  cbn [option_map fst snd]. f_equal. apply div_of_Z_self.
  split; [exact Hpos |].
  rewrite Forall_forall in Hint.
  apply nth_error_In in Hm. apply Hint in Hm. unfold int64 in Hm. lia.
Qed.

(** C8, as the code has it: when [ensure_life_frac] computes the column
    (the table has no column of that name yet) from an int64 cycle column,
    a row that holds the largest cycle of its engine has life fraction
    exactly 1.0 when that cycle is positive. *)
Theorem life_frac_one_at_max_cycle (engine_col cycle_col out_col : string)
    (df : DataFrame) (engines : column) (cycles : list Z) :
  has_column out_col df = false ->
  lookup engine_col df = Some engines ->
  lookup cycle_col df = Some (IntCol cycles) ->
  Forall int64 cycles ->
  exists df' life,
    ensure_life_frac engine_col cycle_col out_col df = (Ok df', df')
    /\ lookup out_col df' = Some (FloatCol life)
    /\ forall i k m,
         nth_error (keys_of engines) i = Some (Some k) ->
         nth_error cycles i = Some m ->
         (forall j k' c,
            nth_error (keys_of engines) j = Some (Some k') ->
            key_eqb k k' = true ->
            nth_error cycles j = Some c -> c <= m) ->
         0 < m ->
         nth_error life i = Some one.
Proof.
  intros Hhas Heng Hcyc Hint.
  set (life := series_div (map of_Z cycles)
                 (transform int_group_max (keys_of engines) cycles)).
  exists (assign out_col (FloatCol life) df), life.
  split; [| split; [apply lookup_assign_same |]].
  - unfold ensure_life_frac, bind, df_contains, df_getitem, df_setitem,
      df_self.
    rewrite Hhas, Heng, Hcyc. cbn. rewrite Hcyc. reflexivity.
  - intros i k m Hk Hm Hmax Hpos.
    now apply series_div_one_at_max with (k := k) (m := m).
Qed.

(** ** Signs of sums and quotients *)

Lemma shr_fexp_nonneg m e l :
  0 <= m -> 0 <= shr_m (fst (shr_fexp prec emax m e l)).
Proof.
  intros Hm. unfold shr_fexp, shr.
  destruct (fexp prec emax (Zdigits2 m + e) - e) as [| n | n]; cbn [fst];
    try (rewrite shr_m_shr_record_of_loc; exact Hm).
  rewrite shr_m_iter_pos by (rewrite shr_m_shr_record_of_loc; exact Hm).
  rewrite shr_m_shr_record_of_loc.
  apply Z.div_pos; [exact Hm | apply Z.pow_pos_nonneg; lia].
Qed.

(** Rounding a mantissa that is not negative never gives NaN, and gives
    the sign it was asked for. *)
Lemma binary_round_aux_sign s mx ex l :
  0 <= mx ->
  match binary_round_aux prec emax s mx ex l with
  | S754_zero s' | S754_infinity s' | S754_finite s' _ _ => s' = s
  | S754_nan => False
  end.
Proof.
  intros Hm. unfold binary_round_aux.
  pose proof (shr_fexp_nonneg mx ex l Hm) as H1.
  destruct (shr_fexp prec emax mx ex l) as [mrs1 e1]. cbn [fst] in H1.
  assert (Hr : 0 <= round_nearest_even (shr_m mrs1) (loc_of_shr_record mrs1)).
  { destruct (round_nearest_even_cases (shr_m mrs1) (loc_of_shr_record mrs1))
      as [-> | ->]; lia. }
  pose proof (shr_fexp_nonneg _ e1 loc_Exact Hr) as H2.
  destruct (shr_fexp prec emax _ e1 loc_Exact) as [mrs2 e2]. cbn [fst] in H2.
  destruct (shr_m mrs2) as [| p | p]; try lia; [reflexivity |].
  now destruct (e2 <=? emax - prec).
Qed.

Lemma binary_round_sign s m e :
  match binary_round prec emax s m e with
  | S754_zero s' | S754_infinity s' | S754_finite s' _ _ => s' = s
  | S754_nan => False
  end.
Proof.
  unfold binary_round.
  destruct (shl_align m e _) as [mz ez]. apply binary_round_aux_sign. lia.
Qed.

Lemma sign_positive_binary_round m e :
  sign_positive (binary_round prec emax false m e) = true.
Proof.
  pose proof (binary_round_sign false m e) as H.
  destruct (binary_round prec emax false m e); cbn; try subst; tauto.
Qed.

Lemma sign_positive_binary_round_aux mx ex l :
  0 <= mx -> sign_positive (binary_round_aux prec emax false mx ex l) = true.
Proof.
  intros Hm. pose proof (binary_round_aux_sign false mx ex l Hm) as H.
  destruct (binary_round_aux prec emax false mx ex l); cbn; try subst; tauto.
Qed.

Lemma sign_positive_of_nat n : sign_positive (of_nat n) = true.
Proof.
  unfold of_nat, of_Z, binary_normalize.
  destruct (Z.of_nat n) eqn:E; try lia; [reflexivity |].
  apply sign_positive_binary_round.
Qed.

(** The sum of two values of positive sign has positive sign; it is not
    NaN. *)
Lemma sign_positive_add x y :
  sign_positive x = true -> sign_positive y = true ->
  sign_positive (add x y) = true.
Proof.
  destruct x as [sx | sx | | sx mx ex], y as [sy | sy | | sy my ey];
    try destruct sx; try destruct sy; try discriminate; intros _ _;
    try reflexivity.
  unfold add, SFadd. cbn [cond_Zopp]. unfold binary_normalize.
  rewrite <- Pos2Z.inj_add. apply sign_positive_binary_round.
Qed.

(** Adding a value that is [>= 0] (a zero of either sign included) to a
    value of positive sign keeps the sign positive. *)
Lemma sign_positive_add_geb x y :
  sign_positive x = true -> geb y zero = true ->
  sign_positive (add x y) = true.
Proof.
  intros Hx Hy.
  destruct y as [sy | sy | | sy my ey]; try destruct sy;
    try (cbv in Hy; discriminate);
    try (apply sign_positive_add; [exact Hx | reflexivity]);
    destruct x as [sx | sx | | sx mx ex]; try destruct sx;
    try discriminate; reflexivity.
Qed.

Lemma positive_or_nan_abs x : positive_or_nan (abs x) = true.
Proof. now destruct x. Qed.

Lemma positive_or_nan_add x y :
  positive_or_nan x = true -> positive_or_nan y = true ->
  positive_or_nan (add x y) = true.
Proof.
  unfold positive_or_nan.
  destruct (isnan x) eqn:Hx; [destruct x; try discriminate; reflexivity |].
  destruct (isnan y) eqn:Hy;
    [destruct y; try discriminate; destruct x; reflexivity |].
  cbn [orb]. intros Hsx Hsy.
  rewrite (sign_positive_add x y Hsx Hsy). apply orb_true_r.
Qed.

Lemma positive_or_nan_div x y :
  positive_or_nan x = true -> positive_or_nan y = true ->
  positive_or_nan (div x y) = true.
Proof.
  unfold positive_or_nan.
  destruct x as [sx | sx | | sx mx ex], y as [sy | sy | | sy my ey];
    try destruct sx; try destruct sy; try discriminate; intros _ _;
    try reflexivity.
  unfold div, SFdiv.
  destruct (SFdiv_core_binary prec emax (Zpos mx) ex (Zpos my) ey)
    as [[mz ez] lz] eqn:E.
  cbn [xorb]. rewrite sign_positive_binary_round_aux; [apply orb_true_r |].
  revert E. unfold SFdiv_core_binary. cbv zeta.
  rewrite div_eucl_div_mod. intros E. injection E as <- _ _.
  apply Z.div_pos; [| lia].
  destruct (ex - ey - _); try lia.
  apply Z.shiftl_nonneg. lia.
Qed.

(** ** Scores are never NaN *)

Lemma positive_or_nan_fsum l :
  forallb positive_or_nan l = true -> positive_or_nan (fsum l) = true.
Proof.
  unfold fsum. assert (H0 : positive_or_nan zero = true) by reflexivity.
  revert H0. generalize zero as acc.
  induction l as [| x l IH]; intros acc Hacc Hl; cbn [fold_left];
    [exact Hacc |].
  cbn [forallb] in Hl. apply andb_true_iff in Hl as [Hx Hl].
  apply IH; [now apply positive_or_nan_add | exact Hl].
Qed.

Lemma positive_or_nan_nanmean_abs l :
  positive_or_nan (nanmean (map abs l)) = true.
Proof.
  unfold nanmean. apply positive_or_nan_div.
  - apply positive_or_nan_fsum. apply forallb_forall. intros x Hx.
    apply filter_In in Hx as [Hx _]. apply in_map_iff in Hx as (y & <- & _).
    apply positive_or_nan_abs.
  - unfold positive_or_nan. rewrite sign_positive_of_nat. apply orb_true_r.
Qed.

Lemma positive_or_nan_fleet_mean_abs l :
  positive_or_nan (fleet_mean (map abs l)) = true.
Proof.
  unfold fleet_mean. destruct (map abs l) eqn:E; [reflexivity |].
  rewrite <- E. apply positive_or_nan_nanmean_abs.
Qed.

Lemma positive_or_nan_normalized x b :
  positive_or_nan x = true ->
  positive_or_nan
    (normalized x (if isfinite b && gtb b zero then b else nan)) = true.
Proof.
  intros Hx. unfold normalized.
  destruct (isfinite b && gtb b zero) eqn:Hb; [| reflexivity].
  apply andb_true_iff in Hb as [Hfin Hgt]. rewrite Hfin.
  apply positive_or_nan_div; [exact Hx |].
  destruct b as [s | s | | s m e]; try destruct s; cbv in Hgt;
    try discriminate; reflexivity.
Qed.

Lemma sign_positive_fillna0 x :
  positive_or_nan x = true -> sign_positive (fillna0 x) = true.
Proof. destruct x as [s | s | | s m e]; try destruct s; cbn; congruence. Qed.

Lemma geb_fillna0_clip x : geb (fillna0 (clip_lower zero x)) zero = true.
Proof.
  unfold clip_lower.
  destruct (isnan x) eqn:Hnan; [destruct x; try discriminate; reflexivity |].
  cbn [orb]. destruct (geb x zero) eqn:Hge; [| reflexivity].
  unfold fillna0. now rewrite Hnan.
Qed.

(** The score of a row is [+0], positive or [+inf] when its two
    normalized magnitudes are NaN or of positive sign. *)
Lemma sign_positive_score ind :
  positive_or_nan (abs_mean_shift_std ind) = true ->
  positive_or_nan (abs_slope_std ind) = true ->
  sign_positive (score (scored ind)) = true.
Proof.
  intros Ha Hb. unfold scored. cbn [score].
  apply sign_positive_add_geb; [| apply geb_fillna0_clip].
  apply sign_positive_add; now apply sign_positive_fillna0.
Qed.

Lemma sign_positive_notnan x : sign_positive x = true -> notnan x = true.
Proof. now destruct x. Qed.

Section Scores.
Variable np_log : float -> float.
Variable np_polyfit_slope : list float -> list float -> option float.
Variables engine_col life_frac_col : string.
Variables early_frac late_frac : float.
Variable min_points_for_slope : Z.

Lemma degradation_indicators_magnitudes s df ind df' :
  degradation_indicators np_log np_polyfit_slope s engine_col life_frac_col
    early_frac late_frac min_points_for_slope df = (Ok ind, df') ->
  sensor ind = s
  /\ positive_or_nan (abs_mean_shift_std ind) = true
  /\ positive_or_nan (abs_slope_std ind) = true.
Proof.
  intros Hrun.
  apply degradation_indicators_ok in Hrun
    as (engines & life & vals & a & _ & _ & _ & _ & _ & Hind).
  cbv zeta in Hind. subst ind.
  cbn [sensor abs_mean_shift_std abs_slope_std].
  repeat split;
    apply positive_or_nan_normalized, positive_or_nan_fleet_mean_abs.
Qed.

(** The collected rows are the indicator values of the sensors, in the
    order of the sensors. *)
Lemma collect_rows_ok sensors : forall rows0 rows df df',
  collect_rows np_log np_polyfit_slope engine_col life_frac_col early_frac
    late_frac min_points_for_slope sensors rows0 df = (Ok rows, df') ->
  exists new,
    rows = rows0 ++ new
    /\ map sensor new = sensors
    /\ Forall (fun ind =>
         positive_or_nan (abs_mean_shift_std ind) = true /\
         positive_or_nan (abs_slope_std ind) = true) new.
Proof.
  induction sensors as [| s rest IH]; intros rows0 rows df df'; cbn.
  - unfold ret. intros H. injection H as <- <-.
    exists []. rewrite app_nil_r. auto.
  - unfold bind.
    destruct (degradation_indicators _ _ s _ _ _ _ _ df)
      as [[ind | e] df1] eqn:Hind; [| discriminate].
    intros Hrest. apply IH in Hrest as (new & -> & Hs & Hall).
    apply degradation_indicators_magnitudes in Hind as (Hname & Ha & Hb).
    exists (ind :: new). rewrite <- app_assoc. cbn.
    repeat split; [congruence | constructor; auto].
Qed.
End Scores.

(** ** Taking rows by position *)

Lemma take_map {A B} (f : A -> B) l indexer :
  take (map f l) indexer = map f (take l indexer).
Proof.
  unfold take. induction indexer as [| i rest IH]; cbn; [reflexivity |].
  rewrite map_app, IH, nth_error_map.
  now destruct (nth_error l i).
Qed.

Lemma take_app {A} (l : list A) i1 i2 :
  take l (i1 ++ i2) = take l i1 ++ take l i2.
Proof. unfold take. apply flat_map_app. Qed.

Lemma take_rev {A} (l : list A) indexer :
  take l (rev indexer) = rev (take l indexer).
Proof.
  induction indexer as [| i rest IH]; [reflexivity |].
  cbn [rev]. rewrite take_app, IH.
  change (i :: rest) with ([i] ++ rest). rewrite (take_app l [i] rest).
  rewrite rev_app_distr. f_equal.
  unfold take. cbn. now destruct (nth_error l i).
Qed.

Lemma take_seq_from {A} (l1 l2 : list A) :
  take (l1 ++ l2) (seq (List.length l1) (List.length l2)) = l2.
Proof.
  revert l1. induction l2 as [| x l2 IH]; intros l1; [reflexivity |].
  cbn [List.length seq]. unfold take. cbn [flat_map].
  rewrite nth_error_app2, Nat.sub_diag by lia. cbn. f_equal.
  specialize (IH (l1 ++ [x])).
  rewrite <- app_assoc, length_app, Nat.add_1_r in IH. exact IH.
Qed.

Lemma take_seq {A} (l : list A) : take l (seq 0 (List.length l)) = l.
Proof. exact (take_seq_from [] l). Qed.

Lemma nth_error_take {A} (l : list A) idxs :
  Forall (fun i => (i < List.length l)%nat) idxs ->
  forall j, nth_error (take l idxs) j =
            match nth_error idxs j with
            | Some i => nth_error l i
            | None => None
            end.
Proof.
  induction 1 as [| i idxs Hi _ IH]; intros j.
  - now destruct j.
  - apply nth_error_Some in Hi.
    unfold take. cbn [flat_map]. fold (take l idxs).
    destruct (nth_error l i) as [a |] eqn:E; [| congruence].
    destruct j as [| j]; cbn; [auto | apply IH].
Qed.

Lemma take_take {A} (l : list A) idxs order :
  Forall (fun i => (i < List.length l)%nat) idxs ->
  take l (take idxs order) = take (take l idxs) order.
Proof.
  intros Hin. induction order as [| j rest IH]; [reflexivity |].
  change (j :: rest) with ([j] ++ rest).
  rewrite (take_app idxs [j] rest), (take_app (take l idxs) [j] rest).
  rewrite take_app, IH. f_equal.
  assert (Hone : forall (B : Type) (m : list B) k,
            take m [k] = match nth_error m k with
                         | Some b => [b]
                         | None => []
                         end).
  { intros B m k. unfold take. cbn. apply app_nil_r. }
  rewrite (Hone _ idxs j), (Hone _ (take l idxs) j).
  rewrite (nth_error_take l idxs Hin j).
  destruct (nth_error idxs j) as [i |]; [apply Hone | reflexivity].
Qed.

Lemma Permutation_take {A} (l : list A) i1 i2 :
  Permutation i1 i2 -> Permutation (take l i1) (take l i2).
Proof. intros H. unfold take. now rewrite H. Qed.

(** ** Order along a sorted list *)

Lemma StronglySorted_nth {A} (R : A -> A -> Prop) l :
  StronglySorted R l ->
  forall i j a b, (i < j)%nat ->
    nth_error l i = Some a -> nth_error l j = Some b -> R a b.
Proof.
  induction 1 as [| x l Hs IH Hall]; intros i j a b Hij Ha Hb.
  - now destruct i.
  - destruct j as [| j]; [lia |]. cbn in Hb.
    destruct i as [| i]; cbn in Ha.
    + injection Ha as <-. rewrite Forall_forall in Hall.
      apply Hall. eapply nth_error_In; eauto.
    + apply (IH i j); auto. lia.
Qed.

Lemma StronglySorted_rev_nth {A} (R : A -> A -> Prop) l :
  StronglySorted R l ->
  forall i j a b, (i < j)%nat ->
    nth_error (rev l) i = Some a -> nth_error (rev l) j = Some b -> R b a.
Proof.
  intros Hs i j a b Hij Ha Hb.
  rewrite nth_error_rev in Ha, Hb.
  destruct (Nat.ltb_spec i (List.length l)); [| discriminate].
  destruct (Nat.ltb_spec j (List.length l)); [| discriminate].
  apply (StronglySorted_nth R l Hs (List.length l - S j) (List.length l - S i));
    auto. lia.
Qed.

(** ** nargsort and sort_values *)

Lemma map_fst_combine_eq {A B} (l : list A) (l' : list B) :
  List.length l = List.length l' -> map fst (combine l l') = l.
Proof.
  revert l'. induction l as [| x l IH]; intros [| y l'] H; cbn in *;
    try discriminate; [reflexivity |]. f_equal. apply IH. lia.
Qed.

Lemma map_snd_combine_eq {A B} (l : list A) (l' : list B) :
  List.length l = List.length l' -> map snd (combine l l') = l'.
Proof.
  revert l'. induction l as [| x l IH]; intros [| y l'] H; cbn in *;
    try discriminate; [reflexivity |]. f_equal. apply IH. lia.
Qed.

Lemma filter_all {A} (f : A -> bool) l :
  forallb f l = true -> filter f l = l.
Proof.
  induction l as [| x l IH]; cbn; [reflexivity |].
  intros H. apply andb_true_iff in H as [Hx Hl]. now rewrite Hx, IH.
Qed.

Lemma filter_none {A} (f : A -> bool) l :
  forallb (fun x => negb (f x)) l = true -> filter f l = [].
Proof.
  induction l as [| x l IH]; cbn; [reflexivity |].
  intros H. apply andb_true_iff in H as [Hx Hl].
  apply negb_true_iff in Hx. now rewrite Hx, IH.
Qed.

Lemma forallb_snd_combine {A} (f : float -> bool) (l : list A) items :
  forallb f items = true ->
  forallb (fun p => f (snd p)) (combine l items) = true.
Proof.
  intros H. apply forallb_forall. intros [a x] Hin.
  apply in_combine_r in Hin. rewrite forallb_forall in H. now apply H.
Qed.

Section Nargsort.
Variable np_argsort : list float -> list nat.

Lemma nargsort_descending_notnan items :
  forallb notnan items = true ->
  nargsort_descending np_argsort items
  = rev (take (rev (seq 0 (List.length items))) (np_argsort (rev items))).
Proof.
  intros Hnn. unfold nargsort_descending.
  rewrite (filter_all (fun p => notnan (snd p)))
    by now apply forallb_snd_combine.
  rewrite (filter_none (fun p : nat * float => isnan (snd p)))
    by now apply (forallb_snd_combine notnan).
  cbn [map]. rewrite app_nil_r, !map_rev.
  rewrite map_fst_combine_eq, map_snd_combine_eq by now rewrite length_seq.
  reflexivity.
Qed.

Hypothesis np_argsort_ok : argsort_spec np_argsort.

Lemma rev_seq_in_range n :
  Forall (fun i => (i < n)%nat) (rev (seq 0 n)).
Proof.
  apply Forall_forall. intros i Hi. apply in_rev, in_seq in Hi. lia.
Qed.

Lemma forallb_rev {A} (f : A -> bool) l :
  forallb f l = true -> forallb f (rev l) = true.
Proof.
  rewrite !forallb_forall. intros H x Hx. apply H. now apply in_rev.
Qed.

(** The items read along the indexer are the ascending order of the
    reversed items, reversed. *)
Lemma take_nargsort_descending items :
  forallb notnan items = true ->
  take items (nargsort_descending np_argsort items)
  = rev (take (rev items) (np_argsort (rev items))).
Proof.
  intros Hnn. rewrite nargsort_descending_notnan by exact Hnn.
  rewrite take_rev, take_take by apply rev_seq_in_range.
  now rewrite take_rev, take_seq.
Qed.

Lemma nargsort_descending_permutation items :
  forallb notnan items = true ->
  Permutation (nargsort_descending np_argsort items)
    (seq 0 (List.length items)).
Proof.
  intros Hnn. rewrite nargsort_descending_notnan by exact Hnn.
  destruct (np_argsort_ok (rev items) (forallb_rev _ _ Hnn)) as [Hperm _].
  rewrite <- Permutation_rev.
  rewrite (Permutation_take _ _ _ Hperm).
  rewrite length_rev.
  replace (List.length items)
    with (List.length (rev (seq 0 (List.length items)))) at 2
    by now rewrite length_rev, length_seq.
  rewrite take_seq. symmetry. apply Permutation_rev.
Qed.

(** Sorting rows whose scores are not NaN: the result holds the same
    rows, in descending order of score. *)
Lemma sort_values_descending rows :
  forallb notnan (map score rows) = true ->
  Permutation (sort_values_by_score_descending np_argsort rows) rows
  /\ descending_by_score (sort_values_by_score_descending np_argsort rows).
Proof.
  intros Hnn. unfold sort_values_by_score_descending. split.
  - rewrite (Permutation_take _ _ _
               (nargsort_descending_permutation _ Hnn)).
    rewrite length_map, take_seq. reflexivity.
  - intros i j ri rj Hij Hi Hj.
    apply (map_nth_error score) in Hi, Hj.
    rewrite <- take_map, take_nargsort_descending in Hi, Hj by exact Hnn.
    destruct (np_argsort_ok (rev (map score rows)) (forallb_rev _ _ Hnn))
      as [_ Hsorted].
    apply Sorted_StronglySorted in Hsorted;
      [| intros x y z; apply leb_trans].
    exact (StronglySorted_rev_nth _ _ Hsorted i j _ _ Hij Hi Hj).
Qed.
End Nargsort.

(** ** Insertion sorts as argsort kinds *)

Lemma In_tagged (v : list float) i x :
  In (i, x) (combine (seq 0 (List.length v)) v) -> nth_error v i = Some x.
Proof.
  intros Hin. apply In_nth_error in Hin as [k Hk].
  apply nth_error_combine_inv in Hk as [Hi Hx].
  rewrite nth_error_seq in Hi.
  destruct (k <? List.length v)%nat; [| discriminate].
  injection Hi as <-. exact Hx.
Qed.

Lemma take_map_fst (v : list float) (l : list (nat * float)) :
  Forall (fun p => nth_error v (fst p) = Some (snd p)) l ->
  take v (map fst l) = map snd l.
Proof.
  induction 1 as [| p l Hp _ IH]; [reflexivity |].
  unfold take in *. cbn. now rewrite Hp, IH.
Qed.

Section InsertionSort.
Variable before : float -> float -> bool.
Hypothesis before_leb : forall x y, before x y = true -> leb x y = true.
Hypothesis not_before_leb : forall x y,
  isnan x = false -> isnan y = false -> before x y = false -> leb y x = true.

Lemma insert_by_permutation p l :
  Permutation (insert_by before p l) (p :: l).
Proof.
  induction l as [| q l IH]; cbn; [reflexivity |].
  destruct (before (snd q) (snd p)); [| reflexivity].
  rewrite IH. apply perm_swap.
Qed.

Lemma insertion_sort_permutation l :
  Permutation (fold_right (insert_by before) [] l) l.
Proof.
  induction l as [| p l IH]; cbn; [reflexivity |].
  rewrite insert_by_permutation. now constructor.
Qed.

Lemma insert_by_sorted p l :
  isnan (snd p) = false ->
  Forall (fun q => isnan (snd q) = false) l ->
  Sorted (fun a b => leb (snd a) (snd b) = true) l ->
  Sorted (fun a b => leb (snd a) (snd b) = true) (insert_by before p l).
Proof.
  intros Hp Hall Hs. induction Hs as [| q l Hs IH Hhd]; cbn.
  - repeat constructor.
  - inversion Hall as [| ? ? Hq Hall']; subst.
    destruct (before (snd q) (snd p)) eqn:E.
    + constructor; [now apply IH |].
      destruct l as [| q' l']; cbn.
      * constructor. now apply before_leb.
      * destruct (before (snd q') (snd p)).
        -- constructor. now inversion Hhd.
        -- constructor. now apply before_leb.
    + constructor; [now constructor |].
      constructor. now apply not_before_leb.
Qed.

Lemma insertion_sort_sorted l :
  Forall (fun q => isnan (snd q) = false) l ->
  Sorted (fun a b => leb (snd a) (snd b) = true)
    (fold_right (insert_by before) [] l).
Proof.
  induction 1 as [| p l Hp Hall IH]; cbn; [constructor |].
  apply insert_by_sorted; auto.
  eapply Permutation_Forall; [| exact Hall].
  symmetry. apply insertion_sort_permutation.
Qed.

Lemma Sorted_map_snd (l : list (nat * float)) :
  Sorted (fun a b => leb (snd a) (snd b) = true) l ->
  Sorted (fun x y => leb x y = true) (map snd l).
Proof.
  induction 1 as [| q l Hs IH Hhd]; cbn; constructor; auto.
  destruct Hhd; cbn; constructor; auto.
Qed.

(** Every such insertion sort keeps what numpy promises of argsort. *)
Lemma insertion_argsort_spec : argsort_spec (insertion_argsort before).
Proof.
  intros v Hnn. unfold insertion_argsort.
  set (tagged := combine (seq 0 (List.length v)) v).
  pose proof (insertion_sort_permutation tagged) as Hperm.
  split.
  - rewrite Hperm. subst tagged.
    rewrite map_fst_combine_eq by now rewrite length_seq. reflexivity.
  - rewrite take_map_fst.
    + apply Sorted_map_snd, insertion_sort_sorted.
      apply Forall_forall. intros [i x] Hin. cbn.
      apply in_combine_r in Hin. rewrite forallb_forall in Hnn.
      apply Hnn in Hin. now apply negb_true_iff in Hin.
    + eapply Permutation_Forall; [symmetry; exact Hperm |].
      apply Forall_forall. intros [i x] Hin. now apply In_tagged.
Qed.
End InsertionSort.

Lemma stable_argsort_spec : argsort_spec stable_argsort.
Proof.
  apply insertion_argsort_spec; [apply ltb_leb | apply ltb_false_leb].
Qed.

(** ** Stability *)

Lemma ltb_not_eqb x y : ltb x y = true -> eqb x y = true -> False.
Proof.
  unfold ltb, eqb, SFltb, SFeqb.
  destruct (SFcompare x y) as [[] |]; congruence.
Qed.

Lemma tagged_increasing (v : list float) : forall s n,
  StronglySorted (fun p q : nat * float => (fst p < fst q)%nat)
    (combine (seq s n) v).
Proof.
  induction v as [| x v IH]; intros s [| n]; cbn; try constructor.
  - apply IH.
  - apply Forall_forall. intros [i y] Hin. cbn.
    apply in_combine_l, in_seq in Hin. lia.
Qed.

Lemma insert_by_ltb_stable p l :
  isnan (snd p) = false ->
  Forall (fun q => isnan (snd q) = false) l ->
  Forall (fun q => (fst p < fst q)%nat) l ->
  StronglySorted (fun a b => leb (snd a) (snd b) = true /\
                   (eqb (snd a) (snd b) = true -> (fst a < fst b)%nat)) l ->
  StronglySorted (fun a b => leb (snd a) (snd b) = true /\
                   (eqb (snd a) (snd b) = true -> (fst a < fst b)%nat))
    (insert_by ltb p l).
Proof.
  intros Hp Hnan Hidx Hs.
  induction Hs as [| q l Hs IH Hq]; cbn.
  - repeat constructor.
  - inversion Hnan as [| ? ? Hqn Hnan']; subst.
    inversion Hidx as [| ? ? Hqi Hidx']; subst.
    destruct (ltb (snd q) (snd p)) eqn:E.
    + constructor; [now apply IH |].
      eapply Permutation_Forall;
        [symmetry; apply (insert_by_permutation ltb) |].
      constructor; [| exact Hq].
      split; [now apply ltb_leb |].
      intros Heq. destruct (ltb_not_eqb _ _ E Heq).
    + assert (Hpq : leb (snd p) (snd q) = true)
        by now apply ltb_false_leb.
      constructor; [now constructor |].
      constructor; [split; auto |].
      rewrite Forall_forall in Hq, Hidx' |- *.
      intros r Hr. split; [| intros _; now apply Hidx'].
      eapply leb_trans; [exact Hpq | now apply Hq].
Qed.

Lemma insertion_sort_ltb_stable l :
  Forall (fun q => isnan (snd q) = false) l ->
  StronglySorted (fun p q : nat * float => (fst p < fst q)%nat) l ->
  StronglySorted (fun a b => leb (snd a) (snd b) = true /\
                   (eqb (snd a) (snd b) = true -> (fst a < fst b)%nat))
    (fold_right (insert_by ltb) [] l).
Proof.
  intros Hnan Hinc. induction Hinc as [| p l Hinc IH Hp]; cbn.
  - constructor.
  - inversion Hnan as [| ? ? Hpn Hnan']; subst.
    apply insert_by_ltb_stable; auto;
      (eapply Permutation_Forall;
       [symmetry; apply insertion_sort_permutation | assumption]).
Qed.

(** The insertion sort that passes strictly smaller items only is a
    stable kind. *)
Lemma stable_argsort_stable : argsort_stable stable_argsort.
Proof.
  intros v i j a b x y Hnn Hij Ha Hb Hx Hy Heq.
  unfold stable_argsort, insertion_argsort in Ha, Hb.
  set (tagged := combine (seq 0 (List.length v)) v) in *.
  set (S := fold_right (insert_by ltb) [] tagged) in *.
  assert (Hnan : Forall (fun q : nat * float => isnan (snd q) = false) tagged).
  { apply Forall_forall. intros [k z] Hin. cbn.
    apply in_combine_r in Hin. rewrite forallb_forall in Hnn.
    apply Hnn in Hin. now apply negb_true_iff in Hin. }
  pose proof (insertion_sort_ltb_stable tagged Hnan
                (tagged_increasing v 0 (List.length v))) as Hsorted.
  fold S in Hsorted.
  rewrite nth_error_map in Ha, Hb.
  destruct (nth_error S i) as [[a' x'] |] eqn:Hi; [| discriminate].
  destruct (nth_error S j) as [[b' y'] |] eqn:Hj; [| discriminate].
  cbn in Ha, Hb. injection Ha as ->. injection Hb as ->.
  assert (Hin : forall k z, In (k, z) S -> nth_error v k = Some z).
  { intros k z Hk. apply In_tagged.
    eapply Permutation_in; [apply insertion_sort_permutation | exact Hk]. }
  pose proof (Hin _ _ (nth_error_In _ _ Hi)) as Hx'.
  pose proof (Hin _ _ (nth_error_In _ _ Hj)) as Hy'.
  rewrite Hx in Hx'. rewrite Hy in Hy'.
  injection Hx' as <-. injection Hy' as <-.
  destruct (StronglySorted_nth _ _ Hsorted i j _ _ Hij Hi Hj) as [_ Hlt].
  now apply Hlt.
Qed.

Section NargsortStable.
Variable np_argsort : list float -> list nat.
Hypothesis np_argsort_ok : argsort_spec np_argsort.
Hypothesis np_argsort_stable : argsort_stable np_argsort.

(** With a stable kind, the descending indexer lists equal items in
    input order. *)
Lemma nargsort_descending_stable items p q a b x y :
  forallb notnan items = true ->
  (p < q)%nat ->
  nth_error (nargsort_descending np_argsort items) p = Some a ->
  nth_error (nargsort_descending np_argsort items) q = Some b ->
  nth_error items a = Some x -> nth_error items b = Some y ->
  eqb x y = true -> (a < b)%nat.
Proof.
  intros Hnn Hpq Ha Hb Hx Hy Heq.
  rewrite nargsort_descending_notnan in Ha, Hb by exact Hnn.
  set (n := List.length items) in *.
  set (order := np_argsort (rev items)) in *.
  set (idxs := rev (seq 0 n)) in *.
  assert (Hnnv : forallb notnan (rev items) = true)
    by now apply forallb_rev.
  destruct (np_argsort_ok (rev items) Hnnv) as [Hperm _].
  fold order in Hperm. rewrite length_rev in Hperm. fold n in Hperm.
  assert (Hidxs : List.length idxs = n)
    by (subst idxs; now rewrite length_rev, length_seq).
  assert (Hrange : Forall (fun i => (i < List.length idxs)%nat) order).
  { rewrite Hidxs. eapply Permutation_Forall; [symmetry; exact Hperm |].
    apply Forall_forall. intros i Hi. apply in_seq in Hi. lia. }
  assert (Hat : forall k c, nth_error (rev (take idxs order)) k = Some c ->
            exists k' j, (k < List.length (take idxs order))%nat /\
              k' = (List.length (take idxs order) - S k)%nat /\
              nth_error order k' = Some j /\ (j < n)%nat /\
              c = (n - S j)%nat).
  { intros k c Hk. rewrite nth_error_rev in Hk.
    destruct (Nat.ltb_spec k (List.length (take idxs order)));
      [| discriminate].
    rewrite (nth_error_take idxs order Hrange) in Hk.
    destruct (nth_error order _) as [j |] eqn:Hj; [| discriminate].
    subst idxs. rewrite nth_error_rev, length_seq in Hk.
    destruct (Nat.ltb_spec j n); [| discriminate].
    rewrite nth_error_seq in Hk.
    destruct (Nat.ltb_spec (n - S j) n); [| discriminate].
    injection Hk as <-. eauto 10. }
  destruct (Hat _ _ Ha) as (p' & ja & Hp & -> & Hja & Hjan & ->).
  destruct (Hat _ _ Hb) as (q' & jb & Hq & -> & Hjb & Hjbn & ->).
  assert (Hvx : nth_error (rev items) ja = Some x).
  { rewrite nth_error_rev. fold n.
    destruct (Nat.ltb_spec ja n); [exact Hx | lia]. }
  assert (Hvy : nth_error (rev items) jb = Some y).
  { rewrite nth_error_rev. fold n.
    destruct (Nat.ltb_spec jb n); [exact Hy | lia]. }
  assert (Hlt : (jb < ja)%nat).
  { apply (np_argsort_stable (rev items)
             (List.length (take idxs order) - S q)%nat
             (List.length (take idxs order) - S p)%nat jb ja y x).
    - exact Hnnv.
    - lia.
    - exact Hjb.
    - exact Hja.
    - exact Hvy.
    - exact Hvx.
    - now apply eqb_sym. }
  lia.
Qed.
End NargsortStable.

(** ** The order of the ranking table *)

Section RankingOrder.
Variable np_log : float -> float.
Variable np_polyfit_slope : list float -> list float -> option float.
Variable np_argsort : list float -> list nat.
Variables engine_col life_frac_col : string.
Variables early_frac late_frac : float.
Variable min_points_for_slope : Z.

(** C1, as the code has it: with a sort kind that keeps numpy's argsort
    contract, a returned table is ordered descending by score and holds
    one row for each sensor asked for; rows of equal score stand in the
    order of their sensors when the sort kind is stable, which the default
    kind the code uses need not be. *)
Theorem rank_sorted_descending sensors df table df' :
  argsort_spec np_argsort ->
  rank_sensors_by_degradation np_log np_polyfit_slope np_argsort engine_col
    life_frac_col early_frac late_frac min_points_for_slope sensors df
  = (Ok table, df') ->
  descending_by_score table
  /\ Permutation (map (fun r => sensor (indicators r)) table)
       (match sensors with
        | Some l => l
        | None => filter (String.prefix "sensor_") (columns df)
        end)
  /\ (argsort_stable np_argsort ->
      ties_in_input_order
        (match sensors with
         | Some l => l
         | None => filter (String.prefix "sensor_") (columns df)
         end) table).
Proof.
  intros Hspec Hrun.
  apply rank_sensors_ok in Hrun as (rows & Hrows & -> & _).
  set (chosen := match sensors with
                 | Some l => l
                 | None => filter (String.prefix "sensor_") (columns df)
                 end) in *.
  apply collect_rows_ok in Hrows as (new & Hnew & Hnames & Hmag).
  cbn [app] in Hnew. subst new.
  assert (Hnn : forallb notnan (map score (map scored rows)) = true).
  { apply forallb_forall. intros x Hx.
    apply in_map_iff in Hx as (r & <- & Hr).
    apply in_map_iff in Hr as (ind & <- & Hind).
    rewrite Forall_forall in Hmag. destruct (Hmag ind Hind) as [Ha Hb].
    now apply sign_positive_notnan, sign_positive_score. }
  destruct (sort_values_descending np_argsort Hspec (map scored rows) Hnn)
    as [Hperm Hdesc].
  split; [exact Hdesc |]. split.
  - rewrite Hperm, map_map, <- Hnames. reflexivity.
  - intros Hstable i j ri rj Hij Hi Hj Heq.
    unfold sort_values_by_score_descending in Hi, Hj.
    set (indexer := nargsort_descending np_argsort
                      (map score (map scored rows))) in *.
    assert (Hrange : Forall (fun k => (k < List.length (map scored rows))%nat)
                       indexer).
    { eapply Permutation_Forall;
        [symmetry; apply (nargsort_descending_permutation _ Hspec _ Hnn) |].
      rewrite !length_map. apply Forall_forall. intros k Hk.
      apply in_seq in Hk. lia. }
    rewrite (nth_error_take _ _ Hrange) in Hi, Hj.
    destruct (nth_error indexer i) as [a |] eqn:Ha; [| discriminate].
    destruct (nth_error indexer j) as [b |] eqn:Hb; [| discriminate].
    exists a, b. split.
    + apply (nargsort_descending_stable np_argsort Hspec Hstable
               (map score (map scored rows)) i j a b (score ri) (score rj));
        auto using map_nth_error.
    + subst chosen. rewrite <- Hnames.
      rewrite nth_error_map in Hi, Hj.
      destruct (nth_error rows a) as [ia |] eqn:Hia; [| discriminate].
      destruct (nth_error rows b) as [ib |] eqn:Hib; [| discriminate].
      cbn in Hi, Hj. injection Hi as <-. injection Hj as <-.
      rewrite !nth_error_map, Hia, Hib. split; reflexivity.
Qed.
End RankingOrder.

(** ** Engines and windows, against the specification's words *)

Section GroupbyOrder.
Context {A : Type}.

Lemma cells_of_key_cons k (r : option key * A) rows :
  cells_of_key k (r :: rows) =
    (if match fst r with Some k' => key_eqb k k' | None => false end
     then [snd r] else []) ++ cells_of_key k rows.
Proof.
  unfold cells_of_key. cbn [filter].
  destruct (match fst r with Some k' => key_eqb k k' | None => false end);
    reflexivity.
Qed.

Lemma key_eqb_false_sym a b : key_eqb a b = false -> key_eqb b a = false.
Proof.
  intros H. destruct (key_eqb b a) eqn:E; [| reflexivity].
  apply key_eqb_sym in E. congruence.
Qed.

Lemma existsb_key_false k seen :
  existsb (key_eqb k) seen = false ->
  Forall (fun s => key_eqb s k = false) seen.
Proof.
  induction seen as [| s rest IH]; cbn [existsb]; [constructor |].
  intros H. apply orb_false_iff in H as [Hs Hrest].
  constructor; [now apply key_eqb_false_sym | auto].
Qed.

Lemma existsb_key_app k seen s :
  existsb (key_eqb k) (seen ++ [s]) = false ->
  existsb (key_eqb k) seen = false /\ key_eqb k s = false.
Proof.
  rewrite existsb_app. cbn [existsb]. rewrite orb_false_r.
  intros H. now apply orb_false_iff in H.
Qed.

(** A key listed as new is none of those seen before. *)
Lemma distinct_keys_fresh ks : forall seen k,
  In k (distinct_keys seen ks) -> existsb (key_eqb k) seen = false.
Proof.
  induction ks as [| [k0 |] rest IH]; intros seen k; cbn [distinct_keys].
  - intros [].
  - destruct (existsb (key_eqb k0) seen) eqn:E; [apply IH |].
    intros [<- | Hin]; [exact E |].
    apply IH in Hin. now apply existsb_key_app in Hin.
  - apply IH.
Qed.

Lemma ForallOrdPairs_snoc (R : key -> key -> Prop) l k :
  ForallOrdPairs R l -> Forall (fun s => R s k) l ->
  ForallOrdPairs R (l ++ [k]).
Proof.
  induction 1 as [| a l Ha Hl IH]; intros Hk; cbn [app].
  - constructor; constructor.
  - inversion Hk as [| ? ? Hak Hlk]; subst.
    constructor; [| auto].
    apply Forall_app. split; [exact Ha | constructor; [exact Hak | constructor]].
Qed.

Lemma group_add_new (k : key) (a : A) gs :
  existsb (key_eqb k) (map fst gs) = false ->
  group_add k a gs = gs ++ [(k, [a])].
Proof.
  induction gs as [| [k' l] rest IH]; cbn [map fst existsb group_add app];
    [reflexivity |].
  intros H. apply orb_false_iff in H as [Hk Hrest].
  rewrite Hk. now rewrite IH.
Qed.

Lemma group_add_seen (k : key) (a : A) gs :
  existsb (key_eqb k) (map fst gs) = true ->
  ForallOrdPairs (fun k1 k2 => key_eqb k1 k2 = false) (map fst gs) ->
  group_add k a gs =
    map (fun g => (fst g, snd g ++ if key_eqb (fst g) k then [a] else [])) gs.
Proof.
  induction gs as [| [k' l] rest IH]; cbn [map fst snd existsb group_add];
    [discriminate |].
  intros Hex Hdist. inversion Hdist as [| ? ? Hk' Hrest]; subst.
  destruct (key_eqb k k') eqn:E.
  - rewrite (key_eqb_sym _ _ E). f_equal.
    rewrite <- (map_id rest) at 1. apply map_ext_in.
    intros [k2 l2] Hin. cbn [fst snd].
    destruct (key_eqb k2 k) eqn:E2; [| now rewrite app_nil_r].
    rewrite Forall_forall in Hk'.
    assert (Hneq : key_eqb k' k2 = false)
      by (apply Hk'; apply in_map_iff; now exists (k2, l2)).
    apply key_eqb_sym in E2.
    rewrite (key_eqb_trans _ _ _ (key_eqb_sym _ _ E) E2) in Hneq.
    discriminate.
  - rewrite (key_eqb_false_sym _ _ E), app_nil_r.
    cbn [orb] in Hex. now rewrite IH.
Qed.

(** The groups of [groupby], told from the rows: the groups that exist grow
    by the rows of their key, and every new key opens a group, in order of
    first appearance. *)
Lemma groupby_fold (rows : list (option key * A)) : forall gs,
  Forall (fun r => match fst r with
                   | Some k => key_eqb k k = true
                   | None => True
                   end) rows ->
  ForallOrdPairs (fun k1 k2 => key_eqb k1 k2 = false) (map fst gs) ->
  fold_left (fun gs r => match fst r with
                         | Some k => group_add k (snd r) gs
                         | None => gs
                         end) rows gs
  = map (fun g => (fst g, snd g ++ cells_of_key (fst g) rows)) gs
    ++ map (fun k => (k, cells_of_key k rows))
         (distinct_keys (map fst gs) (map fst rows)).
Proof.
  induction rows as [| [ok a] rows IH]; intros gs Hrefl Hdist.
  - cbn [fold_left map distinct_keys]. rewrite app_nil_r.
    rewrite <- (map_id gs) at 1. apply map_ext.
    intros [k l]. cbn [fst snd]. unfold cells_of_key. cbn.
    now rewrite app_nil_r.
  - inversion Hrefl as [| ? ? Hk Hrows]; subst. cbn [fst] in Hk.
    cbn [fold_left fst snd map].
    destruct ok as [k |].
    + cbn [distinct_keys].
      destruct (existsb (key_eqb k) (map fst gs)) eqn:E.
      * rewrite (group_add_seen k a gs E Hdist).
        assert (Hfst : map fst
                  (map (fun g : key * list A =>
                          (fst g, snd g ++ if key_eqb (fst g) k then [a] else []))
                     gs) = map fst gs).
        { rewrite map_map. now apply map_ext. }
        rewrite IH; [| exact Hrows | now rewrite Hfst].
        rewrite Hfst, map_map. f_equal.
        -- apply map_ext. intros [k2 l2]. cbn [fst snd].
           rewrite cells_of_key_cons. cbn [fst snd].
           now rewrite app_assoc.
        -- apply map_ext_in. intros k0 Hin.
           rewrite cells_of_key_cons. cbn [fst snd].
           destruct (key_eqb k0 k) eqn:E0; [| reflexivity].
           apply distinct_keys_fresh in Hin.
           apply existsb_exists in E as (s & Hs & Hks).
           assert (Hk0s : existsb (key_eqb k0) (map fst gs) = true).
           { apply existsb_exists. exists s. split; [exact Hs |].
             now apply key_eqb_trans with k. }
           congruence.
      * rewrite (group_add_new k a gs E).
        assert (Hfst : map fst (gs ++ [(k, [a])]) = map fst gs ++ [k])
          by now rewrite map_app.
        rewrite IH; [| exact Hrows |].
        2: { rewrite Hfst. apply ForallOrdPairs_snoc; [exact Hdist |].
             now apply existsb_key_false. }
        rewrite Hfst, map_app, <- app_assoc. cbn [map app fst snd].
        f_equal; [| f_equal].
        -- apply map_ext_in. intros [k2 l2] Hin. cbn [fst snd].
           rewrite cells_of_key_cons. cbn [fst snd].
           pose proof (existsb_key_false _ _ E) as Hall.
           rewrite Forall_forall in Hall.
           rewrite (Hall k2); [reflexivity |].
           apply in_map_iff. now exists (k2, l2).
        -- rewrite cells_of_key_cons. cbn [fst snd]. now rewrite Hk.
        -- apply map_ext_in. intros k0 Hin.
           rewrite cells_of_key_cons. cbn [fst snd].
           apply distinct_keys_fresh in Hin.
           apply existsb_key_app in Hin as [_ Hk0].
           now rewrite Hk0.
    + cbn [distinct_keys]. rewrite IH by assumption. f_equal.
Qed.

Lemma groupby_cells (rows : list (option key * A)) :
  Forall (fun r => match fst r with
                   | Some k => key_eqb k k = true
                   | None => True
                   end) rows ->
  groupby rows =
    map (fun k => (k, cells_of_key k rows)) (distinct_keys [] (map fst rows)).
Proof.
  intros Hrefl. unfold groupby.
  rewrite groupby_fold; [reflexivity | exact Hrefl | constructor].
Qed.
End GroupbyOrder.

Lemma table_rows_keys engines life vals :
  Forall (fun r : option key * (float * float) =>
            match fst r with
            | Some k => key_eqb k k = true
            | None => True
            end) (table_rows engines life vals).
Proof.
  apply Forall_forall. intros [ok c] Hin. cbn [fst].
  destruct ok as [k |]; [| exact I].
  apply in_combine_l in Hin. apply In_nth_error in Hin as [i Hi].
  now apply keys_of_refl in Hi.
Qed.

(** The groups the loop runs over are the engines' rows. *)
Lemma engine_rows_per_engine engines life vals :
  engine_rows engines life vals = per_engine engines life vals.
Proof.
  unfold engine_rows, per_engine. fold (table_rows engines life vals).
  rewrite (groupby_cells _ (table_rows_keys engines life vals)).
  rewrite map_map. reflexivity.
Qed.

(** The windows the code cuts are the windows of the specification. *)
Lemma window_values_filter (inside : float -> bool) rows :
  map snd (filter (fun r => inside (fst r)) (dropna rows))
  = window_values inside rows.
Proof.
  unfold dropna.
  induction rows as [| [life value] rest IH]; [reflexivity |].
  cbn [window_values]. rewrite <- IH. simpl. unfold notnan.
  destruct (isnan life); [reflexivity |].
  destruct (isnan value); [reflexivity |].
  simpl. destruct (inside life); reflexivity.
Qed.

Lemma early_window_values early_frac rows :
  early_window early_frac (dropna rows) = early_values early_frac rows.
Proof.
  exact (window_values_filter (fun life => leb life early_frac) rows).
Qed.

Lemma late_window_values late_frac rows :
  late_window late_frac (dropna rows) = late_values late_frac rows.
Proof.
  exact (window_values_filter (fun life => leb late_frac life) rows).
Qed.

Lemma shift_contribution_gated early_frac late_frac rows :
  shift_contribution early_frac late_frac rows
  = engine_mean_shift early_frac late_frac rows.
Proof.
  unfold shift_contribution, engine_mean_shift, gate_open.
  rewrite early_window_values, late_window_values.
  rewrite !Nat.ltb_antisym, <- negb_andb.
  now destruct ((5 <=? _)%nat && (5 <=? _)%nat).
Qed.

Lemma ratio_contribution_gated early_frac late_frac rows :
  ratio_contribution early_frac late_frac rows
  = engine_variance_ratio early_frac late_frac rows.
Proof.
  unfold ratio_contribution, engine_variance_ratio, gate_open.
  rewrite early_window_values, late_window_values.
  rewrite !Nat.ltb_antisym, <- negb_andb.
  now destruct ((5 <=? _)%nat && (5 <=? _)%nat).
Qed.

Lemma both_windows_full_gate early_frac late_frac rows :
  both_windows_full early_frac late_frac rows
  = gate_open early_frac late_frac rows.
Proof.
  unfold both_windows_full, gate_open.
  now rewrite early_window_values, late_window_values.
Qed.

Section SampleGating.
Variable np_log : float -> float.
Variable np_polyfit_slope : list float -> list float -> option float.
Variables sensor_name engine_col life_frac_col : string.
Variables early_frac late_frac : float.
Variable min_points_for_slope : Z.

(** C5: take, for one engine, the rows in which neither the life fraction
    nor the sensor value is missing; its early window holds the sensor
    values of the rows with life fraction <= early_frac, its late window
    those with life fraction >= late_frac.  A turn of the loop over the
    engines appends nothing to the mean shifts and to the variance ratios
    when either window has fewer than 5 points, and appends
    mean(late window) - mean(early window) to the mean shifts when both
    have at least 5.  The returned mean shift and variance ratio are the
    fleet means of the entries so gathered over the engines, and
    [n_engines_used_shift] counts the finite mean-shift entries: an engine
    short of points is not counted. *)
Theorem sample_gating df ind df' engines life vals :
  degradation_indicators np_log np_polyfit_slope sensor_name engine_col
    life_frac_col early_frac late_frac min_points_for_slope df
  = (Ok ind, df') ->
  lookup engine_col df = Some engines ->
  lookup life_frac_col df = Some life ->
  lookup sensor_name df = Some vals ->
  (forall rows a a' t t',
     engine_step np_polyfit_slope sensor_name life_frac_col early_frac
       late_frac min_points_for_slope rows a t = (Ok a', t') ->
     ((List.length (early_values early_frac rows) < 5
       \/ List.length (late_values late_frac rows) < 5)%nat ->
      mean_shifts a' = mean_shifts a /\ var_ratios a' = var_ratios a)
     /\ ((5 <= List.length (early_values early_frac rows))%nat ->
         (5 <= List.length (late_values late_frac rows))%nat ->
         mean_shifts a' =
           mean_shifts a
           ++ [sub (mean (late_values late_frac rows))
                   (mean (early_values early_frac rows))]))
  /\ mean_shift ind =
       fleet_mean (flat_map (engine_mean_shift early_frac late_frac)
                     (per_engine engines life vals))
  /\ variance_ratio ind =
       fleet_mean (flat_map (engine_variance_ratio early_frac late_frac)
                     (per_engine engines life vals))
  /\ n_engines_used_shift ind =
       count_finite (flat_map (engine_mean_shift early_frac late_frac)
                       (per_engine engines life vals))
  /\ (n_engines_used_shift ind
      <= List.length (filter (gate_open early_frac late_frac)
                        (per_engine engines life vals)))%nat.
Proof.
  intros Hrun He Hl Hv.
  apply degradation_indicators_ok in Hrun
    as (engines0 & life0 & vals0 & a & He0 & Hl0 & Hv0 & Hloop & _ & Hind).
  rewrite He in He0. rewrite Hl in Hl0. rewrite Hv in Hv0.
  injection He0 as <-. injection Hl0 as <-. injection Hv0 as <-.
  apply engine_loop_lists in Hloop as [Hshifts Hratios].
  cbn [mean_shifts var_ratios no_accum app] in Hshifts, Hratios.
  fold (engine_rows engines life vals) in Hshifts, Hratios.
  rewrite engine_rows_per_engine in Hshifts, Hratios.
  rewrite (flat_map_ext _ _ (shift_contribution_gated early_frac late_frac))
    in Hshifts.
  rewrite (flat_map_ext _ _ (ratio_contribution_gated early_frac late_frac))
    in Hratios.
  cbv zeta in Hind. subst ind.
  cbn [mean_shift variance_ratio n_engines_used_shift].
  rewrite Hshifts, Hratios, count_finite_or_zero.
  split; [| repeat split].
  - intros rows a0 a1 t t' Hstep.
    apply engine_step_lists in Hstep as [Hs Hr].
    rewrite shift_contribution_gated in Hs.
    rewrite ratio_contribution_gated in Hr.
    unfold engine_mean_shift in Hs. unfold engine_variance_ratio in Hr.
    unfold gate_open in Hs, Hr. split.
    + intros Hshort.
      assert (Hgate : ((5 <=? List.length (early_values early_frac rows))
                       && (5 <=? List.length (late_values late_frac rows)))%nat
                      = false).
      { apply andb_false_iff. rewrite !Nat.leb_gt. exact Hshort. }
      rewrite Hgate in Hs, Hr. rewrite app_nil_r in Hs, Hr. auto.
    + intros Hearly Hlate.
      assert (Hgate : ((5 <=? List.length (early_values early_frac rows))
                       && (5 <=? List.length (late_values late_frac rows)))%nat
                      = true).
      { apply andb_true_iff. rewrite !Nat.leb_le. auto. }
      now rewrite Hgate in Hs.
  - pose proof (count_finite_shift_contributions early_frac late_frac
                  (per_engine engines life vals)) as Hle.
    rewrite (flat_map_ext _ _ (shift_contribution_gated early_frac late_frac))
      in Hle.
    rewrite (filter_ext _ _ (both_windows_full_gate early_frac late_frac))
      in Hle.
    exact Hle.
Qed.
End SampleGating.

(** ** Examples on the fleet table *)

Lemma degradation_indicators_missing_column_witness :
  fst (degradation_indicators example_log example_polyfit_slope "sensor_z"
         "engine_id" "life_frac" default_early_frac default_late_frac 20
         raw_fleet)
  = Raise (KeyError "Missing sensor column: sensor_z")
  /\ fst (degradation_indicators example_log example_polyfit_slope "sensor_a"
            "engine_id" "life_frac" default_early_frac default_late_frac 20
            raw_fleet)
     = Raise (KeyError
         "Missing 'life_frac'. Call ensure_life_frac(df) before computing indicators.").
Proof.
  split.
  - apply (proj1 (degradation_indicators_missing_column example_log
             example_polyfit_slope "sensor_z" "engine_id" "life_frac"
             default_early_frac default_late_frac 20 raw_fleet)).
    reflexivity.
  - apply (proj2 (proj2 (degradation_indicators_missing_column example_log
             example_polyfit_slope "sensor_a" "engine_id" "life_frac"
             default_early_frac default_late_frac 20 raw_fleet)));
      reflexivity.
Defined.

Lemma ensure_life_frac_idempotent_witness :
  In "life_frac"%string (columns fleet)
  /\ ensure_life_frac "engine_id" "cycle" "life_frac" fleet = (Ok fleet, fleet).
Proof.
  assert (H : In "life_frac"%string (columns fleet))
    by (simpl; auto).
  split; [exact H |].
  exact (proj2 (ensure_life_frac_idempotent "engine_id" "cycle" "life_frac"
                  fleet) H).
Defined.

Lemma baseline_safety_witness :
  exists ind,
    degradation_indicators example_log example_polyfit_slope "sensor_a"
      "engine_id" "life_frac" default_early_frac default_late_frac 20 fleet
    = (Ok ind, fleet)
    /\ (baseline_std_early ind = nan /\
        mean_shift_std ind = nan /\ abs_mean_shift_std ind = nan /\
        slope_std ind = nan /\ abs_slope_std ind = nan)
    /\ (isinf (mean_shift_std ind) = false /\
        isinf (abs_mean_shift_std ind) = false /\
        isinf (slope_std ind) = false /\
        isinf (abs_slope_std ind) = false).
Proof.
  eexists. split; [vm_compute; reflexivity |].
  eapply (baseline_safety example_log example_polyfit_slope "sensor_a"
            "engine_id" "life_frac" default_early_frac default_late_frac 20
            fleet _ fleet).
  - vm_compute; reflexivity.
  - reflexivity.
  - reflexivity.
  - left. vm_compute. reflexivity.
Defined.

Lemma fleet_aggregates_skip_nan_only_witness :
  exists ind a,
    degradation_indicators example_log example_polyfit_slope "sensor_c"
      "engine_id" "life_frac" default_early_frac default_late_frac 20 fleet
    = (Ok ind, fleet)
    /\ mean_shifts a = [pinf; of_Z 2]
    /\ mean_shift ind = mean_of_not_nan (mean_shifts a)
    /\ mean_shift ind = pinf.
Proof.
  destruct (fleet_aggregates_skip_nan_only example_log example_polyfit_slope
              "sensor_c" "engine_id" "life_frac" default_early_frac
              default_late_frac 20 fleet _ fleet ltac:(vm_compute; reflexivity))
    as (engines & life & vals & a & He & Hl & Hv & Hloop & Hmeans & _).
  eexists. exists a.
  split; [vm_compute; reflexivity |].
  injection He as <-. injection Hl as <-. injection Hv as <-.
  vm_compute in Hloop. injection Hloop as <-.
  repeat split.
Defined.

(** C2, as stated, fails: engine 1 of the fleet table has an infinite
    late-life reading of [sensor_c], so its mean shift is [+inf]; engine 2's
    is 2.  The mean that ignores non-finite entries is 2, and the returned
    [mean_shift] is [+inf]. *)
Lemma fleet_mean_counts_infinite_entries :
  exists engines life vals a ind,
    lookup "engine_id" fleet = Some engines /\
    lookup "life_frac" fleet = Some life /\
    lookup "sensor_c" fleet = Some vals /\
    engine_loop example_polyfit_slope "sensor_c" "life_frac"
      default_early_frac default_late_frac 20
      (groupby (combine (keys_of engines)
                  (combine (as_float life) (as_float vals))))
      no_accum fleet = (Ok a, fleet) /\
    degradation_indicators example_log example_polyfit_slope "sensor_c"
      "engine_id" "life_frac" default_early_frac default_late_frac 20 fleet
    = (Ok ind, fleet) /\
    mean_shifts a = [pinf; of_Z 2] /\
    mean_of_finite (mean_shifts a) = of_Z 2 /\
    mean_shift ind = pinf /\
    mean_shift ind <> mean_of_finite (mean_shifts a).
Proof.
  do 5 eexists.
  split; [reflexivity |]. split; [reflexivity |]. split; [reflexivity |].
  split; [vm_compute; reflexivity |].
  split; [vm_compute; reflexivity |].
  repeat split; try (vm_compute; reflexivity).
  vm_compute. discriminate.
Qed.

Lemma rank_sensors_empty_raises_witness :
  filter (String.prefix "sensor_") (columns bare_table) = []
  /\ fst (rank_sensors_by_degradation example_log example_polyfit_slope
            stable_argsort "engine_id" "life_frac" default_early_frac
            default_late_frac 20 None bare_table)
     = Raise (KeyError "log_variance_ratio").
Proof.
  split; [reflexivity |].
  apply (proj2 (rank_sensors_empty_raises example_log example_polyfit_slope
                  stable_argsort "engine_id" "life_frac" default_early_frac
                  default_late_frac 20 bare_table)).
  reflexivity.
Defined.

Lemma rank_rows_score_formula_witness :
  exists table,
    rank_sensors_by_degradation example_log example_polyfit_slope
      stable_argsort "engine_id" "life_frac" default_early_frac
      default_late_frac 20 None fleet = (Ok table, fleet)
    /\ List.length table = 4%nat
    /\ Forall (fun r =>
         (isnan (log_variance_ratio (indicators r)) = false ->
            instability_signal r = fmax (log_variance_ratio (indicators r)) zero)
         /\ (isnan (log_variance_ratio (indicators r)) = true ->
               instability_signal r = nan)
         /\ score r =
              add (add (or_zero (abs_mean_shift_std (indicators r)))
                       (or_zero (abs_slope_std (indicators r))))
                  (or_zero (instability_signal r))) table.
Proof.
  eexists. split; [vm_compute; reflexivity |].
  split; [reflexivity |].
  eapply (rank_rows_score_formula example_log example_polyfit_slope
            stable_argsort "engine_id" "life_frac" default_early_frac
            default_late_frac 20 None fleet _ fleet).
  vm_compute. reflexivity.
Defined.

Lemma sample_gating_witness :
  exists ind engines life vals,
    degradation_indicators example_log example_polyfit_slope "sensor_d"
      "engine_id" "life_frac" default_early_frac default_late_frac 20 fleet
    = (Ok ind, fleet)
    /\ List.length (per_engine engines life vals) = 2%nat
    /\ mean_shift ind =
         fleet_mean (flat_map
                       (engine_mean_shift default_early_frac default_late_frac)
                       (per_engine engines life vals))
    /\ n_engines_used_shift ind = 2%nat.
Proof.
  eexists. do 3 eexists.
  split; [vm_compute; reflexivity |].
  split; [| split].
  2: { refine (proj1 (proj2
                 (sample_gating example_log example_polyfit_slope "sensor_d"
                    "engine_id" "life_frac" default_early_frac
                    default_late_frac 20 fleet _ fleet _ _ _ _ _ _ _)));
       [vm_compute; reflexivity | reflexivity | reflexivity | reflexivity]. }
  - vm_compute. reflexivity.
  - reflexivity.
Defined.

Lemma life_frac_one_at_max_cycle_witness :
  exists df' life,
    ensure_life_frac "engine_id" "cycle" "life_frac" raw_fleet = (Ok df', df')
    /\ lookup "life_frac" df' = Some (FloatCol life)
    /\ nth_error life 4 = Some one.
Proof.
  assert (Hint : Forall int64 [1; 2; 3; 4; 5; 1; 2; 3]).
  { repeat constructor; unfold int64; lia. }
  destruct (life_frac_one_at_max_cycle "engine_id" "cycle" "life_frac"
              raw_fleet (IntCol [1; 1; 1; 1; 1; 2; 2; 2])
              [1; 2; 3; 4; 5; 1; 2; 3] eq_refl eq_refl eq_refl Hint)
    as (df' & life & Hrun & Hcol & Hone).
  exists df', life. split; [exact Hrun |]. split; [exact Hcol |].
  apply (Hone 4%nat (KInt 1) 5); [reflexivity | reflexivity | | lia].
  intros j k' c Hk Heq Hc.
  do 8 (destruct j as [| j];
        [cbn in Hk, Hc; injection Hk as <-; injection Hc as <-;
         cbn in Heq; try discriminate; lia |]).
  destruct j; discriminate.
Defined.

Lemma rank_sorted_descending_witness :
  exists table,
    rank_sensors_by_degradation example_log example_polyfit_slope
      stable_argsort "engine_id" "life_frac" default_early_frac
      default_late_frac 20 None fleet = (Ok table, fleet)
    /\ map (fun r => sensor (indicators r)) table
       = ["sensor_d"; "sensor_a"; "sensor_b"; "sensor_c"]%string
    /\ descending_by_score table
    /\ ties_in_input_order
         ["sensor_a"; "sensor_b"; "sensor_c"; "sensor_d"]%string table.
Proof.
  eexists. split; [vm_compute; reflexivity |].
  split; [reflexivity |].
  destruct (rank_sorted_descending example_log example_polyfit_slope
              stable_argsort "engine_id" "life_frac" default_early_frac
              default_late_frac 20 None fleet _ fleet stable_argsort_spec
              ltac:(vm_compute; reflexivity))
    as (Hdesc & _ & Hties).
  split; [exact Hdesc | exact (Hties stable_argsort_stable)].
Defined.

Lemma nth_error_position (l : list string) (a : nat) (s : string) :
  nth_error l a = Some s ->
  In a (filter (fun i => match nth_error l i with
                         | Some s' => String.eqb s' s
                         | None => false
                         end) (seq 0 (List.length l))).
Proof.
  intros H. apply filter_In. split.
  - apply in_seq. split; [lia |]. cbn. apply nth_error_Some. congruence.
  - rewrite H. apply String.eqb_refl.
Qed.

(** C1, as stated, fails: the code sorts with the default kind of
    [sort_values], numpy's quicksort, which is not stable.  On the table of
    300 sensors, of which [sensor_1] to [sensor_299] all score 0, numpy's
    quicksort lists [sensor_207] before [sensor_205]: rows of equal score do
    not keep the order in which the sensors were discovered. *)
Lemma quicksort_reorders_tied_sensors :
  exists table,
    rank_sensors_by_degradation example_log example_polyfit_slope
      aquicksort "engine_id" "life_frac" default_early_frac
      default_late_frac 20 None many_sensor_fleet
    = (Ok table, many_sensor_fleet)
    /\ filter (String.prefix "sensor_") (columns many_sensor_fleet)
       = many_sensors
    /\ ~ ties_in_input_order many_sensors table.
Proof.
  eexists. split; [vm_compute; reflexivity |].
  split; [vm_compute; reflexivity |].
  intros Hties.
  destruct (Hties 1%nat 2%nat _ _ ltac:(lia) eq_refl eq_refl eq_refl)
    as (a & b & Hab & Ha & Hb).
  apply nth_error_position in Ha, Hb.
  vm_compute in Ha, Hb.
  destruct Ha as [<- | []]. destruct Hb as [<- | []].
  apply Nat.ltb_lt in Hab. vm_compute in Hab. discriminate.
Qed.

(** C8, as stated, fails: a table that already has the life-fraction column
    is returned as it is, whatever the column holds.  In the table below the
    column holds 0.5 everywhere; row 4 has the largest cycle (5) of engine 1,
    and its life fraction after the call is 0.5, not 1.0. *)
Lemma stale_life_frac_is_kept :
  ensure_life_frac "engine_id" "cycle" "life_frac" stale_fleet
  = (Ok stale_fleet, stale_fleet)
  /\ exists engines cycles life,
       lookup "engine_id" stale_fleet = Some engines
       /\ lookup "cycle" stale_fleet = Some (IntCol cycles)
       /\ lookup "life_frac" stale_fleet = Some (FloatCol life)
       /\ nth_error (keys_of engines) 4 = Some (Some (KInt 1))
       /\ nth_error cycles 4 = Some 5
       /\ (forall j k' c,
             nth_error (keys_of engines) j = Some (Some k') ->
             key_eqb (KInt 1) k' = true ->
             nth_error cycles j = Some c -> c <= 5)
       /\ nth_error life 4 = Some (div (of_Z 1) (of_Z 2))
       /\ nth_error life 4 <> Some one.
Proof.
  split; [reflexivity |].
  do 3 eexists.
  split; [reflexivity |]. split; [reflexivity |]. split; [reflexivity |].
  split; [reflexivity |]. split; [reflexivity |].
  split; [| split; [reflexivity | vm_compute; discriminate]].
  intros j k' c Hk Heq Hc.
  do 8 (destruct j as [| j];
        [cbn in Hk, Hc; injection Hk as <-; injection Hc as <-;
         cbn in Heq; try discriminate; lia |]).
  destruct j; discriminate.
Qed.

(** * Further properties *)

(** ** ensure_life_frac: errors, frame and values *)

Lemma ensure_life_frac_absent engine_col cycle_col out_col df engines cycles :
  has_column out_col df = false ->
  lookup engine_col df = Some engines ->
  lookup cycle_col df = Some cycles ->
  ensure_life_frac engine_col cycle_col out_col df
  = (Ok (df ++ [(out_col,
                 FloatCol (series_div (as_float cycles)
                             (transform_max (keys_of engines) cycles)))]),
     df ++ [(out_col,
             FloatCol (series_div (as_float cycles)
                         (transform_max (keys_of engines) cycles)))]).
Proof.
  intros Habsent Heng Hcyc.
  unfold ensure_life_frac, bind, df_contains, df_getitem, df_setitem, df_self.
  rewrite Habsent, Heng, Hcyc. cbn. rewrite Hcyc. cbn.
  now rewrite assign_absent.
Qed.

(** X1: When the output column has to be computed and the engine column or
    the cycle column is missing, [ensure_life_frac] raises a KeyError and
    the table is left exactly as it was: nothing is written before the
    failure. *)
Theorem ensure_life_frac_missing_column engine_col cycle_col out_col df :
  has_column out_col df = false ->
  (lookup engine_col df = None \/ lookup cycle_col df = None) ->
  exists what,
    ensure_life_frac engine_col cycle_col out_col df
    = (Raise (KeyError what), df).
Proof.
  intros Habsent Hmiss.
  unfold ensure_life_frac, bind, df_contains, df_getitem, df_setitem, df_self.
  rewrite Habsent.
  destruct (lookup engine_col df) as [engines |] eqn:He; [| eauto].
  destruct Hmiss as [Hm | Hm]; [discriminate |].
  rewrite Hm. eauto.
Qed.

Lemma length_transform {A} (agg : list A -> float) ks (cells : list A) :
  List.length (transform agg ks cells)
  = Nat.min (List.length ks) (List.length cells).
Proof. unfold transform. now rewrite length_map, length_combine. Qed.

Lemma length_keys_of c : List.length (keys_of c) = List.length (as_float c).
Proof. destruct c; cbn; now rewrite ?length_map. Qed.

Lemma length_transform_max ks c :
  List.length (transform_max ks c)
  = Nat.min (List.length ks) (List.length (as_float c)).
Proof.
  destruct c; cbn [transform_max as_float]; rewrite length_transform;
    now rewrite ?length_map.
Qed.

(** X2: A computed life-fraction column is appended after the columns of the
    table, which stay as they were and in their order; it is a float column
    with one cell for each row. *)
Theorem ensure_life_frac_appends_column engine_col cycle_col out_col df
    engines cycles :
  has_column out_col df = false ->
  lookup engine_col df = Some engines ->
  lookup cycle_col df = Some cycles ->
  List.length (as_float engines) = List.length (as_float cycles) ->
  exists life,
    ensure_life_frac engine_col cycle_col out_col df
    = (Ok (df ++ [(out_col, FloatCol life)]),
       df ++ [(out_col, FloatCol life)])
    /\ List.length life = List.length (as_float cycles)
    /\ columns (df ++ [(out_col, FloatCol life)]) = columns df ++ [out_col]
    /\ forall name, name <> out_col ->
         lookup name (df ++ [(out_col, FloatCol life)]) = lookup name df.
Proof.
  intros Habsent Heng Hcyc Hlen.
  eexists. split;
    [exact (ensure_life_frac_absent _ _ _ _ _ _ Habsent Heng Hcyc) |].
  split; [| split].
  - unfold series_div.
    rewrite length_map, length_combine, length_transform_max, length_keys_of.
    lia.
  - unfold columns. now rewrite map_app.
  - intros name Hne. clear - Hne.
    induction df as [| [n c] rest IH]; cbn.
    + destruct (String.eqb name out_col) eqn:E; [| reflexivity].
      apply String.eqb_eq in E. contradiction.
    + now destruct (String.eqb name n).
Qed.

(** The value of the computed column at a row of an int64 cycle column: the
    row's cycle over the largest cycle of the row's engine. *)
Lemma series_div_at (engines : column) (cycles : list Z) i k c m :
  nth_error (keys_of engines) i = Some (Some k) ->
  nth_error cycles i = Some c ->
  (exists j0 k0,
     nth_error (keys_of engines) j0 = Some (Some k0) /\
     key_eqb k k0 = true /\ nth_error cycles j0 = Some m) ->
  (forall j k' c',
     nth_error (keys_of engines) j = Some (Some k') ->
     key_eqb k k' = true ->
     nth_error cycles j = Some c' -> c' <= m) ->
  nth_error (series_div (map of_Z cycles)
               (transform int_group_max (keys_of engines) cycles)) i
  = Some (div (of_Z c) (of_Z m)).
Proof.
  intros Hk Hc (j0 & k0 & Hk0 & Hkk0 & Hm0) Hmax.
  unfold series_div, transform.
  set (rows := combine (keys_of engines) cycles).
  assert (Hrow : nth_error rows i = Some (Some k, c))
    by (apply nth_error_combine_Some; assumption).
  assert (Hin : In m (cells_of_key k rows)).
  { eapply In_cells_of_key; [| exact Hkk0].
    apply nth_error_combine_Some; eassumption. }
  assert (Hgroup : group_of k (groupby rows) = Some (cells_of_key k rows)).
  { rewrite group_of_groupby. destruct (cells_of_key k rows);
      [contradiction | reflexivity]. }
  assert (Hle : forall x, In x (cells_of_key k rows) -> x <= m).
  { intros x Hx. apply cells_of_key_inv in Hx as (j & k' & Hj & Hkk).
    apply nth_error_combine_inv in Hj as [Hj1 Hj2]. eauto. }
  rewrite nth_error_map.
  erewrite nth_error_combine_Some.
  2: { rewrite nth_error_map, Hc. reflexivity. }
  2: { rewrite nth_error_map, Hrow. cbn [option_map fst].
       rewrite Hgroup. rewrite (int_group_max_is _ m Hin Hle). reflexivity. }
  reflexivity.
Qed.

(** X3: Every cell of the computed column is the row's cycle divided by the
    largest cycle among the rows of the same engine. *)
Theorem life_frac_is_cycle_over_max engine_col cycle_col out_col df
    engines cycles :
  has_column out_col df = false ->
  lookup engine_col df = Some engines ->
  lookup cycle_col df = Some (IntCol cycles) ->
  exists life,
    ensure_life_frac engine_col cycle_col out_col df
    = (Ok (df ++ [(out_col, FloatCol life)]),
       df ++ [(out_col, FloatCol life)])
    /\ forall i k c m,
         nth_error (keys_of engines) i = Some (Some k) ->
         nth_error cycles i = Some c ->
         (exists j0 k0,
            nth_error (keys_of engines) j0 = Some (Some k0) /\
            key_eqb k k0 = true /\ nth_error cycles j0 = Some m) ->
         (forall j k' c',
            nth_error (keys_of engines) j = Some (Some k') ->
            key_eqb k k' = true ->
            nth_error cycles j = Some c' -> c' <= m) ->
         nth_error life i = Some (div (of_Z c) (of_Z m)).
Proof.
  intros Habsent Heng Hcyc.
  exists (series_div (map of_Z cycles)
            (transform int_group_max (keys_of engines) cycles)).
  split; [exact (ensure_life_frac_absent _ _ _ _ _ _ Habsent Heng Hcyc) |].
  intros i k c m. apply series_div_at.
Qed.

Lemma div_by_zero_not_finite x s : isfinite (div x (S754_zero s)) = false.
Proof. now destruct x. Qed.

(** X4: An engine whose largest cycle is 0 gets no finite life fraction: every
    one of its rows holds NaN or an infinity (a division by zero), and the
    call still returns. *)
Theorem life_frac_not_finite_when_max_is_zero engine_col cycle_col out_col df
    engines cycles :
  has_column out_col df = false ->
  lookup engine_col df = Some engines ->
  lookup cycle_col df = Some (IntCol cycles) ->
  exists life,
    ensure_life_frac engine_col cycle_col out_col df
    = (Ok (df ++ [(out_col, FloatCol life)]),
       df ++ [(out_col, FloatCol life)])
    /\ forall i k c,
         nth_error (keys_of engines) i = Some (Some k) ->
         nth_error cycles i = Some c ->
         (exists j0 k0,
            nth_error (keys_of engines) j0 = Some (Some k0) /\
            key_eqb k k0 = true /\ nth_error cycles j0 = Some 0) ->
         (forall j k' c',
            nth_error (keys_of engines) j = Some (Some k') ->
            key_eqb k k' = true ->
            nth_error cycles j = Some c' -> c' <= 0) ->
         exists x, nth_error life i = Some x /\ isfinite x = false.
Proof.
  intros Habsent Heng Hcyc.
  exists (series_div (map of_Z cycles)
            (transform int_group_max (keys_of engines) cycles)).
  split; [exact (ensure_life_frac_absent _ _ _ _ _ _ Habsent Heng Hcyc) |].
  intros i k c Hk Hc Hzero Hmax.
  eexists. split; [apply (series_div_at engines cycles i k c 0); assumption |].
  apply (div_by_zero_not_finite (of_Z c) false).
Qed.

(** ** degradation_indicators: what it reads, when it returns, its slopes *)

Lemma has_column_of_lookup name df :
  has_column name df = match lookup name df with
                       | Some _ => true
                       | None => false
                       end.
Proof.
  destruct (lookup name df) eqn:E.
  - apply has_column_lookup. eauto.
  - now apply has_column_false_lookup.
Qed.

Lemma same_outcome_bind {A B} df1 df2 (m : M A) (f : A -> M B) :
  same_outcome df1 df2 m -> (forall a, same_outcome df1 df2 (f a)) ->
  same_outcome df1 df2 (bind m f).
Proof.
  unfold same_outcome, bind. intros (Hm & H1 & H2) Hf.
  destruct (m df1) as [[a1 | e1] d1], (m df2) as [[a2 | e2] d2];
    cbn in Hm, H1, H2; subst; try discriminate; inversion Hm; subst;
    [apply Hf | auto].
Qed.

Lemma same_outcome_ret {A} df1 df2 (a : A) : same_outcome df1 df2 (ret a).
Proof. repeat split. Qed.

Lemma same_outcome_raise {A} df1 df2 e : same_outcome df1 df2 (@raise A e).
Proof. repeat split. Qed.

Lemma same_outcome_if {A} df1 df2 (b : bool) (m1 m2 : M A) :
  same_outcome df1 df2 m1 -> same_outcome df1 df2 m2 ->
  same_outcome df1 df2 (if b then m1 else m2).
Proof. now destruct b. Qed.

Lemma same_outcome_contains df1 df2 name :
  lookup name df1 = lookup name df2 ->
  same_outcome df1 df2 (df_contains name).
Proof.
  intros H. unfold same_outcome, df_contains. cbn.
  now rewrite !has_column_of_lookup, H.
Qed.

Lemma same_outcome_getitem df1 df2 name :
  lookup name df1 = lookup name df2 ->
  same_outcome df1 df2 (df_getitem name).
Proof.
  intros H. unfold same_outcome, df_getitem. rewrite H.
  now destruct (lookup name df2).
Qed.

Section IndicatorExtras.
Variable np_log : float -> float.
Variable np_polyfit_slope : list float -> list float -> option float.
Variables sensor_name engine_col life_frac_col : string.
Variables early_frac late_frac : float.
Variable min_points_for_slope : Z.

(** The loop over the engines never looks at the table. *)
Lemma engine_step_any_table rows a df1 df2 :
  fst (engine_step np_polyfit_slope sensor_name life_frac_col early_frac
         late_frac min_points_for_slope rows a df1)
  = fst (engine_step np_polyfit_slope sensor_name life_frac_col early_frac
           late_frac min_points_for_slope rows a df2).
Proof.
  unfold engine_step, slope_step, ret, raise.
  destruct (dropna rows); [reflexivity |].
  destruct (String.eqb _ _); [reflexivity |].
  destruct (min_points_for_slope <=? _)%Z; [| reflexivity].
  now destruct (np_polyfit_slope _ _).
Qed.

Lemma engine_loop_any_table groups : forall a df1 df2,
  fst (engine_loop np_polyfit_slope sensor_name life_frac_col early_frac
         late_frac min_points_for_slope groups a df1)
  = fst (engine_loop np_polyfit_slope sensor_name life_frac_col early_frac
           late_frac min_points_for_slope groups a df2).
Proof.
  induction groups as [| [k rows] rest IH]; intros a df1 df2; cbn;
    [reflexivity |].
  unfold bind.
  pose proof (engine_step_any_table rows a df1 df2) as Hstep.
  destruct (engine_step _ _ _ _ _ _ rows a df1) as [[a1 | e1] d1],
    (engine_step _ _ _ _ _ _ rows a df2) as [[a2 | e2] d2];
    cbn in Hstep; try discriminate; inversion Hstep; subst; auto.
Qed.

(** X5: [degradation_indicators] reads three columns only: two tables that
    agree on the sensor, life-fraction and engine columns give the same
    outcome, value or exception, whatever else they hold. *)
Theorem degradation_indicators_reads_three_columns df1 df2 :
  lookup sensor_name df1 = lookup sensor_name df2 ->
  lookup life_frac_col df1 = lookup life_frac_col df2 ->
  lookup engine_col df1 = lookup engine_col df2 ->
  fst (degradation_indicators np_log np_polyfit_slope sensor_name engine_col
         life_frac_col early_frac late_frac min_points_for_slope df1)
  = fst (degradation_indicators np_log np_polyfit_slope sensor_name
           engine_col life_frac_col early_frac late_frac
           min_points_for_slope df2).
Proof.
  intros Hs Hl He.
  assert (H : same_outcome df1 df2
            (degradation_indicators np_log np_polyfit_slope sensor_name
               engine_col life_frac_col early_frac late_frac
               min_points_for_slope)); [| apply H].
  unfold degradation_indicators.
  repeat (first
    [ apply same_outcome_bind; [| intros ?]
    | apply same_outcome_if
    | apply same_outcome_contains; assumption
    | apply same_outcome_getitem; assumption
    | apply same_outcome_ret
    | apply same_outcome_raise ]).
  repeat split;
    [apply engine_loop_any_table | apply read_only_engine_loop ..].
Qed.
End IndicatorExtras.

(** ** Signs of the variances *)

Lemma positive_or_nan_mul_self d : positive_or_nan (mul d d) = true.
Proof.
  destruct d as [s | s | | s m e]; try destruct s; try reflexivity;
    unfold mul, SFmul, positive_or_nan; cbn [xorb];
    rewrite sign_positive_binary_round_aux by lia; apply orb_true_r.
Qed.

Lemma positive_or_nan_nanmean l :
  forallb positive_or_nan l = true -> positive_or_nan (nanmean l) = true.
Proof.
  intros Hl. unfold nanmean. apply positive_or_nan_div.
  - apply positive_or_nan_fsum. apply forallb_forall. intros x Hx.
    apply filter_In in Hx as [Hx _]. rewrite forallb_forall in Hl. auto.
  - unfold positive_or_nan. rewrite sign_positive_of_nat. apply orb_true_r.
Qed.

Lemma positive_or_nan_fleet_mean l :
  forallb positive_or_nan l = true -> positive_or_nan (fleet_mean l) = true.
Proof.
  intros Hl. destruct l as [| x l]; [reflexivity |].
  now apply positive_or_nan_nanmean.
Qed.

Lemma positive_or_nan_var_ddof1 l : positive_or_nan (var_ddof1 l) = true.
Proof.
  unfold var_ddof1. destruct (_ <=? 1)%nat; [reflexivity |].
  apply positive_or_nan_div.
  - apply positive_or_nan_fsum. apply forallb_forall. intros x Hx.
    apply in_map_iff in Hx as (y & <- & _). apply positive_or_nan_mul_self.
  - unfold positive_or_nan. rewrite sign_positive_of_nat. apply orb_true_r.
Qed.

Lemma positive_or_nan_ratio_contribution early_frac late_frac rows :
  forallb positive_or_nan (ratio_contribution early_frac late_frac rows)
  = true.
Proof.
  unfold ratio_contribution.
  destruct (_ || _)%bool; [reflexivity |].
  destruct (_ && _ && _)%bool; [| reflexivity].
  cbn [forallb]. rewrite andb_true_r.
  apply positive_or_nan_div; apply positive_or_nan_var_ddof1.
Qed.

Lemma forallb_flat_map {A B} (p : B -> bool) (f : A -> list B) l :
  (forall a, forallb p (f a) = true) -> forallb p (flat_map f l) = true.
Proof.
  intros H. induction l as [| a l IH]; cbn; [reflexivity |].
  now rewrite forallb_app, H, IH.
Qed.

Lemma flat_map_all_nil {A B} (f : A -> list B) l :
  (forall a, In a l -> f a = []) -> flat_map f l = [].
Proof.
  induction l as [| a l IH]; intros H; cbn; [reflexivity |].
  rewrite (H a (or_introl eq_refl)), IH; [reflexivity |].
  intros b Hb. apply H. now right.
Qed.

Lemma positive_or_nan_not_negative x :
  positive_or_nan x = true -> ltb x zero = false.
Proof. destruct x as [s | s | | s m e]; try destruct s; cbv; congruence. Qed.

Lemma normalized_nan b : normalized nan b = nan.
Proof. unfold normalized. now destruct (isfinite b). Qed.

Section IndicatorLoop.
Variable np_log : float -> float.
Variable np_polyfit_slope : list float -> list float -> option float.
Variables sensor_name engine_col life_frac_col : string.
Variables early_frac late_frac : float.
Variable min_points_for_slope : Z.

Lemma engine_step_slopes rows a a' df df' :
  engine_step np_polyfit_slope sensor_name life_frac_col early_frac late_frac
    min_points_for_slope rows a df = (Ok a', df') ->
  slopes a' =
    slopes a ++ slope_contribution np_polyfit_slope min_points_for_slope rows.
Proof.
  unfold engine_step, slope_contribution.
  destruct (dropna rows) as [| r g] eqn:Hg.
  - unfold ret. intros H. injection H as <- <-.
    destruct (_ <? _)%Z; now rewrite app_nil_r.
  - destruct (String.eqb life_frac_col sensor_name); [discriminate |].
    unfold slope_step. rewrite Z.ltb_antisym.
    assert (Hslopes : forall e l, slopes (shift_step e l a) = slopes a).
    { intros e l. unfold shift_step. now destruct (_ && _)%bool. }
    destruct (min_points_for_slope <=? _)%Z; cbn [negb].
    + destruct (np_polyfit_slope _ _); [| discriminate].
      unfold ret. intros H. injection H as <- <-. cbn [slopes].
      now rewrite Hslopes.
    + unfold ret. intros H. injection H as <- <-.
      now rewrite Hslopes, app_nil_r.
Qed.

Lemma engine_loop_slopes groups : forall a a' df df',
  engine_loop np_polyfit_slope sensor_name life_frac_col early_frac late_frac
    min_points_for_slope groups a df = (Ok a', df') ->
  slopes a' =
    slopes a
    ++ flat_map (slope_contribution np_polyfit_slope min_points_for_slope)
         (map snd groups).
Proof.
  induction groups as [| [k rows] rest IH]; intros a a' df df'; simpl.
  - unfold ret. intros H. injection H as <- <-. now rewrite app_nil_r.
  - unfold bind.
    destruct (engine_step _ _ _ _ _ _ rows a df) as [[a1 | e] df1] eqn:Hstep;
      [| discriminate].
    intros Hrest. apply engine_step_slopes in Hstep.
    apply IH in Hrest. rewrite Hrest, Hstep, <- app_assoc. reflexivity.
Qed.

Lemma count_finite_slope_contributions groups :
  (count_finite
     (flat_map (slope_contribution np_polyfit_slope min_points_for_slope)
        groups)
   <= List.length (filter (enough_points min_points_for_slope) groups))%nat.
Proof.
  unfold count_finite.
  induction groups as [| rows rest IH]; simpl; [lia |].
  rewrite filter_app, length_app.
  unfold slope_contribution at 1, enough_points at 1.
  rewrite Z.ltb_antisym.
  destruct (min_points_for_slope <=? _)%Z; cbn [negb]; [| simpl; lia].
  destruct (dropna rows); [simpl; lia |].
  destruct (np_polyfit_slope _ _); [| simpl; lia].
  simpl. destruct (isfinite _); simpl; lia.
Qed.

(** X6: The slope fields come from the engines that have
    [min_points_for_slope] valid rows: an engine with fewer contributes no
    slope (and no fit is attempted for it), [slope] and [abs_slope] are the
    fleet means of the contributed slopes, and [n_engines_used_slope]
    counts the finite ones, so it is at most the number of engines with
    enough rows. *)
Theorem slope_gating df ind df' engines life vals :
  degradation_indicators np_log np_polyfit_slope sensor_name engine_col
    life_frac_col early_frac late_frac min_points_for_slope df
  = (Ok ind, df') ->
  lookup engine_col df = Some engines ->
  lookup life_frac_col df = Some life ->
  lookup sensor_name df = Some vals ->
  (forall rows,
     Z.of_nat (List.length (dropna rows)) < min_points_for_slope ->
     slope_contribution np_polyfit_slope min_points_for_slope rows = [])
  /\ slope ind =
       fleet_mean
         (flat_map (slope_contribution np_polyfit_slope min_points_for_slope)
            (engine_rows engines life vals))
  /\ abs_slope ind =
       fleet_mean
         (map abs
            (flat_map
               (slope_contribution np_polyfit_slope min_points_for_slope)
               (engine_rows engines life vals)))
  /\ n_engines_used_slope ind =
       count_finite
         (flat_map (slope_contribution np_polyfit_slope min_points_for_slope)
            (engine_rows engines life vals))
  /\ (n_engines_used_slope ind
      <= List.length (filter (enough_points min_points_for_slope)
                        (engine_rows engines life vals)))%nat.
Proof.
  intros Hrun He Hl Hv.
  apply degradation_indicators_ok in Hrun
    as (engines0 & life0 & vals0 & a & He0 & Hl0 & Hv0 & Hloop & _ & Hind).
  rewrite He in He0. rewrite Hl in Hl0. rewrite Hv in Hv0.
  injection He0 as <-. injection Hl0 as <-. injection Hv0 as <-.
  apply engine_loop_slopes in Hloop.
  cbn [slopes no_accum app] in Hloop.
  fold (engine_rows engines life vals) in Hloop.
  cbv zeta in Hind. subst ind.
  cbn [slope abs_slope n_engines_used_slope].
  rewrite Hloop, count_finite_or_zero.
  split; [| repeat split; auto using count_finite_slope_contributions].
  intros rows Hfew. unfold slope_contribution.
  apply Z.ltb_lt in Hfew. now rewrite Hfew.
Qed.

(** X7: When no engine has [min_points_for_slope] valid rows, no line is
    fitted at all: the slope fields of the returned value are NaN and no
    engine is counted. *)
Theorem few_points_no_slope df ind df' engines life vals :
  degradation_indicators np_log np_polyfit_slope sensor_name engine_col
    life_frac_col early_frac late_frac min_points_for_slope df
  = (Ok ind, df') ->
  lookup engine_col df = Some engines ->
  lookup life_frac_col df = Some life ->
  lookup sensor_name df = Some vals ->
  (forall rows, In rows (engine_rows engines life vals) ->
     enough_points min_points_for_slope rows = false) ->
  slope ind = nan /\ abs_slope ind = nan
  /\ slope_std ind = nan /\ abs_slope_std ind = nan
  /\ n_engines_used_slope ind = 0%nat.
Proof.
  intros Hrun He Hl Hv Hnone.
  apply degradation_indicators_ok in Hrun
    as (engines0 & life0 & vals0 & a & He0 & Hl0 & Hv0 & Hloop & _ & Hind).
  rewrite He in He0. rewrite Hl in Hl0. rewrite Hv in Hv0.
  injection He0 as <-. injection Hl0 as <-. injection Hv0 as <-.
  apply engine_loop_slopes in Hloop.
  cbn [slopes no_accum app] in Hloop.
  fold (engine_rows engines life vals) in Hloop.
  assert (Hs : slopes a = []).
  { rewrite Hloop. apply flat_map_all_nil. intros rows Hin.
    specialize (Hnone rows Hin). unfold enough_points in Hnone.
    unfold slope_contribution. now rewrite Z.ltb_antisym, Hnone. }
  cbv zeta in Hind. subst ind.
  cbn [slope abs_slope slope_std abs_slope_std n_engines_used_slope].
  rewrite Hs. cbn [map fleet_mean]. rewrite !normalized_nan.
  repeat split.
Qed.

(** X8: When no engine has five points in both of its windows, nothing is
    known about the shift: the mean-shift and variance-ratio fields of the
    returned value are all NaN and no engine is counted. *)
Theorem no_full_windows_no_shift df ind df' engines life vals :
  degradation_indicators np_log np_polyfit_slope sensor_name engine_col
    life_frac_col early_frac late_frac min_points_for_slope df
  = (Ok ind, df') ->
  lookup engine_col df = Some engines ->
  lookup life_frac_col df = Some life ->
  lookup sensor_name df = Some vals ->
  (forall rows, In rows (engine_rows engines life vals) ->
     both_windows_full early_frac late_frac rows = false) ->
  mean_shift ind = nan /\ abs_mean_shift ind = nan
  /\ variance_ratio ind = nan /\ log_variance_ratio ind = nan
  /\ mean_shift_std ind = nan /\ abs_mean_shift_std ind = nan
  /\ n_engines_used_shift ind = 0%nat.
Proof.
  intros Hrun He Hl Hv Hnone.
  apply degradation_indicators_ok in Hrun
    as (engines0 & life0 & vals0 & a & He0 & Hl0 & Hv0 & Hloop & _ & Hind).
  rewrite He in He0. rewrite Hl in Hl0. rewrite Hv in Hv0.
  injection He0 as <-. injection Hl0 as <-. injection Hv0 as <-.
  apply engine_loop_lists in Hloop as [Hshifts Hratios].
  cbn [mean_shifts var_ratios no_accum app] in Hshifts, Hratios.
  fold (engine_rows engines life vals) in Hshifts, Hratios.
  assert (Hs : mean_shifts a = []).
  { rewrite Hshifts. apply flat_map_all_nil. intros rows Hin.
    specialize (Hnone rows Hin). unfold both_windows_full in Hnone.
    unfold shift_contribution.
    rewrite !Nat.ltb_antisym, <- negb_andb, Hnone. reflexivity. }
  assert (Hr : var_ratios a = []).
  { rewrite Hratios. apply flat_map_all_nil. intros rows Hin.
    specialize (Hnone rows Hin). unfold both_windows_full in Hnone.
    unfold ratio_contribution.
    rewrite !Nat.ltb_antisym, <- negb_andb, Hnone. reflexivity. }
  cbv zeta in Hind. subst ind.
  cbn [mean_shift abs_mean_shift variance_ratio log_variance_ratio
       mean_shift_std abs_mean_shift_std n_engines_used_shift].
  rewrite Hs, Hr. cbn [map fleet_mean]. rewrite !normalized_nan.
  repeat split.
Qed.
End IndicatorLoop.

Section IndicatorInvariants.
Variable np_log : float -> float.
Variable np_polyfit_slope : list float -> list float -> option float.
Variables sensor_name engine_col life_frac_col : string.
Variables early_frac late_frac : float.
Variable min_points_for_slope : Z.

(** X9: The magnitudes of a returned value are never negative: the absolute
    shift and slope, the variance ratio and the two normalized magnitudes
    are NaN or compare [>= 0]; and the baseline is NaN or a finite number
    above zero. *)
Theorem indicator_magnitudes_not_negative df ind df' :
  degradation_indicators np_log np_polyfit_slope sensor_name engine_col
    life_frac_col early_frac late_frac min_points_for_slope df
  = (Ok ind, df') ->
  ltb (abs_mean_shift ind) zero = false
  /\ ltb (abs_slope ind) zero = false
  /\ ltb (variance_ratio ind) zero = false
  /\ ltb (abs_mean_shift_std ind) zero = false
  /\ ltb (abs_slope_std ind) zero = false
  /\ (isnan (baseline_std_early ind) = true
      \/ (isfinite (baseline_std_early ind) = true
          /\ gtb (baseline_std_early ind) zero = true)).
Proof.
  intros Hrun.
  apply degradation_indicators_ok in Hrun
    as (engines & life & vals & a & _ & _ & _ & Hloop & _ & Hind).
  apply engine_loop_lists in Hloop as [_ Hratios].
  cbn [var_ratios no_accum app] in Hratios.
  cbv zeta in Hind. subst ind.
  cbn [abs_mean_shift abs_slope variance_ratio abs_mean_shift_std
       abs_slope_std baseline_std_early].
  repeat split.
  - apply positive_or_nan_not_negative, positive_or_nan_fleet_mean_abs.
  - apply positive_or_nan_not_negative, positive_or_nan_fleet_mean_abs.
  - apply positive_or_nan_not_negative, positive_or_nan_fleet_mean.
    rewrite Hratios. apply forallb_flat_map.
    apply positive_or_nan_ratio_contribution.
  - apply positive_or_nan_not_negative, positive_or_nan_normalized,
      positive_or_nan_fleet_mean_abs.
  - apply positive_or_nan_not_negative, positive_or_nan_normalized,
      positive_or_nan_fleet_mean_abs.
  - destruct (isfinite _ && gtb _ zero) eqn:Hb; [| now left].
    right. now apply andb_true_iff in Hb.
Qed.

Lemma engine_loop_returns groups : forall a df,
  String.eqb life_frac_col sensor_name = false ->
  (forall rows, In rows (map snd groups) ->
     dropna rows <> [] ->
     enough_points min_points_for_slope rows = true ->
     np_polyfit_slope (map fst (dropna rows)) (map snd (dropna rows))
     <> None) ->
  exists a',
    engine_loop np_polyfit_slope sensor_name life_frac_col early_frac
      late_frac min_points_for_slope groups a df = (Ok a', df).
Proof.
  induction groups as [| [k rows] rest IH]; intros a df Hneq Hfit; cbn.
  - unfold ret. eauto.
  - assert (Hstep : exists a1,
      engine_step np_polyfit_slope sensor_name life_frac_col early_frac
        late_frac min_points_for_slope rows a df = (Ok a1, df)).
    { unfold engine_step.
      specialize (Hfit rows (or_introl eq_refl)).
      unfold enough_points in Hfit.
      destruct (dropna rows) as [| r g] eqn:Hg; [unfold ret; eauto |].
      rewrite Hneq. unfold slope_step.
      destruct (min_points_for_slope <=? _)%Z; [| unfold ret; eauto].
      destruct (np_polyfit_slope _ _);
        [unfold ret; eauto | exfalso; apply Hfit; auto; discriminate]. }
    destruct Hstep as [a1 Hstep]. unfold bind. rewrite Hstep.
    apply IH; [exact Hneq |]. intros rows' Hin. apply Hfit. now right.
Qed.

(** X10: After its two column checks, [degradation_indicators] fails in three
    ways only: no engine column, one column given as both sensor and
    life fraction, or a failing line fit.  With the three columns present
    under different names, and a fit that succeeds on every engine with
    enough valid rows, the call returns a value and leaves the table as it
    was. *)
Theorem degradation_indicators_returns df engines life vals :
  lookup engine_col df = Some engines ->
  lookup life_frac_col df = Some life ->
  lookup sensor_name df = Some vals ->
  life_frac_col <> sensor_name ->
  (forall rows, In rows (engine_rows engines life vals) ->
     dropna rows <> [] ->
     enough_points min_points_for_slope rows = true ->
     np_polyfit_slope (map fst (dropna rows)) (map snd (dropna rows))
     <> None) ->
  exists ind,
    degradation_indicators np_log np_polyfit_slope sensor_name engine_col
      life_frac_col early_frac late_frac min_points_for_slope df
    = (Ok ind, df).
Proof.
  intros He Hl Hv Hneq Hfit.
  apply String.eqb_neq in Hneq.
  destruct (engine_loop_returns
              (groupby (combine (keys_of engines)
                          (combine (as_float life) (as_float vals))))
              no_accum df Hneq Hfit) as [a Hloop].
  unfold degradation_indicators.
  unfold bind at 1, df_contains at 1. rewrite has_column_of_lookup, Hv.
  cbn [negb].
  unfold bind at 1, df_contains at 1. rewrite has_column_of_lookup, Hl.
  cbn [negb].
  unfold bind at 1, df_getitem at 1. rewrite He.
  unfold bind at 1, df_getitem at 1. rewrite Hl.
  unfold bind at 1, df_getitem at 1. rewrite Hv.
  unfold bind at 1. rewrite Hloop.
  unfold bind at 1, df_getitem at 1. rewrite Hl.
  unfold bind at 1, df_getitem at 1. rewrite Hv.
  unfold ret. eauto.
Qed.

(** Once the sensor and life-fraction columns are there and the engine
    column too, no KeyError can come out of [degradation_indicators]. *)
Lemma degradation_indicators_no_key_error df :
  has_column sensor_name df = true ->
  has_column life_frac_col df = true ->
  has_column engine_col df = true ->
  not_key_error
    (fst (degradation_indicators np_log np_polyfit_slope sensor_name
            engine_col life_frac_col early_frac late_frac
            min_points_for_slope df)).
Proof.
  intros Hs Hl He.
  pose proof Hs as Hs'. pose proof Hl as Hl'.
  apply has_column_lookup in Hs' as [vals Hv].
  apply has_column_lookup in Hl' as [life Hlf].
  apply has_column_lookup in He as [engines Heng].
  unfold degradation_indicators.
  unfold bind at 1, df_contains at 1. rewrite Hs. cbn [negb].
  unfold bind at 1, df_contains at 1. rewrite Hl. cbn [negb].
  unfold bind at 1, df_getitem at 1. rewrite Heng.
  unfold bind at 1, df_getitem at 1. rewrite Hlf.
  unfold bind at 1, df_getitem at 1. rewrite Hv.
  unfold bind at 1.
  set (groups := groupby _).
  assert (Hloop : forall gs a d,
    not_key_error
      (fst (engine_loop np_polyfit_slope sensor_name life_frac_col
              early_frac late_frac min_points_for_slope gs a d))).
  { induction gs as [| [k rows] rest IH]; intros a d; cbn; [exact I |].
    unfold bind.
    destruct (engine_step _ _ _ _ _ _ rows a d) as [[a1 | e] d1] eqn:Hstep;
      [apply IH |].
    revert Hstep. unfold engine_step, slope_step, ret, raise.
    destruct (dropna rows); [discriminate |].
    destruct (String.eqb _ _); [intros H; now inversion H |].
    destruct (_ <=? _)%Z; [| discriminate].
    destruct (np_polyfit_slope _ _); [discriminate |].
    intros H; now inversion H. }
  specialize (Hloop groups no_accum df).
  pose proof (read_only_engine_loop np_polyfit_slope sensor_name
                life_frac_col early_frac late_frac min_points_for_slope
                groups no_accum df) as Hro.
  destruct (engine_loop _ _ _ _ _ _ groups no_accum df) as [[a | e] d1];
    [| exact Hloop].
  cbn in Hro. subst d1.
  unfold bind at 1, df_getitem at 1. rewrite Hlf.
  unfold bind at 1, df_getitem at 1. rewrite Hv.
  exact I.
Qed.
End IndicatorInvariants.

(** ** rank_sensors_by_degradation: frame, errors and rows *)

Lemma read_only_summary_getitem rows name field :
  read_only (summary_getitem rows name field).
Proof.
  unfold summary_getitem. destruct (existsb _ _); auto with read_only.
Qed.

Lemma read_only_score_rows rows : read_only (score_rows rows).
Proof.
  unfold score_rows.
  repeat (first
    [ apply read_only_bind; [| intros ?]
    | apply read_only_summary_getitem
    | solve [auto with read_only] ]).
Qed.

Lemma sign_positive_geb x :
  sign_positive x = true -> isnan x = false /\ geb x zero = true.
Proof. destruct x as [s | s | | s m e]; try destruct s; cbv; auto. Qed.

Lemma clip_lower_zero_cases x :
  isnan (clip_lower zero x) = true \/ geb (clip_lower zero x) zero = true.
Proof.
  unfold clip_lower. destruct (isnan x) eqn:Hnan; [now left |].
  cbn [orb]. destruct (geb x zero) eqn:Hge; [now right |].
  right. reflexivity.
Qed.

Lemma has_column_app name df1 df2 :
  has_column name (df1 ++ df2) = has_column name df1 || has_column name df2.
Proof. unfold has_column, columns. now rewrite map_app, existsb_app. Qed.

Section RankingExtras.
Variable np_log : float -> float.
Variable np_polyfit_slope : list float -> list float -> option float.
Variable np_argsort : list float -> list nat.
Variables engine_col life_frac_col : string.
Variables early_frac late_frac : float.
Variable min_points_for_slope : Z.

(** X11: [rank_sensors_by_degradation] never writes to the table it is given,
    whether it returns a ranking or raises. *)
Theorem rank_sensors_preserves_table sensors df :
  snd (rank_sensors_by_degradation np_log np_polyfit_slope np_argsort
         engine_col life_frac_col early_frac late_frac min_points_for_slope
         sensors df) = df.
Proof.
  revert df. change (read_only
    (rank_sensors_by_degradation np_log np_polyfit_slope np_argsort
       engine_col life_frac_col early_frac late_frac min_points_for_slope
       sensors)).
  unfold rank_sensors_by_degradation.
  apply read_only_bind.
  - destruct sensors; [auto with read_only |].
    apply read_only_bind; auto with read_only.
  - intros chosen. apply read_only_bind; [apply read_only_collect_rows |].
    intros rows. apply read_only_bind; [apply read_only_score_rows |].
    auto with read_only.
Qed.

Lemma degradation_indicators_sensor_error s df :
  has_column s df = false ->
  degradation_indicators np_log np_polyfit_slope s engine_col life_frac_col
    early_frac late_frac min_points_for_slope df
  = (Raise (KeyError ("Missing sensor column: " ++ s)), df).
Proof.
  intros Hs. unfold degradation_indicators, bind, df_contains, raise.
  now rewrite Hs.
Qed.

Lemma degradation_indicators_life_frac_error s df :
  has_column s df = true ->
  has_column life_frac_col df = false ->
  degradation_indicators np_log np_polyfit_slope s engine_col life_frac_col
    early_frac late_frac min_points_for_slope df
  = (Raise (KeyError ("Missing '" ++ life_frac_col
       ++ "'. Call ensure_life_frac(df) before computing indicators.")), df).
Proof.
  intros Hs Hl. unfold degradation_indicators, bind, df_contains, raise.
  rewrite Hs. cbn. now rewrite Hl.
Qed.

Lemma collect_rows_missing_sensor s sensors : forall rows0 df,
  In s sensors -> has_column s df = false ->
  exists e,
    collect_rows np_log np_polyfit_slope engine_col life_frac_col early_frac
      late_frac min_points_for_slope sensors rows0 df = (Raise e, df).
Proof.
  induction sensors as [| s' rest IH]; intros rows0 df Hin Hs;
    [contradiction |].
  cbn. unfold bind.
  pose proof (read_only_degradation_indicators np_log np_polyfit_slope s'
                engine_col life_frac_col early_frac late_frac
                min_points_for_slope df) as Hro.
  destruct (degradation_indicators _ _ s' _ _ _ _ _ df)
    as [[ind | e] df1] eqn:Hrun; cbn in Hro; subst df1; [| eauto].
  destruct Hin as [-> | Hin]; [| now apply IH].
  rewrite (degradation_indicators_sensor_error s df Hs) in Hrun.
  discriminate.
Qed.

(** X12: A ranking is all or nothing: when one of the sensors asked for is not
    a column of the table, wherever it stands in the list, the call raises
    and no partial table comes back. *)
Theorem rank_sensors_missing_sensor_raises s sensors df :
  In s sensors -> has_column s df = false ->
  exists e,
    rank_sensors_by_degradation np_log np_polyfit_slope np_argsort engine_col
      life_frac_col early_frac late_frac min_points_for_slope (Some sensors)
      df = (Raise e, df).
Proof.
  intros Hin Hs.
  destruct (collect_rows_missing_sensor s sensors [] df Hin Hs) as [e He].
  exists e. unfold rank_sensors_by_degradation.
  unfold bind at 1, ret at 1. unfold bind at 1. now rewrite He.
Qed.

(** X13: On a table without the life-fraction column the ranking raises the
    KeyError that names the precondition: with sensors discovered by their
    prefix as soon as there is one, and with sensors given when the first
    one is a column of the table. *)
Theorem rank_sensors_needs_life_frac df :
  has_column life_frac_col df = false ->
  (filter (String.prefix "sensor_") (columns df) <> [] ->
   fst (rank_sensors_by_degradation np_log np_polyfit_slope np_argsort
          engine_col life_frac_col early_frac late_frac min_points_for_slope
          None df)
   = Raise (KeyError ("Missing '" ++ life_frac_col
       ++ "'. Call ensure_life_frac(df) before computing indicators.")))
  /\ (forall s rest, has_column s df = true ->
      fst (rank_sensors_by_degradation np_log np_polyfit_slope np_argsort
             engine_col life_frac_col early_frac late_frac
             min_points_for_slope (Some (s :: rest)) df)
      = Raise (KeyError ("Missing '" ++ life_frac_col
          ++ "'. Call ensure_life_frac(df) before computing indicators."))).
Proof.
  intros Hl.
  assert (Hfirst : forall s rest, has_column s df = true ->
    collect_rows np_log np_polyfit_slope engine_col life_frac_col early_frac
      late_frac min_points_for_slope (s :: rest) [] df
    = (Raise (KeyError ("Missing '" ++ life_frac_col
         ++ "'. Call ensure_life_frac(df) before computing indicators.")),
       df)).
  { intros s rest Hs. cbn. unfold bind.
    now rewrite (degradation_indicators_life_frac_error s df Hs Hl). }
  split.
  - intros Hsome.
    destruct (filter (String.prefix "sensor_") (columns df))
      as [| s rest] eqn:Hsel; [congruence |].
    assert (Hs : has_column s df = true).
    { assert (Hin : In s (filter (String.prefix "sensor_") (columns df)))
        by (rewrite Hsel; now left).
      apply filter_In in Hin as [Hin _].
      unfold has_column. apply existsb_exists.
      exists s. split; [exact Hin | apply String.eqb_refl]. }
    unfold rank_sensors_by_degradation.
    unfold bind at 1, bind at 1, df_columns, ret at 1. rewrite Hsel.
    unfold bind at 1. now rewrite (Hfirst s rest Hs).
  - intros s rest Hs. unfold rank_sensors_by_degradation.
    unfold bind at 1, ret at 1. unfold bind at 1.
    now rewrite (Hfirst s rest Hs).
Qed.

Lemma collect_rows_results sensors : forall rows0 rows df df',
  collect_rows np_log np_polyfit_slope engine_col life_frac_col early_frac
    late_frac min_points_for_slope sensors rows0 df = (Ok rows, df') ->
  exists new,
    rows = rows0 ++ new
    /\ Forall (fun ind =>
         degradation_indicators np_log np_polyfit_slope (sensor ind)
           engine_col life_frac_col early_frac late_frac
           min_points_for_slope df = (Ok ind, df)) new.
Proof.
  induction sensors as [| s rest IH]; intros rows0 rows df df'; cbn.
  - unfold ret. intros H. injection H as <- <-.
    exists []. rewrite app_nil_r. auto.
  - unfold bind.
    pose proof (read_only_degradation_indicators np_log np_polyfit_slope s
                  engine_col life_frac_col early_frac late_frac
                  min_points_for_slope df) as Hro.
    destruct (degradation_indicators _ _ s _ _ _ _ _ df)
      as [[ind | e] df1] eqn:Hind; [| discriminate].
    cbn in Hro. subst df1.
    intros Hrest. apply IH in Hrest as (new & -> & Hall).
    pose proof (degradation_indicators_magnitudes _ _ _ _ _ _ _ _ _ _ _ Hind)
      as (Hname & _).
    exists (ind :: new). rewrite <- app_assoc. split; [reflexivity |].
    constructor; [now rewrite Hname | exact Hall].
Qed.

(** X14: Every row of a returned ranking carries exactly the value
    [degradation_indicators] returns for that row's sensor on the same
    table: a sensor's indicators do not depend on which other sensors are
    ranked with it. *)
Theorem rank_rows_are_indicator_values sensors df table df' :
  rank_sensors_by_degradation np_log np_polyfit_slope np_argsort engine_col
    life_frac_col early_frac late_frac min_points_for_slope sensors df
  = (Ok table, df') ->
  Forall (fun r =>
    degradation_indicators np_log np_polyfit_slope (sensor (indicators r))
      engine_col life_frac_col early_frac late_frac min_points_for_slope df
    = (Ok (indicators r), df)) table.
Proof.
  intros Hrun. apply rank_sensors_ok in Hrun as (rows & Hrows & -> & _).
  apply collect_rows_results in Hrows as (new & Hnew & Hall).
  cbn [app] in Hnew. subst new.
  apply Forall_forall. intros r Hr.
  apply In_take in Hr. apply in_map_iff in Hr as (ind & <- & Hind).
  rewrite Forall_forall in Hall. cbn [scored indicators]. now apply Hall.
Qed.

(** X15: In every row of a returned ranking the score is a number that is not
    negative (never NaN), and the instability signal is NaN or not
    negative. *)
Theorem rank_scores_not_negative sensors df table df' :
  rank_sensors_by_degradation np_log np_polyfit_slope np_argsort engine_col
    life_frac_col early_frac late_frac min_points_for_slope sensors df
  = (Ok table, df') ->
  Forall (fun r =>
    isnan (score r) = false /\ geb (score r) zero = true
    /\ (isnan (instability_signal r) = true
        \/ geb (instability_signal r) zero = true)) table.
Proof.
  intros Hrun. apply rank_sensors_ok in Hrun as (rows & Hrows & -> & _).
  apply collect_rows_ok in Hrows as (new & Hnew & _ & Hmag).
  cbn [app] in Hnew. subst new.
  apply Forall_forall. intros r Hr.
  apply In_take in Hr. apply in_map_iff in Hr as (ind & <- & Hind).
  rewrite Forall_forall in Hmag. destruct (Hmag ind Hind) as [Ha Hb].
  destruct (sign_positive_geb _ (sign_positive_score ind Ha Hb)) as [Hn Hg].
  repeat split; auto.
  cbn [scored instability_signal]. apply clip_lower_zero_cases.
Qed.
End RankingExtras.

(** ** The two stages in sequence *)

(** X16: After [ensure_life_frac], [degradation_indicators] on the same table
    cannot fail for a missing column: on a table with the engine, cycle and
    sensor columns the sequence of the two calls never ends in a
    KeyError. *)
Theorem ensure_then_indicators_no_key_error
    (np_log : float -> float)
    (np_polyfit_slope : list float -> list float -> option float)
    (sensor_name engine_col cycle_col life_frac_col : string)
    (early_frac late_frac : float) (min_points_for_slope : Z)
    (df : DataFrame) :
  has_column engine_col df = true ->
  has_column cycle_col df = true ->
  has_column sensor_name df = true ->
  not_key_error
    (fst ((ensure_life_frac engine_col cycle_col life_frac_col ;;;
           degradation_indicators np_log np_polyfit_slope sensor_name
             engine_col life_frac_col early_frac late_frac
             min_points_for_slope) df)).
Proof.
  intros He Hc Hs.
  destruct (has_column life_frac_col df) eqn:Hl.
  - unfold bind. rewrite (ensure_life_frac_present _ _ _ _ Hl).
    now apply degradation_indicators_no_key_error.
  - pose proof He as He'. pose proof Hc as Hc'.
    apply has_column_lookup in He' as [engines Heng].
    apply has_column_lookup in Hc' as [cycles Hcyc].
    unfold bind.
    rewrite (ensure_life_frac_absent _ _ _ _ _ _ Hl Heng Hcyc).
    apply degradation_indicators_no_key_error;
      rewrite has_column_app; try (rewrite Hs || rewrite He); auto.
    apply orb_true_iff. right. unfold has_column. cbn.
    now rewrite String.eqb_refl.
Qed.

(** ** The ranking table is in order *)

Section RankingTable.
Variable np_log : float -> float.
Variable np_polyfit_slope : list float -> list float -> option float.
Variable np_argsort : list float -> list nat.
Variables engine_col life_frac_col : string.
Variables early_frac late_frac : float.
Variable min_points_for_slope : Z.

(** X17: whatever the sort kind does with equal scores, as long as it keeps
    numpy's argsort contract, a returned ranking table reads from the
    highest score to the lowest, and it has exactly one row for each sensor
    that was ranked. *)
Theorem rank_table_descending sensors df table df' :
  argsort_spec np_argsort ->
  rank_sensors_by_degradation np_log np_polyfit_slope np_argsort engine_col
    life_frac_col early_frac late_frac min_points_for_slope sensors df
  = (Ok table, df') ->
  descending_by_score table
  /\ Permutation (map (fun r => sensor (indicators r)) table)
       (match sensors with
        | Some l => l
        | None => filter (String.prefix "sensor_") (columns df)
        end).
Proof.
  intros Hspec Hrun.
  apply rank_sensors_ok in Hrun as (rows & Hrows & -> & _).
  apply collect_rows_ok in Hrows as (new & Hnew & Hnames & Hmag).
  cbn [app] in Hnew. subst new.
  assert (Hnn : forallb notnan (map score (map scored rows)) = true).
  { apply forallb_forall. intros x Hx.
    apply in_map_iff in Hx as (r & <- & Hr).
    apply in_map_iff in Hr as (ind & <- & Hind).
    rewrite Forall_forall in Hmag. destruct (Hmag ind Hind) as [Ha Hb].
    now apply sign_positive_notnan, sign_positive_score. }
  destruct (sort_values_descending np_argsort Hspec (map scored rows) Hnn)
    as [Hperm Hdesc].
  split; [exact Hdesc |].
  rewrite Hperm, map_map, <- Hnames. reflexivity.
Qed.
End RankingTable.

(** ** Examples for the further properties *)

Lemma ensure_life_frac_missing_column_witness :
  exists what,
    ensure_life_frac "unit_id" "cycle" "life_frac" bare_table
    = (Raise (KeyError what), bare_table).
Proof.
  apply (ensure_life_frac_missing_column "unit_id" "cycle" "life_frac"
           bare_table); [reflexivity | left; reflexivity].
Defined.

Lemma ensure_life_frac_appends_column_witness :
  exists life,
    ensure_life_frac "engine_id" "cycle" "life_frac" raw_fleet
    = (Ok (raw_fleet ++ [("life_frac"%string, FloatCol life)]),
       raw_fleet ++ [("life_frac"%string, FloatCol life)])
    /\ List.length life = 8%nat.
Proof.
  destruct (ensure_life_frac_appends_column "engine_id" "cycle" "life_frac"
              raw_fleet (IntCol [1; 1; 1; 1; 1; 2; 2; 2])
              (IntCol [1; 2; 3; 4; 5; 1; 2; 3]) eq_refl eq_refl eq_refl
              eq_refl)
    as (life & Hrun & Hlen & _).
  exists life. split; [exact Hrun | exact Hlen].
Defined.

Lemma life_frac_is_cycle_over_max_witness :
  exists life,
    ensure_life_frac "engine_id" "cycle" "life_frac" raw_fleet
    = (Ok (raw_fleet ++ [("life_frac"%string, FloatCol life)]),
       raw_fleet ++ [("life_frac"%string, FloatCol life)])
    /\ nth_error life 1 = Some (div (of_Z 2) (of_Z 5)).
Proof.
  destruct (life_frac_is_cycle_over_max "engine_id" "cycle" "life_frac"
              raw_fleet (IntCol [1; 1; 1; 1; 1; 2; 2; 2])
              [1; 2; 3; 4; 5; 1; 2; 3] eq_refl eq_refl eq_refl)
    as (life & Hrun & Hat).
  exists life. split; [exact Hrun |].
  apply (Hat 1%nat (KInt 1) 2 5); [reflexivity | reflexivity | |].
  - exists 4%nat, (KInt 1). repeat split.
  - intros j k' c Hk Heq Hc.
    do 8 (destruct j as [| j];
          [cbn in Hk, Hc; injection Hk as <-; injection Hc as <-;
           cbn in Heq; try discriminate; lia |]).
    destruct j; discriminate.
Defined.

Lemma life_frac_not_finite_when_max_is_zero_witness :
  exists life x,
    ensure_life_frac "engine_id" "cycle" "life_frac" stalled_table
    = (Ok (stalled_table ++ [("life_frac"%string, FloatCol life)]),
       stalled_table ++ [("life_frac"%string, FloatCol life)])
    /\ nth_error life 0 = Some x /\ isfinite x = false.
Proof.
  destruct (life_frac_not_finite_when_max_is_zero "engine_id" "cycle"
              "life_frac" stalled_table (IntCol [1; 1; 2]) [0; 0; 3]
              eq_refl eq_refl eq_refl)
    as (life & Hrun & Hat).
  destruct (Hat 0%nat (KInt 1) 0) as (x & Hx & Hfin);
    [reflexivity | reflexivity | | |].
  - exists 0%nat, (KInt 1). repeat split.
  - intros j k' c Hk Heq Hc.
    do 3 (destruct j as [| j];
          [cbn in Hk, Hc; injection Hk as <-; injection Hc as <-;
           cbn in Heq; try discriminate; lia |]).
    destruct j; discriminate.
  - exists life, x. auto.
Defined.

Lemma degradation_indicators_reads_three_columns_witness :
  fst (degradation_indicators example_log example_polyfit_slope "sensor_d"
         "engine_id" "life_frac" default_early_frac default_late_frac 20
         fleet)
  = fst (degradation_indicators example_log example_polyfit_slope "sensor_d"
           "engine_id" "life_frac" default_early_frac default_late_frac 20
           (("unit"%string, IntCol [3]) :: fleet)).
Proof.
  apply (degradation_indicators_reads_three_columns example_log
           example_polyfit_slope "sensor_d" "engine_id" "life_frac"
           default_early_frac default_late_frac 20 fleet
           (("unit"%string, IntCol [3]) :: fleet)); reflexivity.
Defined.

Lemma slope_gating_witness :
  exists ind engines life vals,
    degradation_indicators example_log example_polyfit_slope "sensor_d"
      "engine_id" "life_frac" default_early_frac default_late_frac 10 fleet
    = (Ok ind, fleet)
    /\ slope ind =
         fleet_mean
           (flat_map (slope_contribution example_polyfit_slope 10)
              (engine_rows engines life vals))
    /\ n_engines_used_slope ind = 2%nat.
Proof.
  eexists. do 3 eexists.
  split; [vm_compute; reflexivity |].
  split.
  - eapply (slope_gating example_log example_polyfit_slope "sensor_d"
              "engine_id" "life_frac" default_early_frac default_late_frac
              10 fleet _ fleet);
      [vm_compute; reflexivity | reflexivity | reflexivity | reflexivity].
  - reflexivity.
Defined.

Lemma few_points_no_slope_witness :
  exists ind,
    degradation_indicators example_log example_polyfit_slope "sensor_d"
      "engine_id" "life_frac" default_early_frac default_late_frac 20 fleet
    = (Ok ind, fleet)
    /\ slope ind = nan /\ abs_slope ind = nan
    /\ slope_std ind = nan /\ abs_slope_std ind = nan
    /\ n_engines_used_slope ind = 0%nat.
Proof.
  eexists. split; [vm_compute; reflexivity |].
  eapply (few_points_no_slope example_log example_polyfit_slope "sensor_d"
            "engine_id" "life_frac" default_early_frac default_late_frac 20
            fleet _ fleet);
    [vm_compute; reflexivity | reflexivity | reflexivity | reflexivity |].
  intros rows Hin. vm_compute in Hin.
  destruct Hin as [<- | [<- | []]]; reflexivity.
Defined.

Lemma no_full_windows_no_shift_witness :
  exists ind,
    degradation_indicators example_log example_polyfit_slope "sensor_a"
      "engine_id" "life_frac" default_early_frac default_late_frac 20
      short_fleet
    = (Ok ind, short_fleet)
    /\ mean_shift ind = nan /\ abs_mean_shift ind = nan
    /\ variance_ratio ind = nan /\ log_variance_ratio ind = nan
    /\ mean_shift_std ind = nan /\ abs_mean_shift_std ind = nan
    /\ n_engines_used_shift ind = 0%nat.
Proof.
  eexists. split; [vm_compute; reflexivity |].
  eapply (no_full_windows_no_shift example_log example_polyfit_slope
            "sensor_a" "engine_id" "life_frac" default_early_frac
            default_late_frac 20 short_fleet _ short_fleet);
    [vm_compute; reflexivity | reflexivity | reflexivity | reflexivity |].
  intros rows Hin. vm_compute in Hin.
  destruct Hin as [<- | []]; reflexivity.
Defined.

Lemma indicator_magnitudes_not_negative_witness :
  exists ind,
    degradation_indicators example_log example_polyfit_slope "sensor_d"
      "engine_id" "life_frac" default_early_frac default_late_frac 20 fleet
    = (Ok ind, fleet)
    /\ ltb (abs_mean_shift ind) zero = false
    /\ ltb (variance_ratio ind) zero = false
    /\ isfinite (baseline_std_early ind) = true.
Proof.
  eexists. split; [vm_compute; reflexivity |].
  destruct (indicator_magnitudes_not_negative example_log
              example_polyfit_slope "sensor_d" "engine_id" "life_frac"
              default_early_frac default_late_frac 20 fleet _ fleet
              ltac:(vm_compute; reflexivity))
    as (Ha & _ & Hv & _).
  split; [exact Ha |]. split; [exact Hv | reflexivity].
Defined.

Lemma degradation_indicators_returns_witness :
  exists ind,
    degradation_indicators example_log example_polyfit_slope "sensor_d"
      "engine_id" "life_frac" default_early_frac default_late_frac 10 fleet
    = (Ok ind, fleet).
Proof.
  eapply (degradation_indicators_returns example_log example_polyfit_slope
            "sensor_d" "engine_id" "life_frac" default_early_frac
            default_late_frac 10 fleet);
    [reflexivity | reflexivity | reflexivity | discriminate |].
  intros rows _ _ _. discriminate.
Defined.

Lemma rank_sensors_missing_sensor_raises_witness :
  exists e,
    rank_sensors_by_degradation example_log example_polyfit_slope
      stable_argsort "engine_id" "life_frac" default_early_frac
      default_late_frac 20 (Some ["sensor_a"; "sensor_z"]%string) fleet
    = (Raise e, fleet).
Proof.
  apply (rank_sensors_missing_sensor_raises example_log
           example_polyfit_slope stable_argsort "engine_id" "life_frac"
           default_early_frac default_late_frac 20 "sensor_z"
           ["sensor_a"; "sensor_z"]%string fleet);
    [right; left; reflexivity | reflexivity].
Defined.

Lemma rank_sensors_needs_life_frac_witness :
  fst (rank_sensors_by_degradation example_log example_polyfit_slope
         stable_argsort "engine_id" "life_frac" default_early_frac
         default_late_frac 20 None raw_fleet)
  = Raise (KeyError
      "Missing 'life_frac'. Call ensure_life_frac(df) before computing indicators.").
Proof.
  apply (proj1 (rank_sensors_needs_life_frac example_log
                  example_polyfit_slope stable_argsort "engine_id"
                  "life_frac" default_early_frac default_late_frac 20
                  raw_fleet eq_refl)).
  discriminate.
Defined.

Lemma rank_rows_are_indicator_values_witness :
  exists table,
    rank_sensors_by_degradation example_log example_polyfit_slope
      stable_argsort "engine_id" "life_frac" default_early_frac
      default_late_frac 20 None fleet = (Ok table, fleet)
    /\ List.length table = 4%nat
    /\ Forall (fun r =>
         degradation_indicators example_log example_polyfit_slope
           (sensor (indicators r)) "engine_id" "life_frac"
           default_early_frac default_late_frac 20 fleet
         = (Ok (indicators r), fleet)) table.
Proof.
  eexists. split; [vm_compute; reflexivity |].
  split; [reflexivity |].
  eapply (rank_rows_are_indicator_values example_log example_polyfit_slope
            stable_argsort "engine_id" "life_frac" default_early_frac
            default_late_frac 20 None fleet _ fleet).
  vm_compute. reflexivity.
Defined.

Lemma rank_scores_not_negative_witness :
  exists table,
    rank_sensors_by_degradation example_log example_polyfit_slope
      stable_argsort "engine_id" "life_frac" default_early_frac
      default_late_frac 20 None fleet = (Ok table, fleet)
    /\ List.length table = 4%nat
    /\ Forall (fun r =>
         isnan (score r) = false /\ geb (score r) zero = true
         /\ (isnan (instability_signal r) = true
             \/ geb (instability_signal r) zero = true)) table.
Proof.
  eexists. split; [vm_compute; reflexivity |].
  split; [reflexivity |].
  eapply (rank_scores_not_negative example_log example_polyfit_slope
            stable_argsort "engine_id" "life_frac" default_early_frac
            default_late_frac 20 None fleet _ fleet).
  vm_compute. reflexivity.
Defined.

Lemma ensure_then_indicators_no_key_error_witness :
  not_key_error
    (fst ((ensure_life_frac "engine_id" "cycle" "life_frac" ;;;
           degradation_indicators example_log example_polyfit_slope
             "sensor_a" "engine_id" "life_frac" default_early_frac
             default_late_frac 20) raw_fleet)).
Proof.
  apply (ensure_then_indicators_no_key_error example_log
           example_polyfit_slope "sensor_a" "engine_id" "cycle" "life_frac"
           default_early_frac default_late_frac 20 raw_fleet);
    reflexivity.
Defined.

Lemma rank_table_descending_witness :
  exists table,
    rank_sensors_by_degradation example_log example_polyfit_slope
      stable_argsort "engine_id" "life_frac" default_early_frac
      default_late_frac 20 (Some ["sensor_c"; "sensor_a"; "sensor_d"]%string)
      fleet = (Ok table, fleet)
    /\ map (fun r => sensor (indicators r)) table
       = ["sensor_d"; "sensor_c"; "sensor_a"]%string
    /\ descending_by_score table.
Proof.
  eexists. split; [vm_compute; reflexivity |].
  split; [reflexivity |].
  exact (proj1 (rank_table_descending example_log example_polyfit_slope
                  stable_argsort "engine_id" "life_frac" default_early_frac
                  default_late_frac 20
                  (Some ["sensor_c"; "sensor_a"; "sensor_d"]%string) fleet _
                  fleet stable_argsort_spec ltac:(vm_compute; reflexivity))).
Defined.
